(** * Yaw5c: the movie-generation pipeline of [main.py]

    A shallow embedding of the script parser, the voice dispatch, the
    asset and duration policies and the job worker of [main.py], with
    the properties of the written specification stated over it.

    Python values are modelled as follows.
    - [str] is a list of characters.  A character is a code point below
      256; [str.isspace], the line boundaries of [str.splitlines] and
      [str.lower] are the ones Python has for these code points.
    - [str.upper] takes two of these characters above code point 255
      ([ÿ] to U+0178 and [µ] to U+039C) and turns [ß] into [SS].  Its
      results are strings over [uchar]: the code points below 256 and
      these two capitals.  The speaker of a scene, the one string the
      program upper-cases, is such a string, a [ustr].
    - a scene is the two-key dict [{"character": .., "text": ..}];
      the list [scenes] holds references to these dicts and [current]
      is a reference to one of them, so [current] is modelled as an index
      into [scenes] and the in-place update goes through that index.
    - a job record is the dict stored in [JOB_STORE]; [JOB_STORE] is a
      finite map from job ids to job records.
    - the speech engine, the encoder, the imaging library and the file
      system are outside the program: every call into them is an event of
      the run, and its outcome (normal return or an exception with its
      message) is given by an environment. *)

From Stdlib Require Import ZArith QArith Qround Qminmax Ascii String Sorted
  DecimalString DecimalNat Lqa.
From stdpp Require Import base option list gmap strings.

Local Open Scope Z_scope.

(** ** Python strings *)

Abbreviation str := (list ascii).

(** A string literal of the source. *)
Definition lit (s : string) : str := list_ascii_of_string s.

(** [c.isspace()] for a single character. *)
Definition isspace (c : ascii) : bool :=
  let n := nat_of_ascii c in
  ((9 <=? n)%nat && (n <=? 13)%nat)
  || ((28 <=? n)%nat && (n <=? 32)%nat)
  || (n =? 133)%nat || (n =? 160)%nat.

(** The characters at which [str.splitlines] ends a line. *)
Definition is_linebreak (c : ascii) : bool :=
  let n := nat_of_ascii c in
  ((10 <=? n)%nat && (n <=? 13)%nat)
  || ((28 <=? n)%nat && (n <=? 30)%nat)
  || (n =? 133)%nat.

Definition CR : ascii := ascii_of_nat 13.
Definition LF : ascii := ascii_of_nat 10.
Definition COLON : ascii := ":"%char.

Definition ascii_eqb (a b : ascii) : bool := bool_decide (a = b).

(** [s.lstrip()], [s.rstrip()] and [s.strip()]. *)
Fixpoint lstrip (s : str) : str :=
  match s with
  | c :: s' => if isspace c then lstrip s' else s
  | [] => []
  end.

Definition rstrip (s : str) : str := rev (lstrip (rev s)).

Definition strip (s : str) : str := rstrip (lstrip s).

(** [s.splitlines()]: [acc] holds, reversed, the characters of the line
    being read.  A line is emitted at each line boundary ([\r\n] counts
    as one) and, when characters are left over, at the end of the
    string. *)
Fixpoint splitlines_from (acc : str) (s : str) : list str :=
  match s with
  | [] => match acc with [] => [] | _ => [rev acc] end
  | c :: s' =>
      if ascii_eqb c CR then
        match s' with
        | d :: s'' =>
            if ascii_eqb d LF then rev acc :: splitlines_from [] s''
            else rev acc :: splitlines_from [] s'
        | [] => rev acc :: splitlines_from [] s'
        end
      else if is_linebreak c then rev acc :: splitlines_from [] s'
      else splitlines_from (c :: acc) s'
  end.

Definition splitlines (s : str) : list str := splitlines_from [] s.

(** [sep in s] for a one-character [sep]. *)
Definition contains (sep : ascii) (s : str) : bool :=
  existsb (ascii_eqb sep) s.

(** [s.split(sep, 1)] for a one-character [sep] that occurs in [s]: the
    text before the first [sep] and the text after it.  (Without an
    occurrence the source's two-variable unpacking would fail; the parser
    only splits after the [in] test.) *)
Fixpoint split_once (sep : ascii) (s : str) : str * str :=
  match s with
  | [] => ([], [])
  | c :: s' =>
      if ascii_eqb c sep then ([], s')
      else let '(a, b) := split_once sep s' in (c :: a, b)
  end.

(** The characters of an upper-cased string: a code point below 256,
    or one of the two capitals that [str.upper] reaches from there. *)
Inductive uchar :=
| Latin1 (c : ascii)
| CAPITAL_Y_DIAERESIS
| CAPITAL_MU.

Abbreviation ustr := (list uchar).

#[global] Instance uchar_eq_dec : EqDecision uchar.
Proof. solve_decision. Defined.

#[global] Instance uchar_countable : Countable uchar.
Proof.
  refine (inj_countable'
            (fun c => match c with
                      | Latin1 a => inl a
                      | CAPITAL_Y_DIAERESIS => inr true
                      | CAPITAL_MU => inr false
                      end)
            (fun x => match x with
                      | inl a => Latin1 a
                      | inr true => CAPITAL_Y_DIAERESIS
                      | inr false => CAPITAL_MU
                      end) _).
  by intros [].
Defined.

(** A [str] read as a [ustr]. *)
Definition wide (s : str) : ustr := map Latin1 s.

(** [c.upper()] for a single character below code point 256: the
    letters a-z and the letters [à]..[þ] ([÷] is no letter) move down by
    32, [ß] becomes [SS], [ÿ] and [µ] become the two capitals above 255,
    and every other character stays. *)
Definition upper_char (c : ascii) : ustr :=
  let n := nat_of_ascii c in
  if ((97 <=? n)%nat && (n <=? 122)%nat)
     || ((224 <=? n)%nat && (n <=? 254)%nat && negb (n =? 247)%nat)
  then [Latin1 (ascii_of_nat (n - 32))]
  else if (n =? 223)%nat then [Latin1 "S"%char; Latin1 "S"%char]
  else if (n =? 255)%nat then [CAPITAL_Y_DIAERESIS]
  else if (n =? 181)%nat then [CAPITAL_MU]
  else [Latin1 c].

(** [s.upper()]; the two capitals above 255 are their own upper case. *)
Definition upper (s : ustr) : ustr :=
  flat_map (fun c => match c with
                     | Latin1 a => upper_char a
                     | _ => [c]
                     end) s.

(** [c.lower()] for a single character below code point 256: the
    letters A-Z and the letters [À]..[Þ] ([×] is no letter) move up by
    32, and every other character stays. *)
Definition lower_char (c : ascii) : ascii :=
  let n := nat_of_ascii c in
  if ((65 <=? n)%nat && (n <=? 90)%nat)
     || ((192 <=? n)%nat && (n <=? 222)%nat && negb (n =? 215)%nat)
  then ascii_of_nat (n + 32) else c.

Definition lower (s : str) : str := map lower_char s.

(** [s.split()]: the maximal runs of non-space characters.  [acc] holds,
    reversed, the word being read. *)
Fixpoint split_ws_from (acc : str) (s : str) : list str :=
  match s with
  | [] => match acc with [] => [] | _ => [rev acc] end
  | c :: s' =>
      if isspace c then
        match acc with
        | [] => split_ws_from [] s'
        | _ => rev acc :: split_ws_from [] s'
        end
      else split_ws_from (c :: acc) s'
  end.

Definition split_ws (s : str) : list str := split_ws_from [] s.

(** [s.startswith(p)]. *)
Fixpoint startswith (p s : str) : bool :=
  match p, s with
  | [], _ => true
  | a :: p', b :: s' => ascii_eqb a b && startswith p' s'
  | _ :: _, [] => false
  end.

(** ** The script parser *)

(** The dict [{"character": name, "text": text}]. *)
Record scene := Scene { character : ustr; text : str }.

(** The two local variables of the parsing loop.  [current] refers to a
    dict that is also an element of [scenes]. *)
Record parser_state := ParserState {
  scenes : list scene;
  current : option nat
}.

(** [current["text"] += " " + line] *)
Definition append_text (line : str) (sc : scene) : scene :=
  {| character := character sc; text := text sc ++ lit " " ++ line |}.

Definition NARRATOR : ustr := wide (lit "NARRATOR").

(** One iteration of [for raw in script.splitlines()]. *)
Definition parse_line (st : parser_state) (raw : str) : parser_state :=
  let line := strip raw in
  match line with
  | [] => {| scenes := scenes st; current := None |}
  | _ =>
      if contains COLON line then
        let '(name, txt) := split_once COLON line in
        let cur :=
          {| character := upper (wide (strip name)); text := strip txt |} in
        {| scenes := scenes st ++ [cur];
           current := Some (length (scenes st)) |}
      else
        match current st with
        | Some i =>
            {| scenes := alter (append_text line) i (scenes st);
               current := Some i |}
        | None =>
            let cur := {| character := NARRATOR; text := line |} in
            {| scenes := scenes st ++ [cur];
               current := Some (length (scenes st)) |}
        end
  end.

Definition parse_lines (lines : list str) : parser_state :=
  fold_left parse_line lines {| scenes := []; current := None |}.

Definition parse_script_with_characters (script : str) : list scene :=
  scenes (parse_lines (splitlines script)).

(** ** Paths and formatting *)

Definition SLASH : ascii := "/"%char.
Definition DOT : ascii := "."%char.

(** [str(i)] and [f"{i}"] for a scene index. *)
Definition str_of_nat (i : nat) : str :=
  lit (DecimalString.NilZero.string_of_uint (Nat.to_uint i)).

(** [os.path.join(a, b)] (POSIX). *)
Definition path_join (a b : str) : str :=
  if startswith [SLASH] b then b
  else match a with
       | [] => b
       | _ => if startswith [SLASH] (rev a) then a ++ b else a ++ [SLASH] ++ b
       end.

(** The characters up to the first [c], and what follows that [c]. *)
Fixpoint span_until (c : ascii) (s : str) : str * option str :=
  match s with
  | [] => ([], None)
  | d :: s' =>
      if ascii_eqb d c then ([], Some s')
      else let '(a, r) := span_until c s' in (d :: a, r)
  end.

(** [os.path.basename(p)]: what follows the last slash. *)
Definition basename (p : str) : str := rev (span_until SLASH (rev p)).1.

(** [os.path.splitext(p)[1]]: the extension starts at the last dot of the
    file name, unless only dots precede it there. *)
Definition splitext_ext (p : str) : str :=
  match span_until DOT (rev (basename p)) with
  | (ext_rev, Some stem_rev) =>
      if forallb (ascii_eqb DOT) stem_rev then []
      else DOT :: rev ext_rev
  | (_, None) => []
  end.

Definition str_eqb (a b : str) : bool := bool_decide (a = b).

(** [x in [..]] for a list of strings. *)
Definition str_in (x : str) (l : list str) : bool := existsb (str_eqb x) l.

Definition VIDEO_EXTS : list str :=
  [lit ".mp4"; lit ".mov"; lit ".webm"; lit ".mkv"; lit ".avi"].

Definition OUTPUT_DIR : str := lit "outputs".
Definition TMP_DIR : str := lit "tmp".

(** ** Numbers *)

(** [int(x)] for a float: truncation towards zero.  A float is
    modelled by the rational it stands for; true division of two
    integers is exact in this model. *)
Definition py_int (x : Q) : Z := Z.quot (Qnum x) (Z.pos (Qden x)).

(** [max(a, b)]: the first argument unless the second is greater. *)
Definition py_max (a b : Q) : Q := if Qlt_le_dec a b then b else a.

(** [len(text.split())] *)
Definition word_count (txt : str) : Z := Z.of_nat (length (split_ws txt)).

(** [int(max(4, len(sc["text"].split())/2.5))], the [duration] argument
    of the three rendering branches. *)
Definition scene_duration (txt : str) : Z :=
  py_int (py_max (4 # 1) (inject_Z (word_count txt) / (5 # 2))).

(** [base + int(width * (i+1)/max(1,len(scenes)))] *)
Definition band_progress (base width : Z) (i n : nat) : Z :=
  base + py_int (inject_Z (width * (Z.of_nat i + 1))
                 / inject_Z (Z.max 1 (Z.of_nat n))).

(** ** Asset selection *)

(** [images[i % len(images)]]; the lists are non-empty where the source
    indexes them. *)
Definition round_robin (i : nat) (l : list str) : option str :=
  l !! (i mod length l)%nat.

(** The [asset] variable of the rendering loop:
    [None], or the asset picked from [images], else from [clips]. *)
Definition select_asset (i : nat) (images clips : list str) : option str :=
  match images with
  | _ :: _ => round_robin i images
  | [] => match clips with
          | _ :: _ => round_robin i clips
          | [] => None
          end
  end.

(** ** Job records and [JOB_STORE] *)

(** The four values written to a job's ["status"]. *)
Inductive job_status := Pending | Running | Done | Error.

(** The dict stored under a job id.  ["file"] and ["preview"] hold
    [None] or a path; the key ["error"] is absent ([None] here) until the
    worker's exception handler writes it. *)
Record job := Job {
  status : job_status;
  progress : Z;
  file : option str;
  preview : option str;
  error : option str
}.

(** [JOB_STORE[job_id][key] = value], one constructor per key the
    program writes. *)
Inductive field_write :=
| SetStatus (s : job_status)
| SetProgress (p : Z)
| SetFile (path : str)
| SetPreview (path : str)
| SetError (msg : str).

Definition apply_write (fw : field_write) (j : job) : job :=
  match fw with
  | SetStatus s =>
      {| status := s; progress := progress j; file := file j;
         preview := preview j; error := error j |}
  | SetProgress p =>
      {| status := status j; progress := p; file := file j;
         preview := preview j; error := error j |}
  | SetFile path =>
      {| status := status j; progress := progress j; file := Some path;
         preview := preview j; error := error j |}
  | SetPreview path =>
      {| status := status j; progress := progress j; file := file j;
         preview := Some path; error := error j |}
  | SetError msg =>
      {| status := status j; progress := progress j; file := file j;
         preview := preview j; error := Some msg |}
  end.

(** ** Calls that leave the program *)

(** Each constructor stands for one helper of [main.py] whose body only
    drives a library (gTTS, moviepy, PIL, the file system), with the
    arguments the helper receives. *)
Inductive call :=
| CallGtts (txt out_path lang : str)
| CallImageToVideo (image_path out_video : str) (duration : Z)
    (resolution : str) (fps : Z)
| CallClipTrimOrLoop (input_clip out_clip : str) (duration : Z)
    (resolution : str) (fps : Z)
| CallTextSlide (txt tmp_img resolution : str)
| CallMux (video_in audio_in out_path : str)
| CallConcat (video_list : list str) (out_path : str)
| CallPreview (full_video_path preview_path : str) (preview_seconds : Z)
    (res : str)
| CallMakedirs (path : str)
| CallSaveUpload (path : str).

(** What the run of one job does, in order. *)
Inductive action :=
| ActStore (job_id : str) (j : job)
| ActSet (job_id : str) (fw : field_write)
| ActCall (c : call)
| ActCreateTask (job_id : str).

(** An action together with [JOB_STORE] as it stands once the action is
    performed; for a call, and for handing the worker to the event loop,
    this is the store other tasks see while the job's own code is not
    running. *)
Record event := Event { act : action; visible : gmap str job }.

(** ** Exceptions *)

Inductive exn :=
| KeyError (key : str)
| IndexError (msg : str)
| ValueError (msg : str)
| StageError (msg : str).

(** [str(e)].  A [KeyError] prints its key quoted. *)
Definition str_of_exn (e : exn) : str :=
  match e with
  | KeyError key => lit "'" ++ key ++ lit "'"
  | IndexError msg => msg
  | ValueError msg => msg
  | StageError msg => msg
  end.

(** ** The monad of the job code: state and exceptions *)

Record world := World { JOB_STORE : gmap str job; log : list event }.

Inductive result (A : Type) :=
| Return (a : A)
| Raise (e : exn).
Arguments Return {A} a.
Arguments Raise {A} e.

Definition M (A : Type) : Type := world -> result A * world.

Definition ret {A} (a : A) : M A := fun w => (Return a, w).

Definition bind {A B} (m : M A) (k : A -> M B) : M B :=
  fun w =>
    match m w with
    | (Return a, w') => k a w'
    | (Raise e, w') => (Raise e, w')
    end.

Definition raise {A} (e : exn) : M A := fun w => (Raise e, w).

(** [try: body  except Exception as e: handler(e)] *)
Definition try_except {A} (body : M A) (handler : exn -> M A) : M A :=
  fun w =>
    match body w with
    | (Return a, w') => (Return a, w')
    | (Raise e, w') => handler e w'
    end.

Declare Scope job_scope.
Delimit Scope job_scope with job.
Notation "x <- c1 ;; c2" := (bind c1 (fun x => c2))
  (at level 100, c1 at next level, right associativity) : job_scope.
Notation "c1 ;; c2" := (bind c1 (fun _ => c2))
  (at level 100, right associativity) : job_scope.
Local Open Scope job_scope.

Definition record (a : action) (st : gmap str job) : M unit :=
  fun w => (Return tt, {| JOB_STORE := st; log := log w ++ [Event a st] |}).

(** [JOB_STORE[job_id] = j] *)
Definition store_job (job_id : str) (j : job) : M unit :=
  fun w => record (ActStore job_id j) (<[job_id := j]> (JOB_STORE w)) w.

(** [JOB_STORE[job_id][key] = value]; the subscript [JOB_STORE[job_id]]
    fails for an unknown id. *)
Definition set_field (job_id : str) (fw : field_write) : M unit :=
  fun w =>
    match JOB_STORE w !! job_id with
    | Some j =>
        record (ActSet job_id fw) (<[job_id := apply_write fw j]> (JOB_STORE w)) w
    | None => (Raise (KeyError job_id), w)
    end.

(** [asyncio.create_task(..)]: the endpoint hands the worker over. *)
Definition create_task (job_id : str) : M unit :=
  fun w => record (ActCreateTask job_id) (JOB_STORE w) w.

(** ** The pipeline *)

(** [CHAR_VOICE_MAP] as the source initialises it. *)
Definition CHAR_VOICE_MAP : gmap ustr str := {[ NARRATOR := lit "gtts_en" ]}.

(** An uploaded file, as far as the endpoint uses it. *)
Record upload := Upload { filename : str }.

Section Pipeline.

(** The environment of a run: how each call into a library ends
    ([None]: it returns; [Some msg]: it raises an exception [e] with
    [str(e) = msg]); what [os.path.exists] answers while scene [i] is
    rendered; and the voice map in force, which the source allows to
    be overridden at run time. *)
Variable outcome : call -> option str.
Variable path_exists : nat -> str -> bool.
Variable voice_map : gmap ustr str.

Definition perform (c : call) : M unit :=
  fun w =>
    let w' := {| JOB_STORE := JOB_STORE w;
                 log := log w ++ [Event (ActCall c) (JOB_STORE w)] |} in
    match outcome c with
    | None => (Return tt, w')
    | Some msg => (Raise (StageError msg), w')
    end.

Definition synthesize_with_gtts (txt out_path lang : str) : M str :=
  perform (CallGtts txt out_path lang) ;;
  ret out_path.

Definition synthesize_character_voice (char : ustr) (txt out_path : str)
    : M str :=
  let provider := default (lit "gtts_en") (voice_map !! upper char) in
  if startswith (lit "gtts") provider then
    synthesize_with_gtts txt out_path (lit "en") ;;
    ret out_path
  else
    synthesize_with_gtts txt out_path (lit "en") ;;
    ret out_path.

Definition image_to_video (image_path out_video : str) (duration : Z)
    (resolution : str) (fps : Z) : M str :=
  perform (CallImageToVideo image_path out_video duration resolution fps) ;;
  ret out_video.

Definition clip_trim_or_loop (input_clip out_clip : str) (duration : Z)
    (resolution : str) (fps : Z) : M str :=
  perform (CallClipTrimOrLoop input_clip out_clip duration resolution fps) ;;
  ret out_clip.

Definition mux_video_with_audio (video_in audio_in out_path : str) : M str :=
  perform (CallMux video_in audio_in out_path) ;;
  ret out_path.

Definition concat_videos (video_list : list str) (out_path : str) : M str :=
  match video_list with
  | [] => raise (ValueError (lit "No videos to concat"))
  | _ =>
      perform (CallConcat video_list out_path) ;;
      ret out_path
  end.

Definition generate_preview (full_video_path preview_path : str)
    (preview_seconds : Z) (res : str) : M str :=
  perform (CallPreview full_video_path preview_path preview_seconds res) ;;
  ret preview_path.

(** [for i, x in enumerate(l): acc = body(i, x, acc)], counting from
    [i]. *)
Fixpoint for_enumerate {A B : Type} (body : nat -> A -> B -> M B)
    (i : nat) (l : list A) (acc : B) : M B :=
  match l with
  | [] => ret acc
  | x :: l' =>
      acc' <- body i x acc ;;
      for_enumerate body (S i) l' acc'
  end.

(** [if asset and os.path.exists(asset)] *)
Definition usable_asset (i : nat) (asset : option str) : option str :=
  match asset with
  | Some (c :: p) => if path_exists i (c :: p) then Some (c :: p) else None
  | _ => None
  end.

Section Worker.

Variables (job_id script : str) (images clips : list str)
          (title resolution : str) (fps : Z).

Definition scene_path (i : nat) (suffix : string) : str :=
  path_join TMP_DIR (job_id ++ lit "_scene_" ++ str_of_nat i ++ lit suffix).

(** The body of the first loop: one voice track per scene. *)
Definition synthesize_scene (n : nat) (i : nat) (sc : scene)
    (scene_audio_files : list str) : M (list str) :=
  let char := character sc in
  let txt := text sc in
  let aud_path := scene_path i "_audio.mp3" in
  synthesize_character_voice char txt aud_path ;;
  set_field job_id (SetProgress (band_progress 15 20 i n)) ;;
  ret (scene_audio_files ++ [aud_path]).

(** The body of the second loop: the scene's picture, then its
    voice track on top. *)
Definition render_scene (n : nat) (scene_audio_files : list str)
    (i : nat) (sc : scene) (scene_video_files : list str)
    : M (list str) :=
  let asset := select_asset i images clips in
  let tmp_scene_vid := scene_path i "_video.mp4" in
  match usable_asset i asset with
  | Some asset =>
      let ext := lower (splitext_ext asset) in
      if str_in ext VIDEO_EXTS then
        clip_trim_or_loop asset tmp_scene_vid
          (scene_duration (text sc)) resolution fps
      else
        image_to_video asset tmp_scene_vid
          (scene_duration (text sc)) resolution fps
  | None =>
      let txt := text sc in
      let tmp_img := scene_path i "_img.png" in
      perform (CallTextSlide (take 200 txt) tmp_img resolution) ;;
      image_to_video tmp_img tmp_scene_vid
        (scene_duration (text sc)) resolution fps
  end ;;
  match scene_audio_files !! i with
  | None => raise (IndexError (lit "list index out of range"))
  | Some tmp_scene_audio =>
      let tmp_scene_with_audio := scene_path i "_final.mp4" in
      mux_video_with_audio tmp_scene_vid tmp_scene_audio
        tmp_scene_with_audio ;;
      set_field job_id (SetProgress (band_progress 40 30 i n)) ;;
      ret (scene_video_files ++ [tmp_scene_with_audio])
  end.

(** The [try] block of [worker_render_movie]. *)
Definition worker_try : M unit :=
  let scenes := parse_script_with_characters script in
  set_field job_id (SetProgress 10) ;;
  set_field job_id (SetProgress 15) ;;
  scene_audio_files <-
    for_enumerate (synthesize_scene (length scenes)) 0 scenes [] ;;
  set_field job_id (SetProgress 40) ;;
  scene_video_files <-
    for_enumerate (render_scene (length scenes) scene_audio_files)
      0 scenes [] ;;
  set_field job_id (SetProgress 75) ;;
  let out_file :=
    path_join OUTPUT_DIR (title ++ lit "_" ++ job_id ++ lit ".mp4") in
  concat_videos scene_video_files out_file ;;
  set_field job_id (SetProgress 88) ;;
  let preview_path :=
    path_join OUTPUT_DIR
      (title ++ lit "_" ++ job_id ++ lit "_preview.mp4") in
  generate_preview out_file preview_path 15 (lit "640x360") ;;
  set_field job_id (SetPreview preview_path) ;;
  set_field job_id (SetFile out_file) ;;
  set_field job_id (SetProgress 100) ;;
  set_field job_id (SetStatus Done).

(** The [except Exception as e] block. *)
Definition worker_except (e : exn) : M unit :=
  set_field job_id (SetStatus Error) ;;
  set_field job_id (SetError (str_of_exn e)) ;;
  set_field job_id (SetProgress 0).

Definition worker_render_movie : M unit :=
  set_field job_id (SetProgress 5) ;;
  try_except worker_try worker_except.

End Worker.

(** The two upload loops of the endpoint. *)
Fixpoint save_uploads (job_tmp : str) (files : list upload)
    (saved : list str) : M (list str) :=
  match files with
  | [] => ret saved
  | f :: files' =>
      let path := path_join job_tmp (filename f) in
      perform (CallSaveUpload path) ;;
      save_uploads job_tmp files' (saved ++ [path])
  end.

(** [POST /generate_movie].  [job_id] is the fresh uuid.  The result is
    the response's job id and the task handed to the event loop. *)
Definition generate_movie_endpoint (job_id script title : str)
    (images clips : list upload) (resolution : str) (fps : Z)
    : M (str * M unit) :=
  store_job job_id
    {| status := Pending; progress := 0; file := None; preview := None;
       error := None |} ;;
  let job_tmp := path_join TMP_DIR job_id in
  perform (CallMakedirs job_tmp) ;;
  saved_images <- save_uploads job_tmp images [] ;;
  saved_clips <- save_uploads job_tmp clips [] ;;
  set_field job_id (SetStatus Running) ;;
  set_field job_id (SetProgress 1) ;;
  create_task job_id ;;
  ret (job_id,
       worker_render_movie job_id script saved_images saved_clips title
         resolution fps).

(** A job from submission to the end of its worker: the endpoint, then
    the task it created. *)
Definition run_job (job_id script title : str)
    (images clips : list upload) (resolution : str) (fps : Z) : M unit :=
  submitted <-
    generate_movie_endpoint job_id script title images clips resolution fps ;;
  submitted.2.

End Pipeline.

(** ** The read-only endpoints *)

Inductive response :=
| NotFound (error_msg : str)
| JobJson (j : job)
| FileResponse (path filename : str).

(** [GET /status/{job_id}] *)
Definition status_endpoint (st : gmap str job) (job_id : str) : response :=
  match st !! job_id with
  | None => NotFound (lit "job not found")
  | Some j => JobJson j
  end.

(** [GET /download/{job_id}]; [not job.get("file")] holds for [None] and
    for the empty string. *)
Definition download_endpoint (st : gmap str job) (job_id : str) : response :=
  match st !! job_id with
  | Some j =>
      match file j with
      | Some (c :: p) => FileResponse (c :: p) (basename (c :: p))
      | _ => NotFound (lit "file not ready")
      end
  | None => NotFound (lit "file not ready")
  end.

(** [GET /preview/{job_id}] *)
Definition preview_endpoint (st : gmap str job) (job_id : str) : response :=
  match st !! job_id with
  | Some j =>
      match preview j with
      | Some (c :: p) => FileResponse (c :: p) (basename (c :: p))
      | _ => NotFound (lit "preview not ready")
      end
  | None => NotFound (lit "preview not ready")
  end.

(** * Vocabulary of the statements and of the proofs *)

(** ** Scripts *)

(** A line made of white space only (possibly empty): the lines for
    which [raw.strip()] is empty. *)
Definition blank (s : str) : bool := forallb isspace s.

(** The scene a tagged line opens, read off the raw line: speaker and
    text are what stands before and after the first colon. *)
Definition tagged_scene (raw : str) : scene :=
  {| character := upper (wide (strip (split_once COLON raw).1));
     text := strip (split_once COLON raw).2 |}.

(** [current], when set, refers to the last element of [scenes]. *)
Definition current_is_last (st : parser_state) : Prop :=
  match current st with
  | Some i => S i = length (scenes st)
  | None => True
  end.

(** What holds of the text of every scene: it is not blank, or it is
    empty and the scene is the one a tagged line of [lines] opens. *)
Definition text_present_or_untexted_tag (lines : list str) (sc : scene)
    : Prop :=
  strip (text sc) <> []
  \/ (text sc = [] /\
      exists l, In l lines /\ blank l = false /\ contains COLON l = true /\
                sc = tagged_scene l).

(** ** Runs of a job *)

(** A job record that has neither finished nor failed. *)
Definition quiet (j : job) : Prop :=
  (status j = Pending \/ status j = Running)
  /\ file j = None /\ preview j = None /\ error j = None
  /\ progress j < 100.

Definition is_running (j : option job) : bool :=
  match j with
  | Some {| status := Running |} => true
  | _ => false
  end.

(** The values written to the ["progress"] of [job_id] while its
    ["status"] is ["running"], in the order of the log. *)
Definition running_progress_writes (job_id : str) (evs : list event)
    : list Z :=
  flat_map
    (fun e =>
       match act e with
       | ActSet id (SetProgress p) =>
           if bool_decide (id = job_id) && is_running (visible e !! job_id)
           then [p] else []
       | _ => []
       end) evs.

(** The points of a run at which other tasks may look at [JOB_STORE]:
    while a call into a library is under way, and when the worker has been
    handed to the event loop. *)
Definition observable (a : action) : bool :=
  match a with
  | ActCall _ | ActCreateTask _ => true
  | _ => false
  end.

(** [JOB_STORE[job_id][key] = value] for a job that exists, as a
    function on worlds. *)
Definition commit_write (job_id : str) (w : world) (fw : field_write)
    : world :=
  match JOB_STORE w !! job_id with
  | Some j =>
      let st := <[job_id := apply_write fw j]> (JOB_STORE w) in
      {| JOB_STORE := st; log := log w ++ [Event (ActSet job_id fw) st] |}
  | None => w
  end.

Definition commit_writes (job_id : str) (fws : list field_write)
    (w : world) : world :=
  fold_left (commit_write job_id) fws w.

(** ** Triples and the invariants of a run *)

(** Hoare triples for the monad: a postcondition for a normal return
    and one for an exception. *)
Definition triple {A} (P : world -> Prop) (m : M A)
    (Q : A -> world -> Prop) (E : exn -> world -> Prop) : Prop :=
  forall w, P w ->
    match m w with
    | (Return a, w') => Q a w'
    | (Raise e, w') => E e w'
    end.

Section Runs.

Variable outcome : call -> option str.
Variable path_exists : nat -> str -> bool.
Variable voice_map : gmap ustr str.
Variable job_id : str.

Definition quiet_event (e : event) : Prop :=
  exists j, visible e !! job_id = Some j /\ quiet j.

Definition call_returned (e : event) : Prop :=
  match act e with
  | ActCall c => outcome c = None
  | _ => True
  end.

(** The run is under way: the job is in the store and every call so
    far has returned. *)
Definition alive (l0 : list event) (w : world) : Prop :=
  exists evs j,
    log w = l0 ++ evs /\ JOB_STORE w !! job_id = Some j
    /\ Forall call_returned evs.

(** The run has just raised [e]: at its last call, which raised it, or
    without a call, and then [e] is not the exception of a call. *)
Definition broken (l0 : list event) (e : exn) (w : world) : Prop :=
  exists evs j,
    log w = l0 ++ evs /\ JOB_STORE w !! job_id = Some j
    /\ ((exists pre c s msg,
            evs = pre ++ [Event (ActCall c) s] /\ Forall call_returned pre
            /\ outcome c = Some msg /\ e = StageError msg)
        \/ (Forall call_returned evs /\ forall msg, e <> StageError msg)).

(** The events [evs] since the start of the run leave the job quiet. *)
Definition quiet_log (evs : list event) (j : job) : Prop :=
  quiet j
  /\ Forall quiet_event evs
  /\ Sorted Z.le (running_progress_writes job_id evs)
  /\ Forall (fun p => p <= progress j) (running_progress_writes job_id evs).

(** The run is under way: every call so far has returned, and the job's
    progress is at most [b]. *)
Definition steady (l0 : list event) (b : Z) (w : world) : Prop :=
  exists evs j,
    log w = l0 ++ evs /\ JOB_STORE w !! job_id = Some j
    /\ quiet_log evs j /\ progress j <= b
    /\ Forall call_returned evs.

(** The run has just raised [e]: at its last call, or in
    [concat_videos] without a call. *)
Definition failed (l0 : list event) (e : exn) (w : world) : Prop :=
  exists evs j,
    log w = l0 ++ evs /\ JOB_STORE w !! job_id = Some j
    /\ quiet_log evs j
    /\ ((exists pre c s msg,
            evs = pre ++ [Event (ActCall c) s] /\ Forall call_returned pre
            /\ outcome c = Some msg /\ e = StageError msg)
        \/ (Forall call_returned evs
            /\ e = ValueError (lit "No videos to concat"))).

End Runs.

(** Progress once [k] scenes of a loop are done. *)
Definition band_bound (base width : Z) (k n : nat) : Z :=
  base + (width * Z.of_nat k) / Z.max 1 (Z.of_nat n).

(** The worker has made its last four writes. *)
Definition finishing (outcome : call -> option str) (job_id : str)
    (l0 : list event) (w : world) : Prop :=
  exists wq preview_path out_file,
    steady outcome job_id l0 88 wq
    /\ preview_path <> [] /\ out_file <> []
    /\ w = commit_writes job_id
             [SetPreview preview_path; SetFile out_file; SetProgress 100;
              SetStatus Done] wq.

(** The worker has caught an exception and made the three writes of its
    handler. *)
Definition aborted (outcome : call -> option str) (job_id : str)
    (l0 : list event) (w : world) : Prop :=
  exists e w1,
    failed outcome job_id l0 e w1
    /\ w = commit_writes job_id
             [SetStatus Error; SetError (str_of_exn e); SetProgress 0] w1.

(** The record of [job_id] in the store [st], as the specification wants
    it: full progress, the artifact and the preview go with
    [status = done], and the two retrieval endpoints answer
    accordingly. *)
Definition consistent_view (st : gmap str job) (job_id : str) : Prop :=
  exists j,
    st !! job_id = Some j
    /\ (progress j = 100 <-> status j = Done)
    /\ (is_Some (file j) <-> status j = Done)
    /\ (is_Some (preview j) <-> status j = Done)
    /\ (status j <> Done ->
        download_endpoint st job_id = NotFound (lit "file not ready")
        /\ preview_endpoint st job_id = NotFound (lit "preview not ready"))
    /\ (status j = Done ->
        exists f p,
          download_endpoint st job_id = FileResponse f (basename f)
          /\ preview_endpoint st job_id = FileResponse p (basename p)
          /\ file j = Some f /\ preview j = Some p).

(** A summary of a run that started with the log [l0] and ended in the
    world [w]: the progress written while running never decreases, and
    the job's record is consistent wherever it can be observed and at
    the end. *)
Definition run_summary (job_id : str) (l0 : list event) (w : world)
    : Prop :=
  exists evs,
    log w = l0 ++ evs
    /\ Sorted Z.le (running_progress_writes job_id evs)
    /\ (forall e, In e evs -> observable (act e) = true ->
          consistent_view (visible e) job_id)
    /\ consistent_view (JOB_STORE w) job_id.

(** The duration every rendering call of [evs] is given. *)
Definition rendered_for (d : Z) (e : event) : Prop :=
  match act e with
  | ActCall (CallImageToVideo _ _ d' _ _)
  | ActCall (CallClipTrimOrLoop _ _ d' _ _) => d' = d
  | _ => True
  end.

(** The log grew by events that all satisfy [R]. *)
Definition grew_by (R : event -> Prop) (l0 : list event) (w : world)
    : Prop :=
  exists evs, log w = l0 ++ evs /\ Forall R evs.

(** The four writes that end a successful run, one after the other. *)
Definition ends_with_done_writes (job_id : str) (evs : list event) : Prop :=
  exists q s1 s2 s3 s4 preview_path out_file,
    evs = q ++ [Event (ActSet job_id (SetPreview preview_path)) s1;
                Event (ActSet job_id (SetFile out_file)) s2;
                Event (ActSet job_id (SetProgress 100)) s3;
                Event (ActSet job_id (SetStatus Done)) s4].

(** ** Concrete inputs *)

(** A job as the submission endpoint leaves it. *)
Definition demo_job : job :=
  {| status := Running; progress := 1; file := None; preview := None;
     error := None |}.

Definition demo_world : world :=
  {| JOB_STORE := {[ lit "J" := demo_job ]}; log := [] |}.

Definition empty_world : world := {| JOB_STORE := ∅; log := [] |}.

(** An environment in which every call returns, and one in which muxing
    raises. *)
Definition all_return (c : call) : option str := None.

Definition mux_raises (c : call) : option str :=
  match c with
  | CallMux _ _ _ => Some (lit "boom")
  | _ => None
  end.

Definition always_exists (i : nat) (p : str) : bool := true.

(** The script with the three lines [A: x], an empty line, [b : y]. *)
Definition tagged_script : str :=
  lit "A: x" ++ [LF; LF] ++ lit "b : y".

(** The script with the two lines [A: x] and [ more]. *)
Definition continued_script : str := lit "A: x" ++ [LF] ++ lit " more".

(** ** Further vocabulary: scripts *)

(** Does the line [l] open a scene, given whether a scene is open
    before it?  A tagged line always does; an untagged one does when no
    scene is open. *)
Definition opens_scene (scene_open : bool) (l : str) : bool :=
  negb (blank l) && (contains COLON l || negb scene_open).

(** The number of lines of [lines] that open a scene, reading from a
    point where a scene is open or not as [scene_open] says. *)
Fixpoint count_openers (scene_open : bool) (lines : list str) : nat :=
  match lines with
  | [] => 0
  | l :: lines' =>
      (if opens_scene scene_open l then 1 else 0)
      + count_openers (negb (blank l)) lines'
  end.

(** [c.isspace()], [s.lstrip()], [s.rstrip()] and [s.strip()] for a
    speaker; neither of the two capitals above 255 is white space. *)
Definition isspace_u (c : uchar) : bool :=
  match c with
  | Latin1 a => isspace a
  | _ => false
  end.

Fixpoint lstrip_u (s : ustr) : ustr :=
  match s with
  | c :: s' => if isspace_u c then lstrip_u s' else s
  | [] => []
  end.

Definition rstrip_u (s : ustr) : ustr := rev (lstrip_u (rev s)).

Definition strip_u (s : ustr) : ustr := rstrip_u (lstrip_u s).

(** A speaker that upper-casing and trimming leave as it is. *)
Definition normalised_speaker (sc : scene) : Prop :=
  upper (character sc) = character sc
  /\ strip_u (character sc) = character sc.

(** ** Further vocabulary: files *)

(** The [out_file] and the [preview_path] of the worker. *)
Definition artifact_path (title job_id : str) : str :=
  path_join OUTPUT_DIR (title ++ lit "_" ++ job_id ++ lit ".mp4").

Definition preview_file_path (title job_id : str) : str :=
  path_join OUTPUT_DIR (title ++ lit "_" ++ job_id ++ lit "_preview.mp4").

(** The four kinds of scratch file the worker writes for a scene. *)
Definition scratch_suffixes : list string :=
  ["_audio.mp3"; "_video.mp4"; "_img.png"; "_final.mp4"]%string.

(** ** Further vocabulary: the calls of a worker *)

Section WorkerCalls.

Variable outcome : call -> option str.
Variable path_exists : nat -> str -> bool.
Variables (job_id script : str) (images clips : list str).
Variables (title resolution : str) (fps : Z).

(** The calls a worker may make for its job, read off
    [worker_render_movie]: each is for one scene [i] of the parsed script
    and uses that scene's text and scratch files, or it is the
    concatenation of all the scenes' clips, or the preview. *)
Definition worker_call (c : call) : Prop :=
  let scs := parse_script_with_characters script in
  match c with
  | CallGtts txt out_path lang =>
      exists i sc,
        scs !! i = Some sc /\ txt = text sc
        /\ out_path = scene_path job_id i "_audio.mp3" /\ lang = lit "en"
  | CallTextSlide txt tmp_img res =>
      exists i sc,
        scs !! i = Some sc
        /\ usable_asset path_exists i (select_asset i images clips) = None
        /\ txt = take 200 (text sc)
        /\ tmp_img = scene_path job_id i "_img.png" /\ res = resolution
  | CallImageToVideo image_path out_video duration res f =>
      exists i sc,
        scs !! i = Some sc
        /\ out_video = scene_path job_id i "_video.mp4"
        /\ duration = scene_duration (text sc)
        /\ res = resolution /\ f = fps
        /\ match usable_asset path_exists i (select_asset i images clips)
           with
           | Some asset =>
               image_path = asset
               /\ str_in (lower (splitext_ext asset)) VIDEO_EXTS = false
           | None => image_path = scene_path job_id i "_img.png"
           end
  | CallClipTrimOrLoop input_clip out_clip duration res f =>
      exists i sc,
        scs !! i = Some sc
        /\ out_clip = scene_path job_id i "_video.mp4"
        /\ duration = scene_duration (text sc)
        /\ res = resolution /\ f = fps
        /\ usable_asset path_exists i (select_asset i images clips)
           = Some input_clip
        /\ str_in (lower (splitext_ext input_clip)) VIDEO_EXTS = true
  | CallMux video_in audio_in out_path =>
      exists i,
        (i < length scs)%nat
        /\ video_in = scene_path job_id i "_video.mp4"
        /\ audio_in = scene_path job_id i "_audio.mp3"
        /\ out_path = scene_path job_id i "_final.mp4"
  | CallConcat video_list out_path =>
      video_list
      = map (fun i => scene_path job_id i "_final.mp4")
          (seq 0 (length scs))
      /\ scs <> [] /\ out_path = artifact_path title job_id
  | CallPreview full_video_path preview_path preview_seconds res =>
      full_video_path = artifact_path title job_id
      /\ preview_path = preview_file_path title job_id
      /\ preview_seconds = 15 /\ res = lit "640x360"
  | CallMakedirs _ | CallSaveUpload _ => False
  end.

(** Why the [try] block of a worker raises: one of its calls raised, or
    the script has no scene and [concat_videos] refused the empty
    list. *)
Definition worker_raise (e : exn) : Prop :=
  (exists c msg,
      worker_call c /\ outcome c = Some msg /\ e = StageError msg)
  \/ (parse_script_with_characters script = []
      /\ e = ValueError (lit "No videos to concat")).

End WorkerCalls.

(** An event a worker may add to the log: one of its calls, or a write
    to its own job record.  It never stores a record or creates a
    task. *)
Definition worker_event (path_exists : nat -> str -> bool)
    (job_id script : str) (images clips : list str)
    (title resolution : str) (fps : Z) (e : event) : Prop :=
  match act e with
  | ActCall c =>
      worker_call path_exists job_id script images clips title resolution
        fps c
  | ActSet id _ => id = job_id
  | ActStore _ _ | ActCreateTask _ => False
  end.

(** The values a worker writes to a job record. *)
Definition worker_write (fw : field_write) : Prop :=
  match fw with
  | SetProgress p => 0 <= p <= 100
  | SetStatus s => s = Done \/ s = Error
  | SetFile _ | SetPreview _ | SetError _ => True
  end.

(** The values written to the ["status"] of [job_id], in order. *)
Definition status_writes (job_id : str) (acts : list action)
    : list job_status :=
  flat_map
    (fun a =>
       match a with
       | ActSet id (SetStatus s) =>
           if bool_decide (id = job_id) then [s] else []
       | _ => []
       end) acts.

(** The record of a job that finished, and of a job whose worker caught
    [e], given the record [j] the worker started from. *)
Definition done_record (title job_id : str) (j : job) : job :=
  {| status := Done; progress := 100;
     file := Some (artifact_path title job_id);
     preview := Some (preview_file_path title job_id);
     error := error j |}.

Definition error_record (e : exn) (j : job) : job :=
  {| status := Error; progress := 0; file := file j; preview := preview j;
     error := Some (str_of_exn e) |}.

(** ** Further vocabulary: submission *)

(** The record the endpoint stores, and the record it leaves when it
    returns. *)
Definition pending_record : job :=
  {| status := Pending; progress := 0; file := None; preview := None;
     error := None |}.

Definition running_record : job :=
  {| status := Running; progress := 1; file := None; preview := None;
     error := None |}.

(** Where the endpoint saves uploads:
    [os.path.join(os.path.join(TMP_DIR, job_id), f.filename)]. *)
Definition saved_paths (job_id : str) (files : list upload) : list str :=
  map (fun f => path_join (path_join TMP_DIR job_id) (filename f)) files.

(** The calls the endpoint makes, in order, when none of them raises. *)
Definition submission_calls (job_id : str) (images clips : list upload)
    : list call :=
  CallMakedirs (path_join TMP_DIR job_id)
  :: map CallSaveUpload (saved_paths job_id images ++ saved_paths job_id clips).

(** The world after the calls [cs], none of which changes the store. *)
Definition with_calls (cs : list call) (w : world) : world :=
  {| JOB_STORE := JOB_STORE w;
     log := log w ++ map (fun c => Event (ActCall c) (JOB_STORE w)) cs |}.

(** ** Further vocabulary: looping a clip *)

(** The float [0.1]: the double nearest to one tenth, as a rational. *)
Definition FLOAT_0_1 : Q := 3602879701896397 # 36028797018963968.

(** [int(duration // max(0.1, v.duration)) + 1], the [times] of
    [clip_trim_or_loop]; [//] between an integer and a float is the
    floor of the quotient. *)
Definition loop_times (clip_duration : Q) (duration : Z) : Z :=
  py_int (inject_Z
            (Qfloor (inject_Z duration / py_max FLOAT_0_1 clip_duration)))
  + 1.

(** What [clip_trim_or_loop] does with a clip of duration
    [clip_duration]: it trims it when [v.duration >= duration], and else
    loops it [times] times before trimming. *)
Inductive clip_plan :=
| Trim
| Loop (times : Z).

Definition clip_trim_or_loop_plan (clip_duration : Q) (duration : Z)
    : clip_plan :=
  if Qle_bool (inject_Z duration) clip_duration then Trim
  else Loop (loop_times clip_duration duration).

(** ** Further vocabulary: the order of the stages *)

(** The stage a call belongs to: 1 voice synthesis, 2 rendering and
    muxing of a scene, 3 concatenation, 4 preview; 0 for the calls of
    the submission endpoint. *)
Definition call_phase (c : call) : Z :=
  match c with
  | CallGtts _ _ _ => 1
  | CallTextSlide _ _ _ | CallImageToVideo _ _ _ _ _
  | CallClipTrimOrLoop _ _ _ _ _ | CallMux _ _ _ => 2
  | CallConcat _ _ => 3
  | CallPreview _ _ _ _ => 4
  | CallMakedirs _ | CallSaveUpload _ => 0
  end.

(** The stages of the calls of a log, in the order of the log. *)
Definition call_phases (evs : list event) : list Z :=
  flat_map
    (fun e => match act e with ActCall c => [call_phase c] | _ => [] end)
    evs.

(** Since the log [l0], the calls came in the order of their stages and
    none is of a stage after [k]. *)
Definition in_phase (l0 : list event) (k : Z) (w : world) : Prop :=
  exists evs,
    log w = l0 ++ evs
    /\ Sorted Z.le (call_phases evs)
    /\ Forall (fun p => p <= k) (call_phases evs).

(** * Properties *)

(** ** Strings *)

Lemma ascii_eqb_true a b : ascii_eqb a b = true <-> a = b.
Proof. unfold ascii_eqb. apply bool_decide_eq_true. Qed.

Lemma ascii_eqb_false a b : ascii_eqb a b = false <-> a <> b.
Proof. unfold ascii_eqb. apply bool_decide_eq_false. Qed.

Lemma ascii_eqb_refl a : ascii_eqb a a = true.
Proof. by apply ascii_eqb_true. Qed.

Lemma blank_app a b : blank (a ++ b) = blank a && blank b.
Proof. apply forallb_app. Qed.

Lemma blank_rev s : blank (rev s) = blank s.
Proof.
  induction s as [|c s IH]; simpl; [done|].
  rewrite blank_app, IH. simpl. rewrite andb_true_r. apply andb_comm.
Qed.

Lemma lstrip_blank s : blank s = true -> lstrip s = [].
Proof.
  induction s as [|c s IH]; simpl; [done|].
  intros [Hc Hs]%andb_true_iff. rewrite Hc. auto.
Qed.

Lemma lstrip_not_blank s : blank (lstrip s) = blank s.
Proof.
  induction s as [|c s IH]; simpl; [done|].
  destruct (isspace c) eqn:Hc; simpl; [done | by rewrite Hc].
Qed.

Lemma lstrip_app a b :
  lstrip (a ++ b) = if blank a then lstrip b else lstrip a ++ b.
Proof.
  induction a as [|c a IH]; simpl; [done|].
  destruct (isspace c); simpl; [apply IH | done].
Qed.

Lemma lstrip_idemp s : lstrip (lstrip s) = lstrip s.
Proof.
  induction s as [|c s IH]; simpl; [done|].
  destruct (isspace c) eqn:Hc; [done | simpl; by rewrite Hc].
Qed.

Lemma rstrip_app a b :
  rstrip (a ++ b) = if blank b then rstrip a else a ++ rstrip b.
Proof.
  unfold rstrip. rewrite rev_app_distr, lstrip_app, blank_rev.
  destruct (blank b); [done|]. by rewrite rev_app_distr, rev_involutive.
Qed.

Lemma rstrip_blank s : blank s = true -> rstrip s = [].
Proof.
  intros H. unfold rstrip. rewrite lstrip_blank; [done | by rewrite blank_rev].
Qed.

Lemma rstrip_not_blank s : blank (rstrip s) = blank s.
Proof. unfold rstrip. by rewrite blank_rev, lstrip_not_blank, blank_rev. Qed.

Lemma rstrip_idemp s : rstrip (rstrip s) = rstrip s.
Proof. unfold rstrip. by rewrite rev_involutive, lstrip_idemp. Qed.

Lemma rstrip_cons c s :
  rstrip (c :: s) = if blank s then rstrip [c] else c :: rstrip s.
Proof. apply (rstrip_app [c] s). Qed.

Lemma rstrip_single c : rstrip [c] = if isspace c then [] else [c].
Proof. unfold rstrip. simpl. by destruct (isspace c). Qed.

Lemma lstrip_rstrip s : lstrip (rstrip s) = rstrip (lstrip s).
Proof.
  induction s as [|c s IH]; [done|].
  rewrite rstrip_cons, rstrip_single. cbn [lstrip].
  destruct (isspace c) eqn:Hc.
  - destruct (blank s) eqn:Hs.
    + by rewrite (lstrip_blank s Hs).
    + simpl. by rewrite Hc.
  - rewrite rstrip_cons, rstrip_single, Hc.
    destruct (blank s); simpl; by rewrite Hc.
Qed.

Lemma strip_blank s : blank s = true -> strip s = [].
Proof. intros H. unfold strip. by rewrite (lstrip_blank s H). Qed.

Lemma strip_not_blank s : blank (strip s) = blank s.
Proof. unfold strip. by rewrite rstrip_not_blank, lstrip_not_blank. Qed.

Lemma strip_nil_iff s : strip s = [] <-> blank s = true.
Proof.
  split; [|apply strip_blank].
  intros H. rewrite <- strip_not_blank, H. done.
Qed.

Lemma strip_idemp s : strip (strip s) = strip s.
Proof.
  unfold strip. by rewrite lstrip_rstrip, lstrip_idemp, rstrip_idemp.
Qed.

Lemma strip_lstrip s : strip (lstrip s) = strip s.
Proof. unfold strip. by rewrite lstrip_idemp. Qed.

Lemma strip_rstrip s : strip (rstrip s) = strip s.
Proof. unfold strip. by rewrite lstrip_rstrip, rstrip_idemp. Qed.

Lemma isspace_not_colon c : isspace c = true -> ascii_eqb COLON c = false.
Proof.
  intros H. apply ascii_eqb_false. intros <-. discriminate H.
Qed.

Lemma contains_app c a b : contains c (a ++ b) = contains c a || contains c b.
Proof. apply existsb_app. Qed.

Lemma contains_rev c s : contains c (rev s) = contains c s.
Proof.
  induction s as [|d s IH]; simpl; [done|].
  rewrite contains_app, IH. simpl. rewrite orb_false_r. apply orb_comm.
Qed.

Lemma contains_colon_lstrip s : contains COLON (lstrip s) = contains COLON s.
Proof.
  induction s as [|c s IH]; simpl; [done|].
  destruct (isspace c) eqn:Hc; [|done].
  by rewrite (isspace_not_colon c Hc).
Qed.

Lemma contains_colon_strip s : contains COLON (strip s) = contains COLON s.
Proof.
  unfold strip, rstrip.
  by rewrite contains_rev, contains_colon_lstrip, contains_rev,
    contains_colon_lstrip.
Qed.

Lemma split_once_spec sep s :
  contains sep s = true ->
  s = (split_once sep s).1 ++ sep :: (split_once sep s).2
  /\ contains sep (split_once sep s).1 = false.
Proof.
  induction s as [|c s IH]; simpl; [done|].
  destruct (ascii_eqb c sep) eqn:Hc.
  - apply ascii_eqb_true in Hc as ->. done.
  - assert (ascii_eqb sep c = false) as ->.
    { apply ascii_eqb_false. apply ascii_eqb_false in Hc. congruence. }
    simpl. intros H. destruct (IH H) as [IH1 IH2].
    destruct (split_once sep s) as [a b]. simpl in *.
    split; [by f_equal|].
    rewrite IH2, orb_false_r.
    apply ascii_eqb_false. apply ascii_eqb_false in Hc. congruence.
Qed.

Lemma split_once_app sep a b :
  contains sep a = false -> split_once sep (a ++ sep :: b) = (a, b).
Proof.
  induction a as [|c a IH]; simpl.
  - by rewrite ascii_eqb_refl.
  - intros [Hc Ha]%orb_false_iff.
    assert (ascii_eqb c sep = false) as ->.
    { apply ascii_eqb_false. apply ascii_eqb_false in Hc. congruence. }
    by rewrite (IH Ha).
Qed.

Lemma strip_around_colon a b :
  strip (a ++ COLON :: b) = lstrip a ++ COLON :: rstrip b.
Proof.
  unfold strip.
  assert (lstrip (a ++ COLON :: b) = lstrip a ++ COLON :: b) as ->.
  { rewrite lstrip_app. destruct (blank a) eqn:Ha; [|done].
    by rewrite (lstrip_blank a Ha). }
  rewrite rstrip_app. simpl blank. cbn [andb].
  replace (isspace COLON) with false by done. cbn [andb].
  f_equal. rewrite rstrip_cons, rstrip_single.
  replace (isspace COLON) with false by done.
  destruct (blank b) eqn:Hb; [|done].
  by rewrite (rstrip_blank b Hb).
Qed.

(** Trimming the line first, as the parser does, does not change the
    speaker and the text read off the raw line. *)
Lemma tagged_scene_strip raw :
  contains COLON raw = true -> tagged_scene (strip raw) = tagged_scene raw.
Proof.
  intros H. destruct (split_once_spec COLON raw H) as [Heq Hno].
  unfold tagged_scene.
  destruct (split_once COLON raw) as [a b] eqn:Hab. simpl in *.
  rewrite Heq at 1 2. rewrite strip_around_colon.
  rewrite split_once_app by (by rewrite contains_colon_lstrip).
  simpl. by rewrite strip_lstrip, strip_rstrip.
Qed.

(** ** The parser, line by line *)

Lemma strip_cons_not_blank raw :
  blank raw = false -> exists c s, strip raw = c :: s /\ isspace c = false.
Proof.
  intros H. destruct (strip raw) as [|c s] eqn:Hs.
  - apply strip_nil_iff in Hs. congruence.
  - exists c, s. split; [done|].
    assert (lstrip (strip raw) = strip raw) as Hl.
    { unfold strip. by rewrite lstrip_rstrip, lstrip_idemp. }
    rewrite Hs in Hl. simpl in Hl.
    destruct (isspace c) eqn:Hc; [|done].
    exfalso. assert (length (lstrip s) <= length s)%nat as Hlen.
    { clear. induction s as [|d s IH]; simpl; [lia|].
      destruct (isspace d); simpl; lia. }
    rewrite Hl in Hlen. simpl in Hlen. lia.
Qed.

Lemma parse_line_blank st raw :
  blank raw = true ->
  parse_line st raw = {| scenes := scenes st; current := None |}.
Proof. intros H. unfold parse_line. by rewrite (strip_blank raw H). Qed.

Lemma parse_line_tagged st raw :
  blank raw = false -> contains COLON raw = true ->
  parse_line st raw =
    {| scenes := scenes st ++ [tagged_scene raw];
       current := Some (length (scenes st)) |}.
Proof.
  intros Hb Hc. unfold parse_line.
  destruct (strip_cons_not_blank raw Hb) as (c & s & Hs & _).
  rewrite <- (tagged_scene_strip raw Hc). unfold tagged_scene.
  rewrite Hs, <- Hs, contains_colon_strip, Hc.
  by destruct (split_once COLON (strip raw)).
Qed.

Lemma parse_line_continuation st raw :
  blank raw = false -> contains COLON raw = false ->
  parse_line st raw =
    match current st with
    | Some i =>
        {| scenes := alter (append_text (strip raw)) i (scenes st);
           current := Some i |}
    | None =>
        {| scenes :=
             scenes st ++ [{| character := NARRATOR; text := strip raw |}];
           current := Some (length (scenes st)) |}
    end.
Proof.
  intros Hb Hc. unfold parse_line.
  destruct (strip_cons_not_blank raw Hb) as (c & s & Hs & _).
  by rewrite Hs, <- Hs, contains_colon_strip, Hc.
Qed.

Lemma parse_line_cases st raw :
  (blank raw = true /\
   parse_line st raw = {| scenes := scenes st; current := None |})
  \/ (blank raw = false /\ exists st',
        parse_line st raw = st' /\ current st' <> None).
Proof.
  destruct (blank raw) eqn:Hb.
  - left. split; [done|]. by apply parse_line_blank.
  - right. split; [done|]. eexists. split; [done|].
    destruct (contains COLON raw) eqn:Hc.
    + by rewrite parse_line_tagged.
    + rewrite parse_line_continuation by done. by destruct (current st).
Qed.

Lemma parse_line_current_is_last st raw :
  current_is_last st -> current_is_last (parse_line st raw).
Proof.
  intros Hst. destruct (blank raw) eqn:Hb.
  - by rewrite parse_line_blank.
  - destruct (contains COLON raw) eqn:Hc.
    + rewrite parse_line_tagged by done. unfold current_is_last. simpl.
      rewrite length_app. simpl. lia.
    + rewrite parse_line_continuation by done.
      unfold current_is_last in *. destruct (current st) as [i|]; simpl.
      * by rewrite length_alter.
      * rewrite length_app. simpl. lia.
Qed.

Lemma parse_lines_snoc pre l :
  parse_lines (pre ++ [l]) = parse_line (parse_lines pre) l.
Proof. unfold parse_lines. by rewrite fold_left_app. Qed.

Lemma parse_lines_current_is_last lines : current_is_last (parse_lines lines).
Proof.
  induction lines as [|l pre IH] using rev_ind; [done|].
  rewrite parse_lines_snoc. by apply parse_line_current_is_last.
Qed.

(** A scene is open after a prefix of the script exactly when the
    prefix ends in a line that is not blank. *)
Lemma parse_lines_current lines :
  current (parse_lines lines) = None <->
  match last lines with
  | Some p => blank p = true
  | None => True
  end.
Proof.
  destruct lines as [|l pre _] using rev_ind; [done|].
  rewrite parse_lines_snoc, last_snoc.
  destruct (parse_line_cases (parse_lines pre) l)
    as [[Hb ->]|[Hb (st' & -> & Hcur)]]; [done|].
  split; [done | congruence].
Qed.

Lemma alter_last {A} (f : A -> A) (init : list A) (x : A) :
  alter f (length init) (init ++ [x]) = init ++ [f x].
Proof.
  induction init as [|y init IH]; simpl; [done|]. by f_equal.
Qed.

Lemma fold_parse_line_tagged lines st :
  (forall l, In l lines -> blank l = false -> contains COLON l = true) ->
  scenes (fold_left parse_line lines st) =
    scenes st
    ++ map tagged_scene (List.filter (fun l => negb (blank l)) lines).
Proof.
  revert st. induction lines as [|l lines IH]; intros st Hall; simpl.
  - by rewrite app_nil_r.
  - rewrite IH by (intros; apply Hall; simpl; auto).
    destruct (blank l) eqn:Hb; simpl.
    + by rewrite parse_line_blank.
    + rewrite parse_line_tagged by (auto; apply Hall; simpl; auto).
      simpl. by rewrite <- app_assoc.
Qed.

(** C4. When every non-blank line of a script contains the separator,
    the parser returns exactly one scene per non-blank line, in line
    order; the speaker of each is the text before the line's first
    separator, trimmed and upper-cased, and its text is the text after the
    first separator, trimmed. *)
Theorem parse_all_tagged (script : str) :
  (forall l, In l (splitlines script) ->
             blank l = false -> contains COLON l = true) ->
  parse_script_with_characters script =
    map (fun l =>
           {| character := upper (wide (strip (split_once COLON l).1));
              text := strip (split_once COLON l).2 |})
        (List.filter (fun l => negb (blank l)) (splitlines script)).
Proof.
  intros Hall. unfold parse_script_with_characters, parse_lines.
  by rewrite fold_parse_line_tagged.
Qed.

(** C5. Take a script whose last line has no separator.  If that line
    is blank, it adds nothing to the scenes read so far.  Otherwise, when
    the line before it is not blank, the trimmed line is appended to the
    text of the last scene after exactly one space and no scene is added;
    when the line before it is blank, or there is none, the trimmed line
    becomes the text of a new scene of the narrator.  The trimmed line
    starts with a character that is not white space. *)
Theorem parse_continuation_line (script : str) (pre : list str) (l : str) :
  splitlines script = pre ++ [l] ->
  contains COLON l = false ->
  let before := scenes (parse_lines pre) in
  let after := parse_script_with_characters script in
  if blank l then after = before
  else
    (exists c rest, strip l = c :: rest /\ isspace c = false) /\
    match last pre with
    | Some p =>
        if blank p then
          after = before ++ [{| character := NARRATOR; text := strip l |}]
        else
          exists init sc,
            before = init ++ [sc] /\
            after = init ++ [{| character := character sc;
                                text := text sc ++ lit " " ++ strip l |}]
    | None =>
        after = before ++ [{| character := NARRATOR; text := strip l |}]
    end.
Proof.
  intros Hsplit Hcolon before after. subst before after.
  unfold parse_script_with_characters. rewrite Hsplit, parse_lines_snoc.
  destruct (blank l) eqn:Hb.
  { by rewrite parse_line_blank. }
  split; [by apply strip_cons_not_blank|].
  rewrite parse_line_continuation by done.
  pose proof (parse_lines_current pre) as Hcur.
  pose proof (parse_lines_current_is_last pre) as Hlast.
  unfold current_is_last in Hlast.
  destruct (last pre) as [p|] eqn:Hp.
  - destruct (blank p) eqn:Hbp.
    + by rewrite (proj2 Hcur eq_refl).
    + destruct (current (parse_lines pre)) as [i|] eqn:Hi.
      2:{ destruct Hcur as [Hcur _]. specialize (Hcur eq_refl). congruence. }
      simpl.
      destruct (scenes (parse_lines pre)) as [|sc0 rest _] eqn:Hsc
        using rev_ind; [done|].
      rewrite length_app in Hlast. simpl in Hlast.
      assert (i = length rest) as -> by lia.
      exists rest, sc0. split; [done|]. by rewrite alter_last.
  - by rewrite (proj2 Hcur I).
Qed.

Lemma parse_line_text lines st raw :
  In raw lines ->
  Forall (text_present_or_untexted_tag lines) (scenes st) ->
  Forall (text_present_or_untexted_tag lines) (scenes (parse_line st raw)).
Proof.
  intros Hin Hst. destruct (blank raw) eqn:Hb.
  { by rewrite parse_line_blank. }
  assert (strip (strip raw) <> []) as Hne.
  { rewrite strip_nil_iff, strip_not_blank. congruence. }
  destruct (contains COLON raw) eqn:Hc.
  - rewrite parse_line_tagged by done. simpl.
    apply Forall_app. split; [done|]. constructor; [|done].
    destruct (text (tagged_scene raw)) as [|c s] eqn:Ht.
    + right. split; [done|]. by exists raw.
    + left. simpl in *. by rewrite strip_idemp, Ht.
  - rewrite parse_line_continuation by done.
    destruct (current st) as [i|]; simpl.
    + apply Forall_alter; [done|]. intros sc _ _. left.
      unfold append_text. cbn [text].
      rewrite strip_nil_iff, !blank_app, (strip_not_blank raw), Hb.
      rewrite !andb_false_r. done.
    + apply Forall_app. split; [done|]. constructor; [|done]. by left.
Qed.

Lemma fold_parse_line_text all lines st :
  (forall l, In l lines -> In l all) ->
  Forall (text_present_or_untexted_tag all) (scenes st) ->
  Forall (text_present_or_untexted_tag all)
    (scenes (fold_left parse_line lines st)).
Proof.
  revert st. induction lines as [|l lines IH]; intros st Hsub Hst; [done|].
  simpl. apply IH; [intros; apply Hsub; simpl; auto|].
  apply parse_line_text; [apply Hsub; simpl; auto | done].
Qed.

(** C9, as the code has it.  The text of a scene is not blank, except
    for a scene opened by a tagged line that has only white space after
    its first separator and that no continuation line follows: the text
    of such a scene is empty. *)
Theorem parse_text_present_unless_empty_tag (script : str) (sc : scene) :
  In sc (parse_script_with_characters script) ->
  strip (text sc) <> []
  \/ (text sc = [] /\
      exists l, In l (splitlines script) /\ blank l = false /\
                contains COLON l = true /\
                blank (split_once COLON l).2 = true /\
                character sc
                = upper (wide (strip (split_once COLON l).1))).
Proof.
  intros Hin.
  assert (Forall (text_present_or_untexted_tag (splitlines script))
            (parse_script_with_characters script)) as Hall.
  { unfold parse_script_with_characters, parse_lines.
    by apply fold_parse_line_text. }
  rewrite Forall_forall in Hall.
  destruct (Hall sc (proj2 (list_elem_of_In _ _) Hin))
    as [H|[Ht (l & Hl & Hb & Hc & ->)]]; [by left|].
  right. split; [done|]. exists l. repeat split; try done.
  simpl in Ht. by apply strip_nil_iff.
Qed.

(** C9 as written fails: the one-line script [ALICE:] yields a scene
    whose text is empty. *)
Lemma parse_empty_text_counterexample :
  exists sc, In sc (parse_script_with_characters (lit "ALICE:"))
             /\ strip (text sc) = [].
Proof.
  exists {| character := wide (lit "ALICE"); text := [] |}. split; [|done].
  vm_compute. by left.
Qed.

(** ** Asset selection and scene duration *)

Lemma round_robin_is_Some i a l : is_Some (round_robin i (a :: l)).
Proof.
  unfold round_robin. apply lookup_lt_is_Some.
  apply Nat.mod_upper_bound. simpl. lia.
Qed.

Lemma round_robin_pair i a b :
  round_robin i [a; b] = Some (if Nat.even i then a else b).
Proof.
  unfold round_robin. cbn [length].
  destruct (Nat.even i) eqn:He.
  - apply Nat.even_spec in He as [k ->].
    replace ((2 * k) mod 2)%nat with 0%nat; [done|].
    symmetry. rewrite Nat.mul_comm. by apply Nat.Div0.mod_mul.
  - assert (Nat.odd i = true) as Ho.
    { rewrite <- Nat.negb_even, He. done. }
    apply Nat.odd_spec in Ho as [k ->].
    replace ((2 * k + 1) mod 2)%nat with 1%nat; [done|].
    symmetry. rewrite Nat.add_comm, Nat.mul_comm.
    by rewrite Nat.Div0.mod_add.
Qed.

(** C7. The asset of scene [i] is [images[i mod len(images)]] when
    images were supplied, else [clips[i mod len(clips)]] when clips were
    supplied, else none; without an asset the scene is rendered from a
    text slide, the first call being the drawing of the slide.  With two
    images the selection alternates between the first (even [i]) and the
    second (odd [i]). *)
Theorem select_asset_round_robin (i : nat) (images clips : list str) :
  match images, clips with
  | _ :: _, _ =>
      exists a, select_asset i images clips = Some a
                /\ images !! (i mod length images)%nat = Some a
  | [], _ :: _ =>
      exists a, select_asset i images clips = Some a
                /\ clips !! (i mod length clips)%nat = Some a
  | [], [] =>
      select_asset i images clips = None
      /\ forall outcome path_exists job_id resolution fps n audio sc videos w,
           exists rest,
             log (render_scene outcome path_exists job_id [] [] resolution
                    fps n audio i sc videos w).2
             = log w
               ++ Event (ActCall (CallTextSlide (take 200 (text sc))
                                    (scene_path job_id i "_img.png")
                                    resolution))
                    (JOB_STORE w)
               :: rest
  end
  /\ forall a b,
       select_asset i [a; b] clips = Some (if Nat.even i then a else b).
Proof.
  split; [|intros a b; apply round_robin_pair].
  destruct images as [|a images].
  - destruct clips as [|c clips].
    + split; [done|]. intros.
      unfold render_scene, bind, perform, image_to_video. simpl.
      destruct (outcome (CallTextSlide _ _ _)).
      * exists []. done.
      * unfold bind, perform. simpl.
        destruct (outcome (CallImageToVideo _ _ _ _ _)); simpl.
        { rewrite <- app_assoc. simpl. eauto. }
        unfold ret. simpl.
        destruct (audio !! i); unfold raise, mux_video_with_audio, bind,
          perform; simpl.
        2:{ rewrite <- app_assoc. simpl. eauto. }
        destruct (outcome (CallMux _ _ _)); simpl.
        { rewrite <- !app_assoc. simpl. eauto. }
        unfold set_field. simpl.
        destruct (JOB_STORE w !! job_id); simpl;
          rewrite <- !app_assoc; simpl; eauto.
    + destruct (round_robin_is_Some i c clips) as [x Hx]. by exists x.
  - destruct (round_robin_is_Some i a images) as [x Hx]. by exists x.
Qed.

Lemma py_int_ratio (n : Z) :
  0 <= n -> py_int (inject_Z n / (5 # 2)) = 2 * n / 5.
Proof.
  intros Hn. unfold py_int. simpl.
  rewrite Z.quot_div_nonneg by lia. f_equal. lia.
Qed.

Lemma scene_duration_eq (txt : str) :
  scene_duration txt = Z.max 4 (2 * word_count txt / 5).
Proof.
  assert (0 <= word_count txt) as Hn by (unfold word_count; lia).
  unfold scene_duration, py_max.
  destruct (Qlt_le_dec (4 # 1) (inject_Z (word_count txt) / (5 # 2)))
    as [Hlt|Hle].
  - rewrite py_int_ratio by done.
    unfold Qlt in Hlt. simpl in Hlt.
    assert (4 <= 2 * word_count txt / 5).
    { apply Z.div_le_lower_bound; lia. }
    lia.
  - unfold Qle in Hle. simpl in Hle.
    assert (2 * word_count txt / 5 <= 4).
    { apply Z.div_le_upper_bound; lia. }
    change (py_int (4 # 1)) with 4. lia.
Qed.

(** ** Voice dispatch *)

(** C10. Whatever the speaker and whatever the voice map holds for it
    (an identifier that starts with [gtts], one that does not, or
    nothing), [synthesize_character_voice] makes exactly one call, the
    gTTS call [synthesize_with_gtts] makes with the default language, and
    returns the output path it was given; it fails only as that call
    fails. *)
Theorem synthesize_character_voice_default
    (outcome : call -> option str) (voice_map : gmap ustr str)
    (char : ustr) (txt out_path : str) (w : world) :
  synthesize_character_voice outcome voice_map char txt out_path w
    = synthesize_with_gtts outcome txt out_path (lit "en") w
  /\ synthesize_character_voice outcome voice_map char txt out_path w
    = (match outcome (CallGtts txt out_path (lit "en")) with
       | None => Return out_path
       | Some msg => Raise (StageError msg)
       end,
       {| JOB_STORE := JOB_STORE w;
          log := log w ++ [Event (ActCall (CallGtts txt out_path (lit "en")))
                             (JOB_STORE w)] |}).
Proof.
  unfold synthesize_character_voice, synthesize_with_gtts, bind, perform, ret.
  destruct (startswith _ _);
    destruct (outcome (CallGtts txt out_path (lit "en"))); done.
Qed.

(** ** Rules for triples *)

Lemma triple_ret {A} (a : A) (Q : A -> world -> Prop) E :
  triple (Q a) (ret a) Q E.
Proof. intros w Hw. done. Qed.

Lemma triple_bind {A B} (m : M A) (k : A -> M B) P Q R E :
  triple P m Q E -> (forall a, triple (Q a) (k a) R E) ->
  triple P (bind m k) R E.
Proof.
  intros Hm Hk w Hw. unfold bind. specialize (Hm w Hw).
  destruct (m w) as [[a|e] w']; [|done]. by apply Hk.
Qed.

Lemma triple_weaken {A} (m : M A) (P P' : world -> Prop)
    (Q Q' : A -> world -> Prop) (E E' : exn -> world -> Prop) :
  (forall w, P' w -> P w) -> (forall a w, Q a w -> Q' a w) ->
  (forall e w, E e w -> E' e w) ->
  triple P m Q E -> triple P' m Q' E'.
Proof.
  intros HP HQ HE Hm w Hw. specialize (Hm w (HP w Hw)).
  destruct (m w) as [[a|e] w']; auto.
Qed.

Lemma triple_for_enumerate {A B} (body : nat -> A -> B -> M B)
    (Inv : nat -> B -> world -> Prop) E (l : list A) :
  (forall k x acc, l !! k = Some x ->
     triple (Inv k acc) (body k x acc) (Inv (S k)) E) ->
  forall acc,
    triple (Inv 0%nat acc) (for_enumerate body 0 l acc) (Inv (length l)) E.
Proof.
  intros Hbody.
  assert (forall (todo : list A) i acc,
            (forall k x, todo !! k = Some x -> l !! (i + k)%nat = Some x) ->
            triple (Inv i acc) (for_enumerate body i todo acc)
              (Inv (i + length todo)%nat) E) as Hgen.
  { induction todo as [|x todo IH]; intros i acc Hsub; simpl.
    - rewrite Nat.add_0_r. apply triple_ret.
    - eapply triple_bind.
      + apply Hbody. rewrite <- (Nat.add_0_r i). by apply Hsub.
      + intros acc'. replace (i + S (length todo))%nat
          with (S i + length todo)%nat by lia.
        apply IH. intros k y Hk.
        replace (S i + k)%nat with (i + S k)%nat by lia. by apply Hsub. }
  intros acc. apply (Hgen l 0%nat acc). done.
Qed.

(** ** Progress bands *)

Lemma py_int_quotient (a b : Z) :
  0 <= a -> 0 < b -> py_int (inject_Z a / inject_Z b) = a / b.
Proof.
  intros Ha Hb. destruct b as [|p|p]; try lia.
  unfold py_int. simpl. rewrite Z.mul_1_r.
  by rewrite Z.quot_div_nonneg by lia.
Qed.

Lemma band_progress_bound base width i n :
  0 <= width -> band_progress base width i n = band_bound base width (S i) n.
Proof.
  intros Hw. unfold band_progress, band_bound.
  rewrite py_int_quotient by lia. do 2 f_equal. lia.
Qed.

Lemma band_bound_0 base width n : band_bound base width 0 n = base.
Proof. unfold band_bound. simpl. by rewrite Z.mul_0_r, Z.add_0_r. Qed.

Lemma band_bound_mono base width k n :
  0 <= width -> band_bound base width k n <= band_bound base width (S k) n.
Proof.
  intros Hw. unfold band_bound. apply Z.add_le_mono_l.
  apply Z.div_le_mono; [lia|]. nia.
Qed.

Lemma band_bound_top base width k n :
  0 <= width -> (k <= n)%nat -> band_bound base width k n <= base + width.
Proof.
  intros Hw Hk. unfold band_bound. apply Z.add_le_mono_l.
  apply Z.div_le_upper_bound; [lia|]. nia.
Qed.

(** ** Steps of a run *)

Lemma sorted_snoc (l : list Z) (p : Z) :
  Sorted Z.le l -> Forall (fun x => x <= p) l -> Sorted Z.le (l ++ [p]).
Proof.
  induction 1 as [|x l Hs IH Hhd]; intros Hall; simpl.
  - repeat constructor.
  - inversion Hall as [|? ? Hx Hl]; subst. constructor; [auto|].
    destruct l; simpl; constructor; [done|].
    by inversion Hhd.
Qed.

Lemma running_progress_writes_app job_id a b :
  running_progress_writes job_id (a ++ b)
  = running_progress_writes job_id a ++ running_progress_writes job_id b.
Proof. unfold running_progress_writes. apply flat_map_app. Qed.

Section Steps.

Variable outcome : call -> option str.
Variable path_exists : nat -> str -> bool.
Variable voice_map : gmap ustr str.
Variable job_id : str.

Lemma quiet_log_call evs j c st :
  st !! job_id = Some j ->
  quiet_log job_id evs j -> quiet_log job_id (evs ++ [Event (ActCall c) st]) j.
Proof.
  intros Hst (Hq & Hev & Hs & Hb). split; [done|]. split.
  - apply Forall_app. split; [done|]. constructor; [|done]. by exists j.
  - rewrite running_progress_writes_app. simpl. by rewrite app_nil_r.
Qed.

Lemma quiet_log_progress evs j p st :
  st !! job_id = Some (apply_write (SetProgress p) j) ->
  progress j <= p -> p < 100 ->
  quiet_log job_id evs j ->
  quiet_log job_id (evs ++ [Event (ActSet job_id (SetProgress p)) st])
    (apply_write (SetProgress p) j).
Proof.
  intros Hst Hle Hlt ((Hstat & Hf & Hp & He & _) & Hev & Hs & Hb).
  assert (quiet (apply_write (SetProgress p) j)) as Hq by done.
  split; [done|]. split.
  { apply Forall_app. split; [done|]. constructor; [|done]. by eexists. }
  rewrite running_progress_writes_app. simpl. rewrite app_nil_r.
  assert (Forall (fun x => x <= p) (running_progress_writes job_id evs))
    as Hb'.
  { eapply Forall_impl; [exact Hb|]. simpl. intros. lia. }
  destruct (_ && _); simpl.
  - split; [by apply sorted_snoc|].
    apply Forall_app. split; [done|]. by constructor.
  - by rewrite app_nil_r.
Qed.

Lemma steady_weaken l0 b b' w : b <= b' -> steady outcome job_id l0 b w ->
  steady outcome job_id l0 b' w.
Proof.
  intros Hb (evs & j & Hlog & Hj & Hq & Hp & Hc).
  exists evs, j. split_and!; try done. lia.
Qed.

Lemma perform_steady l0 b c :
  triple (steady outcome job_id l0 b) (perform outcome c)
    (fun _ => steady outcome job_id l0 b) (failed outcome job_id l0).
Proof.
  intros w (evs & j & Hlog & Hj & Hq & Hp & Hc). unfold perform.
  destruct (outcome c) as [msg|] eqn:Hout.
  - exists (evs ++ [Event (ActCall c) (JOB_STORE w)]), j. simpl.
    rewrite Hlog, <- app_assoc. split_and!; try done.
    + by apply quiet_log_call.
    + left. by exists evs, c, (JOB_STORE w), msg.
  - exists (evs ++ [Event (ActCall c) (JOB_STORE w)]), j. simpl.
    rewrite Hlog, <- app_assoc. split_and!; try done.
    + by apply quiet_log_call.
    + apply Forall_app. split; [done|]. by constructor.
Qed.

Lemma set_progress_steady l0 b p E :
  b <= p -> p < 100 ->
  triple (steady outcome job_id l0 b) (set_field job_id (SetProgress p))
    (fun _ => steady outcome job_id l0 p) E.
Proof.
  intros Hbp Hp w (evs & j & Hlog & Hj & Hq & Hpj & Hc).
  unfold set_field, record. rewrite Hj. simpl.
  eexists (evs ++ [_]), (apply_write (SetProgress p) j). simpl.
  rewrite Hlog, <- app_assoc. split_and!; try done.
  - by rewrite lookup_insert_eq.
  - apply quiet_log_progress; [by rewrite lookup_insert_eq|lia|done|done].
  - apply Forall_app. split; [done|]. by constructor.
Qed.

Lemma perform_then_ret_steady {A} l0 b c (a : A) :
  triple (steady outcome job_id l0 b) (bind (perform outcome c) (fun _ => ret a))
    (fun _ => steady outcome job_id l0 b) (failed outcome job_id l0).
Proof.
  eapply triple_bind; [apply perform_steady|]. intros ?.
  apply (triple_ret a (fun _ => steady outcome job_id l0 b)).
Qed.

Lemma synthesize_character_voice_steady l0 b char txt out_path :
  triple (steady outcome job_id l0 b)
    (synthesize_character_voice outcome voice_map char txt out_path)
    (fun _ => steady outcome job_id l0 b) (failed outcome job_id l0).
Proof.
  unfold synthesize_character_voice, synthesize_with_gtts.
  destruct (startswith _ _);
    (eapply triple_bind; [apply perform_then_ret_steady|]); intros ?;
    apply (triple_ret out_path (fun _ => steady outcome job_id l0 b)).
Qed.

End Steps.

Lemma path_join_nonempty (a b : str) : a <> [] -> path_join a b <> [].
Proof.
  intros Ha. unfold path_join.
  destruct (startswith [SLASH] b) eqn:Hb.
  - by destruct b.
  - destruct a as [|c a]; [done|].
    by destruct (startswith [SLASH] (rev (c :: a))).
Qed.

Lemma triple_pure {A} (phi : Prop) (P : world -> Prop) (m : M A) Q E :
  (phi -> triple P m Q E) -> triple (fun w => P w /\ phi) m Q E.
Proof. intros H w [HP Hphi]. by apply H. Qed.

Lemma set_field_commit job_id fw w j :
  JOB_STORE w !! job_id = Some j ->
  set_field job_id fw w = (Return tt, commit_write job_id w fw)
  /\ JOB_STORE (commit_write job_id w fw) !! job_id
     = Some (apply_write fw j).
Proof.
  intros Hj. unfold set_field, commit_write, record. rewrite Hj. simpl.
  by rewrite lookup_insert_eq.
Qed.

Lemma set_field_bind {A} job_id fw (k : unit -> M A) w j :
  JOB_STORE w !! job_id = Some j ->
  bind (set_field job_id fw) k w = k tt (commit_write job_id w fw).
Proof.
  intros Hj. unfold bind.
  by destruct (set_field_commit job_id fw w j Hj) as [-> _].
Qed.

Lemma commit_write_lookup job_id fw w j :
  JOB_STORE w !! job_id = Some j ->
  JOB_STORE (commit_write job_id w fw) !! job_id = Some (apply_write fw j).
Proof. intros Hj. by destruct (set_field_commit job_id fw w j Hj). Qed.

Section WorkerSteps.

Variable outcome : call -> option str.
Variable path_exists : nat -> str -> bool.
Variable voice_map : gmap ustr str.
Variables (job_id script : str) (images clips : list str).
Variables (title resolution : str) (fps : Z).
Variable l0 : list event.

Local Abbreviation steady_at := (steady outcome job_id l0).
Local Abbreviation failed_at := (failed outcome job_id l0).

Lemma synthesize_scene_steady n k sc acc :
  (k < n)%nat ->
  triple (fun w => steady_at (band_bound 15 20 k n) w /\ length acc = k)
    (synthesize_scene outcome voice_map job_id n k sc acc)
    (fun acc' w =>
       steady_at (band_bound 15 20 (S k) n) w /\ length acc' = S k)
    failed_at.
Proof.
  intros Hk. apply triple_pure. intros Hlen. unfold synthesize_scene.
  eapply triple_bind; [apply synthesize_character_voice_steady|]. intros ?.
  rewrite band_progress_bound by lia.
  eapply triple_bind.
  { apply set_progress_steady; [by apply band_bound_mono|].
    pose proof (band_bound_top 15 20 (S k) n). lia. }
  intros ?. intros w Hw. simpl. split; [done|].
  rewrite length_app. simpl. lia.
Qed.

Lemma synthesize_loop_steady (scs : list scene) :
  triple (steady_at 15)
    (for_enumerate (synthesize_scene outcome voice_map job_id (length scs))
       0 scs [])
    (fun audio w => steady_at 35 w /\ length audio = length scs)
    failed_at.
Proof.
  eapply triple_weaken;
    [| | | apply (triple_for_enumerate _
                    (fun k acc w =>
                       steady_at (band_bound 15 20 k (length scs)) w
                       /\ length acc = k))].
  - intros w Hw. by rewrite band_bound_0.
  - intros audio w [Hw Hlen]. split; [|done].
    eapply steady_weaken; [|exact Hw].
    pose proof (band_bound_top 15 20 (length scs) (length scs)). lia.
  - done.
  - intros k sc acc Hk. apply synthesize_scene_steady.
    by apply lookup_lt_Some in Hk.
Qed.

Lemma render_scene_steady n audio k sc acc :
  (k < n)%nat -> length audio = n ->
  triple (fun w => steady_at (band_bound 40 30 k n) w /\ length acc = k)
    (render_scene outcome path_exists job_id images clips resolution fps n
       audio k sc acc)
    (fun acc' w =>
       steady_at (band_bound 40 30 (S k) n) w /\ length acc' = S k)
    failed_at.
Proof.
  intros Hk Haudio. apply triple_pure. intros Hlen. unfold render_scene.
  eapply triple_bind with (Q := fun _ => steady_at (band_bound 40 30 k n)).
  { destruct (usable_asset _ _ _) as [asset|].
    - destruct (str_in _ _); apply perform_then_ret_steady.
    - eapply triple_bind; [apply perform_steady|]. intros ?.
      apply perform_then_ret_steady. }
  intros ?.
  destruct (lookup_lt_is_Some_2 audio k) as [track Ha]; [lia|]. rewrite Ha.
  eapply triple_bind; [apply perform_then_ret_steady|]. intros ?.
  rewrite band_progress_bound by lia.
  eapply triple_bind.
  { apply set_progress_steady; [by apply band_bound_mono|].
    pose proof (band_bound_top 40 30 (S k) n). lia. }
  intros ?. intros w Hw. simpl. split; [done|].
  rewrite length_app. simpl. lia.
Qed.

Lemma render_loop_steady (scs : list scene) audio :
  length audio = length scs ->
  triple (steady_at 40)
    (for_enumerate
       (render_scene outcome path_exists job_id images clips resolution fps
          (length scs) audio) 0 scs [])
    (fun videos w => steady_at 70 w /\ length videos = length scs)
    failed_at.
Proof.
  intros Haudio.
  eapply triple_weaken;
    [| | | apply (triple_for_enumerate _
                    (fun k acc w =>
                       steady_at (band_bound 40 30 k (length scs)) w
                       /\ length acc = k))].
  - intros w Hw. by rewrite band_bound_0.
  - intros videos w [Hw Hlen]. split; [|done].
    eapply steady_weaken; [|exact Hw].
    pose proof (band_bound_top 40 30 (length scs) (length scs)). lia.
  - done.
  - intros k sc acc Hk. apply render_scene_steady; [|done].
    by apply lookup_lt_Some in Hk.
Qed.

Lemma concat_videos_steady b videos out_path :
  triple (steady_at b) (concat_videos outcome videos out_path)
    (fun _ => steady_at b) failed_at.
Proof.
  destruct videos as [|v videos]; simpl.
  - intros w (evs & j & Hlog & Hj & Hq & Hp & Hc). unfold raise.
    exists evs, j. split_and!; try done. by right.
  - apply perform_then_ret_steady.
Qed.

Lemma last_writes_finishing preview_path out_file :
  preview_path <> [] -> out_file <> [] ->
  triple (steady_at 88)
    (bind (set_field job_id (SetPreview preview_path)) (fun _ =>
     bind (set_field job_id (SetFile out_file)) (fun _ =>
     bind (set_field job_id (SetProgress 100)) (fun _ =>
     set_field job_id (SetStatus Done)))))
    (fun _ => finishing outcome job_id l0) failed_at.
Proof.
  intros Hp Hf w Hw.
  pose proof Hw as (evs & j & Hlog & Hj & _).
  unfold bind.
  destruct (set_field_commit job_id (SetPreview preview_path) w j Hj)
    as [-> Hj1].
  destruct (set_field_commit job_id (SetFile out_file) _ _ Hj1) as [-> Hj2].
  destruct (set_field_commit job_id (SetProgress 100) _ _ Hj2) as [-> Hj3].
  destruct (set_field_commit job_id (SetStatus Done) _ _ Hj3) as [-> Hj4].
  by exists w, preview_path, out_file.
Qed.

Lemma worker_try_steady :
  triple (steady_at 5)
    (worker_try outcome path_exists voice_map job_id script images clips
       title resolution fps)
    (fun _ => finishing outcome job_id l0) failed_at.
Proof.
  unfold worker_try.
  eapply triple_bind; [by apply set_progress_steady|]. intros ?.
  eapply triple_bind; [by apply set_progress_steady|]. intros ?.
  eapply triple_bind; [apply synthesize_loop_steady|]. intros audio.
  apply triple_pure. intros Haudio.
  eapply triple_bind; [by apply set_progress_steady|]. intros ?.
  eapply triple_bind; [by apply render_loop_steady|]. intros videos.
  apply triple_pure. intros Hvideos.
  eapply triple_bind; [by apply set_progress_steady|]. intros ?.
  eapply triple_bind; [apply concat_videos_steady|]. intros ?.
  eapply triple_bind; [by apply set_progress_steady|]. intros ?.
  eapply triple_bind; [apply perform_then_ret_steady|]. intros ?.
  apply last_writes_finishing; by apply path_join_nonempty.
Qed.

End WorkerSteps.

Section WorkerRuns.

Variable outcome : call -> option str.
Variable path_exists : nat -> str -> bool.
Variable voice_map : gmap ustr str.
Variables (job_id script : str) (images clips : list str).
Variables (title resolution : str) (fps : Z).

Local Abbreviation worker :=
  (worker_render_movie outcome path_exists voice_map job_id script images
     clips title resolution fps).
Local Abbreviation try_block :=
  (worker_try outcome path_exists voice_map job_id script images clips
     title resolution fps).

Lemma worker_except_commit e w j :
  JOB_STORE w !! job_id = Some j ->
  worker_except job_id e w
  = (Return tt,
     commit_writes job_id
       [SetStatus Error; SetError (str_of_exn e); SetProgress 0] w)
  /\ JOB_STORE
       (commit_writes job_id
          [SetStatus Error; SetError (str_of_exn e); SetProgress 0] w)
     !! job_id
     = Some {| status := Error; progress := 0; file := file j;
               preview := preview j; error := Some (str_of_exn e) |}.
Proof.
  intros Hj. unfold worker_except, bind.
  destruct (set_field_commit job_id (SetStatus Error) w j Hj) as [-> Hj1].
  destruct (set_field_commit job_id (SetError (str_of_exn e)) _ _ Hj1)
    as [-> Hj2].
  destruct (set_field_commit job_id (SetProgress 0) _ _ Hj2) as [-> Hj3].
  done.
Qed.

(** The worker in one piece: its first write, then the [try] block, then
    the handler if the block raised. *)
Lemma worker_render_movie_run l0 w :
  steady outcome job_id l0 5 w ->
  match try_block (commit_write job_id w (SetProgress 5)) with
  | (Return _, w1) =>
      finishing outcome job_id l0 w1 /\ worker w = (Return tt, w1)
  | (Raise e, w1) =>
      failed outcome job_id l0 e w1
      /\ worker w
         = (Return tt,
            commit_writes job_id
              [SetStatus Error; SetError (str_of_exn e); SetProgress 0] w1)
  end.
Proof.
  intros Hw. pose proof Hw as (evs & j & Hlog & Hj & _).
  assert (steady outcome job_id l0 5 (commit_write job_id w (SetProgress 5)))
    as Hw5.
  { pose proof (set_progress_steady outcome job_id l0 5 5
                  (fun _ _ => False) ltac:(lia) ltac:(lia) w Hw) as H.
    destruct (set_field_commit job_id (SetProgress 5) w j Hj) as [Heq _].
    by rewrite Heq in H. }
  pose proof (worker_try_steady outcome path_exists voice_map job_id script
                images clips title resolution fps l0 _ Hw5) as Htry.
  unfold worker_render_movie, bind, try_except.
  destruct (set_field_commit job_id (SetProgress 5) w j Hj) as [-> _].
  destruct (try_block _) as [[[]|e] w1]; [done|].
  split; [done|].
  destruct Htry as (evs1 & j1 & _ & Hj1 & _).
  by destruct (worker_except_commit e w1 j1 Hj1) as [-> _].
Qed.

Lemma worker_render_movie_steady l0 :
  triple (steady outcome job_id l0 5) worker
    (fun _ w' => finishing outcome job_id l0 w' \/ aborted outcome job_id l0 w')
    (fun _ _ => False).
Proof.
  intros w Hw. pose proof (worker_render_movie_run l0 w Hw) as Hrun.
  destruct (try_block _) as [[[]|e] w1].
  - destruct Hrun as [Hfin ->]. by left.
  - destruct Hrun as [Hfail ->]. right. by exists e, w1.
Qed.

End WorkerRuns.

Section Submission.

Variable outcome : call -> option str.
Variable path_exists : nat -> str -> bool.
Variable voice_map : gmap ustr str.
Variable job_id : str.
Variable l0 : list event.

Local Abbreviation steady_at := (steady outcome job_id l0).
Local Abbreviation failed_at := (failed outcome job_id l0).

Lemma store_job_steady E :
  triple (fun w => log w = l0)
    (store_job job_id
       {| status := Pending; progress := 0; file := None; preview := None;
          error := None |})
    (fun _ => steady_at 0) E.
Proof.
  intros w Hlog. unfold store_job, record. simpl.
  eexists [_], _. simpl. rewrite Hlog.
  split_and!; [done|by rewrite lookup_insert_eq| |done|].
  - split; [|split].
    + unfold quiet. simpl. split_and!; auto. lia.
    + constructor; [|done]. eexists. simpl. rewrite lookup_insert_eq.
      split; [done|]. unfold quiet. simpl. split_and!; auto. lia.
    + simpl. split; constructor.
  - by constructor.
Qed.

Lemma set_status_running_steady b E :
  triple (steady_at b) (set_field job_id (SetStatus Running))
    (fun _ => steady_at b) E.
Proof.
  intros w (evs & j & Hlog & Hj & (Hq & Hev & Hs & Hb) & Hp & Hc).
  unfold set_field, record. rewrite Hj. simpl.
  assert (quiet (apply_write (SetStatus Running) j)) as Hq'.
  { destruct Hq as (_ & ? & ? & ? & ?). unfold quiet. simpl. auto. }
  eexists (evs ++ [_]), (apply_write (SetStatus Running) j). simpl.
  rewrite Hlog, <- app_assoc.
  split_and!; [done|by rewrite lookup_insert_eq| |done|].
  - split; [done|]. split.
    + apply Forall_app. split; [done|]. constructor; [|done].
      eexists. simpl. by rewrite lookup_insert_eq.
    + rewrite running_progress_writes_app. simpl. by rewrite app_nil_r.
  - apply Forall_app. split; [done|]. by constructor.
Qed.

Lemma create_task_steady b E :
  triple (steady_at b) (create_task job_id) (fun _ => steady_at b) E.
Proof.
  intros w (evs & j & Hlog & Hj & (Hq & Hev & Hs & Hb) & Hp & Hc).
  unfold create_task, record. simpl.
  exists (evs ++ [Event (ActCreateTask job_id) (JOB_STORE w)]), j. simpl.
  rewrite Hlog, <- app_assoc. split_and!; try done.
  - split; [done|]. split.
    + apply Forall_app. split; [done|]. constructor; [|done]. by exists j.
    + rewrite running_progress_writes_app. simpl. by rewrite app_nil_r.
  - apply Forall_app. split; [done|]. by constructor.
Qed.

Lemma save_uploads_steady b job_tmp files saved :
  triple (steady_at b) (save_uploads outcome job_tmp files saved)
    (fun _ => steady_at b) failed_at.
Proof.
  revert saved. induction files as [|f files IH]; intros saved; simpl.
  - apply (triple_ret saved (fun _ => steady_at b)).
  - eapply triple_bind; [apply perform_steady|]. intros ?. apply IH.
Qed.

Lemma generate_movie_endpoint_steady script title images clips resolution
    fps :
  triple (fun w => log w = l0)
    (generate_movie_endpoint outcome path_exists voice_map job_id script
       title images clips resolution fps)
    (fun submitted w =>
       steady_at 1 w
       /\ exists saved_images saved_clips,
            submitted.2
            = worker_render_movie outcome path_exists voice_map job_id
                script saved_images saved_clips title resolution fps)
    failed_at.
Proof.
  unfold generate_movie_endpoint.
  eapply triple_bind; [apply store_job_steady|]. intros ?.
  eapply triple_bind; [apply perform_steady|]. intros ?.
  eapply triple_bind; [apply save_uploads_steady|]. intros saved_images.
  eapply triple_bind; [apply save_uploads_steady|]. intros saved_clips.
  eapply triple_bind; [apply set_status_running_steady|]. intros ?.
  eapply triple_bind; [by apply set_progress_steady|]. intros ?.
  eapply triple_bind; [apply create_task_steady|]. intros ?.
  intros w Hw. simpl. split; [done|]. by exists saved_images, saved_clips.
Qed.

(** How the run of a job ends: the worker finished, or it caught an
    exception, or the submission itself raised. *)
Lemma run_job_ends script title images clips resolution fps :
  triple (fun w => log w = l0)
    (run_job outcome path_exists voice_map job_id script title images clips
       resolution fps)
    (fun _ w =>
       finishing outcome job_id l0 w \/ aborted outcome job_id l0 w)
    failed_at.
Proof.
  unfold run_job.
  eapply triple_bind; [apply generate_movie_endpoint_steady|].
  intros [id task]. simpl. intros w [Hw (imgs & cls & ->)].
  pose proof (worker_render_movie_steady outcome path_exists voice_map
                job_id script imgs cls title resolution fps l0 w
                (steady_weaken outcome job_id l0 1 5 w ltac:(lia) Hw)) as H.
  by destruct (worker_render_movie _ _ _ _ _ _ _ _ _ _ w) as [[[]|e] w'].
Qed.

End Submission.

(** ** What a reader of [JOB_STORE] sees *)

Lemma quiet_consistent_view st job_id j :
  st !! job_id = Some j -> quiet j -> consistent_view st job_id.
Proof.
  intros Hj (Hst & Hf & Hp & _ & Hlt). exists j.
  assert (status j <> Done) as Hnd by (destruct Hst; congruence).
  split_and!; try done.
  - split; [lia | done].
  - rewrite Hf. split; [by intros [? ?] | done].
  - rewrite Hp. split; [by intros [? ?] | done].
  - intros _. unfold download_endpoint, preview_endpoint.
    by rewrite Hj, Hf, Hp.
Qed.

Lemma commit_write_eq job_id w fw j :
  JOB_STORE w !! job_id = Some j ->
  commit_write job_id w fw
  = {| JOB_STORE := <[job_id := apply_write fw j]> (JOB_STORE w);
       log := log w
              ++ [Event (ActSet job_id fw)
                    (<[job_id := apply_write fw j]> (JOB_STORE w))] |}.
Proof. intros Hj. unfold commit_write. by rewrite Hj. Qed.

Lemma commit_writes_cons job_id w fw fws j :
  JOB_STORE w !! job_id = Some j ->
  commit_writes job_id (fw :: fws) w
  = commit_writes job_id fws
      {| JOB_STORE := <[job_id := apply_write fw j]> (JOB_STORE w);
         log := log w
                ++ [Event (ActSet job_id fw)
                      (<[job_id := apply_write fw j]> (JOB_STORE w))] |}.
Proof.
  intros Hj. unfold commit_writes. simpl.
  by rewrite (commit_write_eq job_id w fw j Hj).
Qed.

Section Summaries.

Variable outcome : call -> option str.
Variable job_id : str.
Variable l0 : list event.

Lemma quiet_events_observed evs :
  Forall (quiet_event job_id) evs ->
  forall e, In e evs -> consistent_view (visible e) job_id.
Proof.
  intros Hall e He. rewrite Forall_forall in Hall.
  destruct (Hall e (proj2 (list_elem_of_In _ _) He)) as (j & Hj & Hq).
  by apply (quiet_consistent_view _ _ j).
Qed.

Lemma failed_summary e w :
  failed outcome job_id l0 e w -> run_summary job_id l0 w.
Proof.
  intros (evs & j & Hlog & Hj & (Hq & Hev & Hs & Hb) & _).
  exists evs. split_and!; try done.
  - intros ev Hin _. by apply quiet_events_observed with evs.
  - by apply (quiet_consistent_view _ _ j).
Qed.

Lemma aborted_summary w :
  aborted outcome job_id l0 w -> run_summary job_id l0 w.
Proof.
  intros (e & w1 & (evs & j & Hlog & Hj & (Hq & Hev & Hs & Hb) & _) & ->).
  rewrite (commit_writes_cons job_id w1 _ _ j Hj).
  erewrite commit_writes_cons by (simpl; apply lookup_insert_eq).
  erewrite commit_writes_cons by (simpl; apply lookup_insert_eq).
  unfold commit_writes. simpl. rewrite Hlog, <- !app_assoc. simpl.
  eexists. split; [done|]. split_and!.
  - rewrite running_progress_writes_app. simpl.
    rewrite !lookup_insert_eq. simpl.
    rewrite andb_false_r. by rewrite app_nil_r.
  - intros ev [Hin|Hin]%in_app_iff Hobs.
    + by apply quiet_events_observed with evs.
    + simpl in Hin. destruct Hin as [<-|[<-|[<-|[]]]]; done.
  - destruct Hq as (_ & Hf & Hp & _).
    unfold consistent_view. simpl.
    eexists. rewrite lookup_insert_eq. split; [done|]. simpl.
    unfold download_endpoint, preview_endpoint.
    rewrite lookup_insert_eq. simpl. rewrite Hf, Hp.
    split_and!; try done; split; try done; by intros [? ?].
Qed.

Lemma finishing_summary w :
  finishing outcome job_id l0 w ->
  run_summary job_id l0 w
  /\ exists q s1 s2 s3 s4 preview_path out_file,
       log w = l0 ++ q
               ++ [Event (ActSet job_id (SetPreview preview_path)) s1;
                   Event (ActSet job_id (SetFile out_file)) s2;
                   Event (ActSet job_id (SetProgress 100)) s3;
                   Event (ActSet job_id (SetStatus Done)) s4]
       /\ JOB_STORE w !! job_id
          = Some {| status := Done; progress := 100; file := Some out_file;
                    preview := Some preview_path; error := None |}.
Proof.
  intros (wq & pp & f & (evs & j & Hlog & Hj & (Hq & Hev & Hs & Hb) & Hle
                         & Hc) & Hpp & Hf & ->).
  rewrite (commit_writes_cons job_id wq _ _ j Hj).
  erewrite commit_writes_cons by (simpl; apply lookup_insert_eq).
  erewrite commit_writes_cons by (simpl; apply lookup_insert_eq).
  erewrite commit_writes_cons by (simpl; apply lookup_insert_eq).
  unfold commit_writes. simpl. rewrite Hlog, <- !app_assoc. simpl.
  destruct Hq as (Hst & Hfile & Hprev & Herr & Hlt).
  split.
  - eexists. split; [done|]. split_and!.
    + rewrite running_progress_writes_app. simpl.
      rewrite !lookup_insert_eq. simpl. rewrite app_nil_r.
      destruct (_ && _); [|by rewrite app_nil_r].
      apply sorted_snoc; [done|].
      eapply Forall_impl; [exact Hb|]. simpl. intros. lia.
    + intros ev [Hin|Hin]%in_app_iff Hobs.
      * by apply quiet_events_observed with evs.
      * simpl in Hin. destruct Hin as [<-|[<-|[<-|[<-|[]]]]]; done.
    + unfold consistent_view. simpl.
      eexists. rewrite lookup_insert_eq. split; [done|]. simpl.
      unfold download_endpoint, preview_endpoint.
      rewrite lookup_insert_eq. simpl.
      destruct f as [|c f]; [done|]. destruct pp as [|d pp]; [done|].
      split_and!; try done. intros _. by exists (c :: f), (d :: pp).
  - do 7 eexists. split; [done|]. simpl.
    rewrite lookup_insert_eq. simpl. by rewrite Herr.
Qed.

End Summaries.

(** ** Scene durations in the rendering calls *)

Lemma perform_grew_by outcome R l0 c :
  (forall st, R (Event (ActCall c) st)) ->
  triple (grew_by R l0) (perform outcome c)
    (fun _ => grew_by R l0) (fun _ => grew_by R l0).
Proof.
  intros HR w (evs & Hlog & Hall). unfold perform.
  assert (grew_by R l0
            {| JOB_STORE := JOB_STORE w;
               log := log w ++ [Event (ActCall c) (JOB_STORE w)] |}).
  { exists (evs ++ [Event (ActCall c) (JOB_STORE w)]). simpl.
    rewrite Hlog, <- app_assoc. split; [done|].
    apply Forall_app. split; [done|]. by constructor. }
  by destruct (outcome c).
Qed.

Lemma set_field_grew_by R l0 job_id fw :
  (forall st, R (Event (ActSet job_id fw) st)) ->
  triple (grew_by R l0) (set_field job_id fw)
    (fun _ => grew_by R l0) (fun _ => grew_by R l0).
Proof.
  intros HR w (evs & Hlog & Hall). unfold set_field, record.
  destruct (JOB_STORE w !! job_id) as [j|]; simpl; [|by exists evs].
  eexists (evs ++ [_]). rewrite Hlog, <- app_assoc. split; [done|].
  apply Forall_app. split; [done|]. by constructor.
Qed.

Lemma perform_then_ret_grew_by {A} outcome R l0 c (a : A) :
  (forall st, R (Event (ActCall c) st)) ->
  triple (grew_by R l0) (bind (perform outcome c) (fun _ => ret a))
    (fun _ => grew_by R l0) (fun _ => grew_by R l0).
Proof.
  intros HR. eapply triple_bind; [by apply perform_grew_by|]. intros ?.
  apply (triple_ret a (fun _ => grew_by R l0)).
Qed.

Lemma render_scene_durations outcome path_exists job_id images clips
    resolution fps n audio i sc videos :
  triple (grew_by (rendered_for (scene_duration (text sc))) [])
    (render_scene outcome path_exists job_id images clips resolution fps n
       audio i sc videos)
    (fun _ => grew_by (rendered_for (scene_duration (text sc))) [])
    (fun _ => grew_by (rendered_for (scene_duration (text sc))) []).
Proof.
  unfold render_scene, image_to_video, clip_trim_or_loop,
    mux_video_with_audio.
  eapply triple_bind
    with (Q := fun _ => grew_by (rendered_for (scene_duration (text sc))) []).
  { destruct (usable_asset _ _ _) as [asset|].
    - destruct (str_in _ _); by apply perform_then_ret_grew_by.
    - eapply triple_bind; [by apply perform_grew_by|]. intros ?.
      by apply perform_then_ret_grew_by. }
  intros ?. destruct (audio !! i) as [track|]; [|by intros w Hw].
  eapply triple_bind; [by apply perform_then_ret_grew_by|]. intros ?.
  eapply triple_bind; [by apply set_field_grew_by|]. intros ?.
  apply (triple_ret _
           (fun _ => grew_by (rendered_for (scene_duration (text sc))) [])).
Qed.

(** C8. The duration of a scene is [floor(max(4, wordCount / 2.5))];
    it is never below 4; a text of ten words and a text of two words both
    get 4 seconds; and it is the duration that every rendering call made
    for the scene is given. *)
Theorem scene_duration_floor (txt : str) :
  scene_duration txt
    = Qfloor (Qmax (4 # 1) (inject_Z (word_count txt) / (5 # 2)))
  /\ 4 <= scene_duration txt
  /\ (word_count txt = 10 -> scene_duration txt = 4)
  /\ (word_count txt = 2 -> scene_duration txt = 4)
  /\ word_count (lit "one two three four five six seven eight nine ten") = 10
  /\ forall outcome path_exists job_id images clips resolution fps n audio i
        speaker videos st,
        Forall (rendered_for (scene_duration txt))
          (log (render_scene outcome path_exists job_id images clips
                  resolution fps n audio i
                  {| character := speaker; text := txt |} videos
                  {| JOB_STORE := st; log := [] |}).2).
Proof.
  rewrite scene_duration_eq.
  assert (0 <= word_count txt) as Hn by (unfold word_count; lia).
  repeat split.
  - change (inject_Z (word_count txt) / (5 # 2))%Q
      with ((word_count txt * 2) # 5).
    unfold Qmax, GenericMinMax.gmax, Qcompare. cbn [Qnum Qden].
    destruct (Z.compare_spec (4 * 5) (word_count txt * 2 * 1))
      as [Hcmp|Hcmp|Hcmp]; unfold Qfloor.
    + assert (word_count txt = 10) as -> by lia. done.
    + assert (4 <= word_count txt * 2 / 5).
      { apply Z.div_le_lower_bound; lia. }
      replace (2 * word_count txt) with (word_count txt * 2) by lia. lia.
    + assert (2 * word_count txt / 5 <= 4).
      { apply Z.div_le_upper_bound; lia. }
      change (4 / 1) with 4. lia.
  - lia.
  - intros ->. done.
  - intros ->. done.
  - intros. rewrite <- scene_duration_eq.
    assert (grew_by (rendered_for (scene_duration txt)) []
              {| JOB_STORE := st; log := [] |}) as Hstart.
    { exists []. split; [done|constructor]. }
    pose proof (render_scene_durations outcome path_exists job_id images
                  clips resolution fps n audio i
                  {| character := speaker; text := txt |} videos _ Hstart)
      as H.
    destruct (render_scene _ _ _ _ _ _ _ _ _ _ _ _ _) as [[a|e] w'];
      simpl in *; by destruct H as (evs & -> & Hall).
Qed.

(** ** The worker and its exceptions *)

Section Alive.

Variable outcome : call -> option str.
Variable path_exists : nat -> str -> bool.
Variable voice_map : gmap ustr str.
Variables (job_id script : str) (images clips : list str).
Variables (title resolution : str) (fps : Z).
Variable l0 : list event.

Local Abbreviation alive_at := (alive outcome job_id l0).
Local Abbreviation broken_at := (broken outcome job_id l0).

Lemma perform_alive c :
  triple alive_at (perform outcome c) (fun _ => alive_at) broken_at.
Proof.
  intros w (evs & j & Hlog & Hj & Hc). unfold perform.
  destruct (outcome c) as [msg|] eqn:Hout.
  - exists (evs ++ [Event (ActCall c) (JOB_STORE w)]), j. simpl.
    rewrite Hlog, <- app_assoc. split_and!; try done.
    left. by exists evs, c, (JOB_STORE w), msg.
  - exists (evs ++ [Event (ActCall c) (JOB_STORE w)]), j. simpl.
    rewrite Hlog, <- app_assoc. split_and!; try done.
    apply Forall_app. split; [done|]. by constructor.
Qed.

Lemma set_field_alive fw E :
  triple alive_at (set_field job_id fw) (fun _ => alive_at) E.
Proof.
  intros w (evs & j & Hlog & Hj & Hc). unfold set_field, record.
  rewrite Hj. simpl. eexists (evs ++ [_]), _. simpl.
  rewrite Hlog, <- app_assoc.
  split_and!; [done|by rewrite lookup_insert_eq|].
  apply Forall_app. split; [done|]. by constructor.
Qed.

Lemma perform_then_ret_alive {A} c (a : A) :
  triple alive_at (bind (perform outcome c) (fun _ => ret a))
    (fun _ => alive_at) broken_at.
Proof.
  eapply triple_bind; [apply perform_alive|]. intros ?.
  apply (triple_ret a (fun _ => alive_at)).
Qed.

Lemma raise_alive {A} e :
  (forall msg, e <> StageError msg) ->
  triple alive_at (@raise A e) (fun _ => alive_at) broken_at.
Proof.
  intros He w (evs & j & Hlog & Hj & Hc). unfold raise.
  exists evs, j. split_and!; try done. by right.
Qed.

Lemma synthesize_scene_alive n k sc acc :
  triple alive_at (synthesize_scene outcome voice_map job_id n k sc acc)
    (fun _ => alive_at) broken_at.
Proof.
  unfold synthesize_scene, synthesize_character_voice, synthesize_with_gtts.
  eapply triple_bind with (Q := fun _ => alive_at).
  { destruct (startswith _ _);
      (eapply triple_bind; [apply perform_then_ret_alive|]); intros ?;
      apply (triple_ret _ (fun _ => alive_at)). }
  intros ?. eapply triple_bind; [apply set_field_alive|]. intros ?.
  apply (triple_ret _ (fun _ => alive_at)).
Qed.

Lemma render_scene_alive n audio k sc acc :
  triple alive_at
    (render_scene outcome path_exists job_id images clips resolution fps n
       audio k sc acc)
    (fun _ => alive_at) broken_at.
Proof.
  unfold render_scene.
  eapply triple_bind with (Q := fun _ => alive_at).
  { destruct (usable_asset _ _ _) as [asset|].
    - destruct (str_in _ _); apply perform_then_ret_alive.
    - eapply triple_bind; [apply perform_alive|]. intros ?.
      apply perform_then_ret_alive. }
  intros ?. destruct (audio !! k) as [track|]; [|by apply raise_alive].
  eapply triple_bind; [apply perform_then_ret_alive|]. intros ?.
  eapply triple_bind; [apply set_field_alive|]. intros ?.
  apply (triple_ret _ (fun _ => alive_at)).
Qed.

Lemma worker_try_alive :
  triple alive_at
    (worker_try outcome path_exists voice_map job_id script images clips
       title resolution fps)
    (fun _ => alive_at) broken_at.
Proof.
  unfold worker_try.
  eapply triple_bind; [apply set_field_alive|]. intros ?.
  eapply triple_bind; [apply set_field_alive|]. intros ?.
  eapply triple_bind.
  { apply (triple_for_enumerate _ (fun _ _ => alive_at)).
    intros k sc acc _. apply synthesize_scene_alive. }
  intros audio.
  eapply triple_bind; [apply set_field_alive|]. intros ?.
  eapply triple_bind.
  { apply (triple_for_enumerate _ (fun _ _ => alive_at)).
    intros k sc acc _. apply render_scene_alive. }
  intros videos.
  eapply triple_bind; [apply set_field_alive|]. intros ?.
  eapply triple_bind with (Q := fun _ => alive_at).
  { unfold concat_videos. destruct videos as [|v videos].
    - by apply raise_alive.
    - apply perform_then_ret_alive. }
  intros ?.
  eapply triple_bind; [apply set_field_alive|]. intros ?.
  eapply triple_bind; [apply perform_then_ret_alive|]. intros ?.
  eapply triple_bind; [apply set_field_alive|]. intros ?.
  eapply triple_bind; [apply set_field_alive|]. intros ?.
  eapply triple_bind; [apply set_field_alive|]. intros ?.
  apply set_field_alive.
Qed.

End Alive.

Section Claims.

Variable outcome : call -> option str.
Variable path_exists : nat -> str -> bool.
Variable voice_map : gmap ustr str.

Lemma returned_call_not_raising evs c s msg :
  Forall (call_returned outcome) evs ->
  In (Event (ActCall c) s) evs -> outcome c = Some msg -> False.
Proof.
  intros Hret Hin Hout. rewrite Forall_forall in Hret.
  specialize (Hret _ (proj2 (list_elem_of_In _ _) Hin)).
  unfold call_returned in Hret. simpl in Hret. congruence.
Qed.

(** C1. Take a job that is in the store.  The worker never lets an
    exception escape.  Whenever its [try] block raises [e], the only
    thing that follows is the handler's three writes, after which the job
    has status error, [str(e)] as its error message and progress 0.  And
    a call into a stage that raises ends the [try] block on the spot with
    that exception: it is the last event of the block, so no later stage
    is run. *)
Theorem worker_catches_stage_errors
    (job_id script : str) (images clips : list str)
    (title resolution : str) (fps : Z) (w : world) (j : job) :
  JOB_STORE w !! job_id = Some j ->
  let started := commit_write job_id w (SetProgress 5) in
  let tried :=
    worker_try outcome path_exists voice_map job_id script images clips
      title resolution fps started in
  let ended :=
    worker_render_movie outcome path_exists voice_map job_id script images
      clips title resolution fps w in
  ended.1 = Return tt
  /\ (forall e, tried.1 = Raise e ->
        ended.2
        = commit_writes job_id
            [SetStatus Error; SetError (str_of_exn e); SetProgress 0]
            tried.2
        /\ exists j',
             JOB_STORE ended.2 !! job_id = Some j'
             /\ status j' = Error /\ error j' = Some (str_of_exn e)
             /\ progress j' = 0)
  /\ (forall evs c s msg,
        log tried.2 = log w ++ evs ->
        In (Event (ActCall c) s) evs -> outcome c = Some msg ->
        tried.1 = Raise (StageError msg)
        /\ exists pre,
             evs = pre ++ [Event (ActCall c) s]
             /\ Forall (call_returned outcome) pre).
Proof.
  intros Hj started tried ended.
  assert (ended = match tried with
                  | (Return _, w1) => (Return tt, w1)
                  | (Raise e, w1) => worker_except job_id e w1
                  end) as Hended.
  { subst ended tried started. unfold worker_render_movie.
    rewrite (set_field_bind _ _ _ _ _ Hj). unfold try_except.
    by destruct (worker_try _ _ _ _ _ _ _ _ _ _ _) as [[[]|e] w1]. }
  assert (alive outcome job_id (log w) started) as Hstart.
  { subst started.
    pose proof (set_field_alive outcome job_id (log w) (SetProgress 5)
                  (fun _ _ => False) w) as H.
    destruct (set_field_commit job_id (SetProgress 5) w j Hj) as [Heq _].
    rewrite Heq in H. apply H. exists [], j. rewrite app_nil_r.
    split_and!; [done|done|constructor]. }
  pose proof (worker_try_alive outcome path_exists voice_map job_id script
                images clips title resolution fps (log w) started Hstart)
    as Htry.
  fold tried in Htry. clearbody tried ended started.
  destruct tried as [[[]|e] w1]; simpl in *; subst ended.
  - split; [done|]. split; [done|].
    intros evs c s msg Hlog Hin Hout. exfalso.
    destruct Htry as (evs1 & j1 & Hlog1 & _ & Hret).
    rewrite Hlog1 in Hlog. apply app_inv_head in Hlog. subst evs.
    by apply (returned_call_not_raising evs1 c s msg).
  - destruct Htry as (evs1 & j1 & Hlog1 & Hj1 & Hcases).
    destruct (worker_except_commit job_id e w1 j1 Hj1) as [-> Hfinal].
    split; [done|]. split.
    + intros e' [= <-]. split; [done|]. eexists. split; [exact Hfinal|].
      done.
    + intros evs c s msg Hlog Hin Hout.
      rewrite Hlog1 in Hlog. apply app_inv_head in Hlog. subst evs.
      destruct Hcases as [(pre & c' & s' & msg' & -> & Hret & Hout' & ->)
                         |[Hret _]].
      * apply in_app_iff in Hin as [Hin|[Hin|[]]].
        { exfalso. by apply (returned_call_not_raising pre c s msg). }
        injection Hin as <- <-.
        assert (msg' = msg) as -> by congruence.
        split; [done|]. by exists pre.
      * exfalso. by apply (returned_call_not_raising evs1 c s msg).
Qed.

End Claims.

(** C6, as the code has it.  The parser returns no scene for the empty
    script.  For a job that is in the store, the worker then makes its
    five progress writes up to 75 and no call at all; [concat_videos]
    raises on the empty list, and the handler leaves the job with status
    error, progress 0 and the message of that exception. *)
Theorem empty_script_ends_in_error
    (outcome : call -> option str) (path_exists : nat -> str -> bool)
    (voice_map : gmap ustr str) (job_id : str) (images clips : list str)
    (title resolution : str) (fps : Z) (w : world) (j : job) :
  JOB_STORE w !! job_id = Some j ->
  let ended :=
    worker_render_movie outcome path_exists voice_map job_id [] images
      clips title resolution fps w in
  parse_script_with_characters [] = []
  /\ ended
     = (Return tt,
        commit_writes job_id
          [SetProgress 5; SetProgress 10; SetProgress 15; SetProgress 40;
           SetProgress 75; SetStatus Error;
           SetError (lit "No videos to concat"); SetProgress 0] w)
  /\ JOB_STORE ended.2 !! job_id
     = Some {| status := Error; progress := 0; file := file j;
               preview := preview j;
               error := Some (lit "No videos to concat") |}.
Proof.
  intros Hj ended. subst ended. split; [done|].
  pose proof (commit_write_lookup job_id (SetProgress 5) _ _ Hj) as H5.
  pose proof (commit_write_lookup job_id (SetProgress 10) _ _ H5) as H10.
  pose proof (commit_write_lookup job_id (SetProgress 15) _ _ H10) as H15.
  pose proof (commit_write_lookup job_id (SetProgress 40) _ _ H15) as H40.
  pose proof (commit_write_lookup job_id (SetProgress 75) _ _ H40) as H75.
  assert (worker_render_movie outcome path_exists voice_map job_id [] images
            clips title resolution fps w
          = (Return tt,
             commit_writes job_id
               [SetProgress 5; SetProgress 10; SetProgress 15; SetProgress 40;
                SetProgress 75; SetStatus Error;
                SetError (lit "No videos to concat"); SetProgress 0] w))
    as Hrun.
  { unfold worker_render_movie.
    rewrite (set_field_bind _ _ _ _ _ Hj).
    unfold try_except, worker_try.
    change (parse_script_with_characters []) with (@nil scene).
    rewrite (set_field_bind _ _ _ _ _ H5).
    rewrite (set_field_bind _ _ _ _ _ H10).
    unfold for_enumerate at 1. unfold bind at 1. unfold ret at 1.
    rewrite (set_field_bind _ _ _ _ _ H15).
    unfold for_enumerate at 1. unfold bind at 1. unfold ret at 1.
    rewrite (set_field_bind _ _ _ _ _ H40).
    unfold concat_videos, bind at 1, raise.
    by destruct (worker_except_commit job_id
                   (ValueError (lit "No videos to concat")) _ _ H75)
      as [-> _]. }
  split; [exact Hrun|]. rewrite Hrun.
  destruct (worker_except_commit job_id
              (ValueError (lit "No videos to concat")) _ _ H75)
    as [_ Hfinal].
  exact Hfinal.
Qed.

Section Lifecycle.

Variable outcome : call -> option str.
Variable path_exists : nat -> str -> bool.
Variable voice_map : gmap ustr str.
Variables (job_id script title : str) (images clips : list upload).
Variables (resolution : str) (fps : Z).

Local Abbreviation job_run :=
  (run_job outcome path_exists voice_map job_id script title images clips
     resolution fps).

Lemma run_job_summary (w0 : world) :
  exists evs,
    log (job_run w0).2 = log w0 ++ evs
    /\ Sorted Z.le (running_progress_writes job_id evs)
    /\ (forall e, In e evs -> observable (act e) = true ->
          consistent_view (visible e) job_id)
    /\ consistent_view (JOB_STORE (job_run w0).2) job_id
    /\ (forall j, JOB_STORE (job_run w0).2 !! job_id = Some j ->
          status j = Done -> ends_with_done_writes job_id evs).
Proof.
  pose proof (run_job_ends outcome path_exists voice_map job_id (log w0)
                script title images clips resolution fps w0 eq_refl) as H.
  destruct (job_run w0) as [[[]|e] w']; simpl.
  - destruct H as [Hfin|Habort].
    + destruct (finishing_summary outcome job_id _ _ Hfin)
        as [(evs & Hlog & Hs & Hobs & Hend)
            (q & s1 & s2 & s3 & s4 & pp & f & Hlog' & Hj)].
      exists evs. split_and!; try done. intros _ _ _.
      rewrite Hlog' in Hlog. apply app_inv_head in Hlog. subst evs.
      by exists q, s1, s2, s3, s4, pp, f.
    + destruct (aborted_summary outcome job_id _ _ Habort)
        as (evs & Hlog & Hs & Hobs & Hend).
      exists evs. split_and!; try done. intros j Hj Hdone. exfalso.
      destruct Habort as (e & w1 & (evs1 & j1 & _ & Hj1 & _) & ->).
      destruct (worker_except_commit job_id e w1 j1 Hj1) as [_ Hfinal].
      rewrite Hfinal in Hj. injection Hj as <-. done.
  - destruct (failed_summary outcome job_id _ _ _ H)
      as (evs & Hlog & Hs & Hobs & Hend).
    exists evs. split_and!; try done. intros j Hj Hdone. exfalso.
    destruct H as (evs1 & j1 & _ & Hj1 & ((Hst & _) & _) & _).
    rewrite Hj1 in Hj. injection Hj as <-. destruct Hst; congruence.
Qed.

(** C2. Over the whole run of a job, from its submission to the end of
    its worker: the values written to the job's progress while its status
    is running never decrease; and at every point where the job's record
    can be read by another task (during a call into a stage, when the
    worker is handed to the event loop) and at the end of the run, the
    progress is 100 exactly when the status is done. *)
Theorem progress_monotone_and_full_iff_done (w0 : world) :
  exists evs,
    log (job_run w0).2 = log w0 ++ evs
    /\ Sorted Z.le (running_progress_writes job_id evs)
    /\ (forall e, In e evs -> observable (act e) = true ->
          exists j, visible e !! job_id = Some j
                    /\ (progress j = 100 <-> status j = Done))
    /\ (exists j, JOB_STORE (job_run w0).2 !! job_id = Some j
                  /\ (progress j = 100 <-> status j = Done)).
Proof.
  destruct (run_job_summary w0) as (evs & Hlog & Hs & Hobs & Hend & _).
  exists evs. split_and!; try done.
  - intros e He Ho. destruct (Hobs e He Ho) as (j & Hj & Hp & _). eauto.
  - destruct Hend as (j & Hj & Hp & _). eauto.
Qed.

(** C3. Over the whole run of a job: at every point where the job's
    record can be read by another task, and at the end of the run, the
    artifact path is present exactly when the status is done, and so is
    the preview path; while the status is not done both retrieval
    endpoints answer not-ready, and once it is done they answer with the
    two files.  A run that ends with status done ends with the writes of
    the preview path, of the artifact path, of progress 100 and of status
    done, one after the other, with no point in between at which the
    record can be read. *)
Theorem artifact_and_preview_with_done (w0 : world) :
  exists evs,
    log (job_run w0).2 = log w0 ++ evs
    /\ (forall st,
          (exists e, In e evs /\ observable (act e) = true
                     /\ st = visible e)
          \/ st = JOB_STORE (job_run w0).2 ->
          exists j,
            st !! job_id = Some j
            /\ (is_Some (file j) <-> status j = Done)
            /\ (is_Some (preview j) <-> status j = Done)
            /\ (status j <> Done ->
                download_endpoint st job_id
                  = NotFound (lit "file not ready")
                /\ preview_endpoint st job_id
                  = NotFound (lit "preview not ready"))
            /\ (status j = Done ->
                exists f p,
                  download_endpoint st job_id = FileResponse f (basename f)
                  /\ preview_endpoint st job_id
                     = FileResponse p (basename p)
                  /\ file j = Some f /\ preview j = Some p))
    /\ (forall j, JOB_STORE (job_run w0).2 !! job_id = Some j ->
          status j = Done -> ends_with_done_writes job_id evs).
Proof.
  destruct (run_job_summary w0) as (evs & Hlog & Hs & Hobs & Hend & Htail).
  exists evs. split_and!; try done.
  intros st [(e & He & Ho & ->)| ->].
  - destruct (Hobs e He Ho) as (j & Hj & _ & Hrest). by exists j.
  - destruct Hend as (j & Hj & _ & Hrest). by exists j.
Qed.

End Lifecycle.

(** ** Concrete runs *)

(** C1 at work: muxing raises [boom] in a one-scene job. *)
Lemma worker_catches_stage_errors_witness :
  JOB_STORE demo_world !! lit "J" = Some demo_job
  /\ exists j',
       JOB_STORE
         (worker_render_movie mux_raises always_exists CHAR_VOICE_MAP
            (lit "J") (lit "A: x") [] [] (lit "movie") (lit "1920x1080") 24
            demo_world).2 !! lit "J" = Some j'
       /\ status j' = Error /\ error j' = Some (lit "boom")
       /\ progress j' = 0.
Proof.
  assert (JOB_STORE demo_world !! lit "J" = Some demo_job) as Hj
    by (vm_compute; reflexivity).
  split; [exact Hj|].
  destruct (worker_catches_stage_errors mux_raises always_exists
              CHAR_VOICE_MAP (lit "J") (lit "A: x") [] [] (lit "movie")
              (lit "1920x1080") 24 demo_world demo_job Hj)
    as (_ & Hcatch & _).
  destruct (Hcatch (StageError (lit "boom"))) as [_ Hend].
  - vm_compute. reflexivity.
  - exact Hend.
Defined.

(** C4 at work on [tagged_script]. *)
Lemma parse_all_tagged_witness :
  parse_script_with_characters tagged_script
  = [ {| character := wide (lit "A"); text := lit "x" |};
      {| character := wide (lit "B"); text := lit "y" |} ].
Proof.
  rewrite (parse_all_tagged tagged_script).
  - vm_compute. reflexivity.
  - intros l Hin Hb. vm_compute in Hin.
    destruct Hin as [<-|[<-|[<-|[]]]];
      first [ reflexivity | vm_compute in Hb; discriminate Hb ].
Defined.

(** C5 at work on [continued_script]. *)
Lemma parse_continuation_line_witness :
  splitlines continued_script = [lit "A: x"] ++ [lit " more"]
  /\ contains COLON (lit " more") = false
  /\ exists init sc,
       scenes (parse_lines [lit "A: x"]) = init ++ [sc]
       /\ parse_script_with_characters continued_script
          = init ++ [{| character := character sc;
                        text := text sc ++ lit " " ++ strip (lit " more") |}].
Proof.
  assert (splitlines continued_script = [lit "A: x"] ++ [lit " more"]) as H1
    by (vm_compute; reflexivity).
  assert (contains COLON (lit " more") = false) as H2
    by (vm_compute; reflexivity).
  split; [exact H1|]. split; [exact H2|].
  exact (proj2 (parse_continuation_line continued_script [lit "A: x"]
                  (lit " more") H1 H2)).
Defined.

(** C6, as the code has it, at work on [demo_world]. *)
Lemma empty_script_ends_in_error_witness :
  JOB_STORE demo_world !! lit "J" = Some demo_job
  /\ JOB_STORE
       (worker_render_movie all_return always_exists CHAR_VOICE_MAP
          (lit "J") [] [] [] (lit "movie") (lit "1920x1080") 24
          demo_world).2 !! lit "J"
     = Some {| status := Error; progress := 0; file := None;
               preview := None;
               error := Some (lit "No videos to concat") |}.
Proof.
  assert (JOB_STORE demo_world !! lit "J" = Some demo_job) as Hj
    by (vm_compute; reflexivity).
  split; [exact Hj|].
  exact (proj2 (proj2 (empty_script_ends_in_error all_return always_exists
                         CHAR_VOICE_MAP (lit "J") [] [] (lit "movie")
                         (lit "1920x1080") 24 demo_world demo_job Hj))).
Defined.

(** C6 as written fails: submitted with the empty script, and with
    every call returning, the job ends with status error. *)
Lemma empty_script_counterexample :
  exists j,
    JOB_STORE
      (run_job all_return always_exists CHAR_VOICE_MAP (lit "J") []
         (lit "movie") [] [] (lit "1920x1080") 24 empty_world).2
      !! lit "J" = Some j
    /\ status j = Error.
Proof. vm_compute. eexists. split; reflexivity. Qed.

(** C9, as the code has it, at work on the script [A: x]. *)
Lemma parse_text_present_unless_empty_tag_witness :
  In {| character := wide (lit "A"); text := lit "x" |}
    (parse_script_with_characters (lit "A: x"))
  /\ strip (lit "x") <> [].
Proof.
  assert (In {| character := wide (lit "A"); text := lit "x" |}
            (parse_script_with_characters (lit "A: x"))) as Hin
    by (vm_compute; left; reflexivity).
  split; [exact Hin|].
  destruct (parse_text_present_unless_empty_tag (lit "A: x") _ Hin)
    as [H|[H _]].
  - exact H.
  - vm_compute in H. discriminate H.
Defined.

(** The progress written while running, in a run where every call
    returns. *)
Example running_progress_of_a_run :
  running_progress_writes (lit "J")
    (log (run_job all_return always_exists CHAR_VOICE_MAP (lit "J")
            (lit "NARRATOR: Hello world") (lit "movie") [] []
            (lit "1920x1080") 24 empty_world).2)
  = [1; 5; 10; 15; 35; 40; 70; 75; 88; 100].
Proof. vm_compute. reflexivity. Qed.

(** The script of the parser's docstring. *)
Example parse_docstring_script :
  parse_script_with_characters
    (lit "NARRATOR: The world was quiet." ++ [LF]
     ++ lit "ALICE: Hello there!" ++ [LF] ++ lit "BOB: Hi.")
  = [ {| character := wide (lit "NARRATOR");
         text := lit "The world was quiet." |};
      {| character := wide (lit "ALICE"); text := lit "Hello there!" |};
      {| character := wide (lit "BOB"); text := lit "Hi." |} ].
Proof. vm_compute. reflexivity. Qed.

(** Speakers beyond ASCII, by code point: [été] (233 116 233) becomes
    [ÉTÉ] (201 84 201), and [ßÿµ] (223 255 181) becomes [SS] followed by
    the two capitals above code point 255. *)
Example parse_latin1_speakers :
  parse_script_with_characters
    (map ascii_of_nat [233; 116; 233]%nat ++ lit ": x" ++ [LF]
     ++ map ascii_of_nat [223; 255; 181]%nat ++ lit ":y")
  = [ {| character := wide (map ascii_of_nat [201; 84; 201]%nat);
         text := lit "x" |};
      {| character := wide (lit "SS") ++ [CAPITAL_Y_DIAERESIS; CAPITAL_MU];
         text := lit "y" |} ].
Proof. vm_compute. reflexivity. Qed.

(** A one-scene job without assets, every call returning: the job ends
    done, with both paths set. *)
Example hello_world_job_ends_done :
  JOB_STORE
    (run_job all_return always_exists CHAR_VOICE_MAP (lit "J")
       (lit "NARRATOR: Hello world") (lit "movie") [] []
       (lit "1920x1080") 24 empty_world).2 !! lit "J"
  = Some {| status := Done; progress := 100;
            file := Some (lit "outputs/movie_J.mp4");
            preview := Some (lit "outputs/movie_J_preview.mp4");
            error := None |}.
Proof. vm_compute. reflexivity. Qed.

(** * Further properties *)

(** ** The parser: which scripts give scenes, and how many *)

Lemma parse_line_length st raw :
  (length (scenes st) <= length (scenes (parse_line st raw)))%nat.
Proof.
  destruct (blank raw) eqn:Hb.
  { by rewrite parse_line_blank. }
  destruct (contains COLON raw) eqn:Hc.
  - rewrite parse_line_tagged by done. simpl. rewrite length_app. lia.
  - rewrite parse_line_continuation by done.
    destruct (current st); simpl.
    + by rewrite length_alter.
    + rewrite length_app. lia.
Qed.

Lemma fold_parse_line_length lines st :
  (length (scenes st) <= length (scenes (fold_left parse_line lines st)))%nat.
Proof.
  revert st. induction lines as [|l lines IH]; intros st; simpl; [done|].
  etrans; [apply (parse_line_length st l)|apply IH].
Qed.

Lemma fold_parse_line_blank lines st :
  Forall (fun l => blank l = true) lines ->
  scenes (fold_left parse_line lines st) = scenes st.
Proof.
  revert st. induction lines as [|l lines IH]; intros st Hall; [done|].
  inversion Hall as [|? ? Hl Hrest]; subst. simpl.
  rewrite IH by done. by rewrite parse_line_blank.
Qed.

Lemma parse_line_not_blank_nonempty st raw :
  current_is_last st -> blank raw = false ->
  scenes (parse_line st raw) <> [].
Proof.
  intros Hlast Hb.
  pose proof (parse_line_current_is_last st raw Hlast) as Hlast'.
  destruct (parse_line_cases st raw) as [[Hb' _]|[_ (st' & Heq & Hcur)]];
    [congruence|].
  rewrite Heq in *. unfold current_is_last in Hlast'.
  destruct (current st') as [i|]; [|done].
  intros Hnil. rewrite Hnil in Hlast'. simpl in Hlast'. lia.
Qed.

Lemma parse_nil_iff (script : str) :
  parse_script_with_characters script = []
  <-> Forall (fun l => blank l = true) (splitlines script).
Proof.
  unfold parse_script_with_characters, parse_lines. split.
  - intros Hnil. apply Forall_forall. intros l Hin.
    destruct (blank l) eqn:Hb; [done|]. exfalso.
    apply list_elem_of_In, in_split in Hin as (pre & post & Hsplit).
    rewrite Hsplit, fold_left_app in Hnil. simpl in Hnil.
    pose proof (parse_line_not_blank_nonempty _ l
                  (parse_lines_current_is_last pre) Hb) as Hne.
    pose proof (fold_parse_line_length post
                  (parse_line (parse_lines pre) l)) as Hlen.
    unfold parse_lines in *. rewrite Hnil in Hlen. simpl in Hlen.
    destruct (scenes (parse_line _ l)); [done|simpl in Hlen; lia].
  - intros Hall. by rewrite fold_parse_line_blank.
Qed.

(** X1.  The parser returns no scene exactly for the scripts whose lines are
    all blank. *)
Theorem parse_empty_iff_all_blank (script : str) :
  parse_script_with_characters script = []
  <-> Forall (fun l => blank l = true) (splitlines script).
Proof. apply parse_nil_iff. Qed.

Lemma fold_parse_line_count lines st :
  current_is_last st ->
  length (scenes (fold_left parse_line lines st))
  = (length (scenes st)
     + count_openers (bool_decide (current st <> None)) lines)%nat.
Proof.
  revert st. induction lines as [|l lines IH]; intros st Hlast; simpl.
  { lia. }
  rewrite IH by (by apply parse_line_current_is_last).
  unfold opens_scene. destruct (blank l) eqn:Hb; simpl.
  - rewrite parse_line_blank by done. simpl.
    repeat case_bool_decide; simpl; try lia; congruence.
  - destruct (contains COLON l) eqn:Hc; simpl.
    + rewrite parse_line_tagged by done. simpl. rewrite length_app. simpl.
      repeat case_bool_decide; simpl; try lia; congruence.
    + rewrite parse_line_continuation by done.
      destruct (current st) as [i|] eqn:Hi; simpl.
      * rewrite length_alter.
        repeat case_bool_decide; simpl; try lia; congruence.
      * rewrite length_app. simpl.
        repeat case_bool_decide; simpl; try lia; congruence.
Qed.

(** X2.  The number of scenes is the number of lines that open one: the
    tagged lines, and the untagged non-blank lines that start the script
    or follow a blank line. *)
Theorem parse_scene_count (script : str) :
  length (parse_script_with_characters script)
  = count_openers false (splitlines script).
Proof.
  unfold parse_script_with_characters, parse_lines.
  rewrite fold_parse_line_count by done. simpl.
  repeat case_bool_decide; simpl; try lia; congruence.
Qed.

(** ** The parser: speakers are normalised *)

Lemma upper_app a b : upper (a ++ b) = upper a ++ upper b.
Proof. unfold upper. apply flat_map_app. Qed.

Lemma wide_app a b : wide (a ++ b) = wide a ++ wide b.
Proof. unfold wide. apply map_app. Qed.

Lemma upper_wide_cons c s :
  upper (wide (c :: s)) = upper_char c ++ upper (wide s).
Proof. reflexivity. Qed.

Lemma upper_wide_single c : upper (wide [c]) = upper_char c.
Proof. rewrite upper_wide_cons. apply app_nil_r. Qed.

Lemma upper_char_space c : isspace c = true -> upper_char c = [Latin1 c].
Proof. by destruct c as [[] [] [] [] [] [] [] []]. Qed.

Lemma upper_char_not_space c :
  isspace c = false ->
  exists x r, upper_char c = x :: r /\ isspace_u x = false.
Proof.
  destruct c as [[] [] [] [] [] [] [] []]; intros H;
    try discriminate H; by eexists _, _.
Qed.

Lemma rev_upper_char c : rev (upper_char c) = upper_char c.
Proof. by destruct c as [[] [] [] [] [] [] [] []]. Qed.

Lemma upper_upper_char c : upper (upper_char c) = upper_char c.
Proof. by destruct c as [[] [] [] [] [] [] [] []]. Qed.

Lemma upper_idemp s : upper (upper s) = upper s.
Proof.
  induction s as [|c s IH]; [done|].
  destruct c as [a| |].
  - change (upper (Latin1 a :: s)) with (upper_char a ++ upper s).
    by rewrite upper_app, IH, upper_upper_char.
  - change (upper (CAPITAL_Y_DIAERESIS :: s))
      with (CAPITAL_Y_DIAERESIS :: upper s).
    change (upper (CAPITAL_Y_DIAERESIS :: upper s))
      with (CAPITAL_Y_DIAERESIS :: upper (upper s)).
    by rewrite IH.
  - change (upper (CAPITAL_MU :: s)) with (CAPITAL_MU :: upper s).
    change (upper (CAPITAL_MU :: upper s))
      with (CAPITAL_MU :: upper (upper s)).
    by rewrite IH.
Qed.

Lemma lstrip_u_upper s : lstrip_u (upper (wide s)) = upper (wide (lstrip s)).
Proof.
  induction s as [|c s IH]; [done|].
  rewrite upper_wide_cons. cbn [lstrip].
  destruct (isspace c) eqn:Hc.
  - rewrite upper_char_space by done. simpl. by rewrite Hc.
  - destruct (upper_char_not_space c Hc) as (x & r & Hx & Hsp).
    rewrite upper_wide_cons, Hx. simpl. by rewrite Hsp.
Qed.

Lemma rev_upper s : rev (upper (wide s)) = upper (wide (rev s)).
Proof.
  induction s as [|c s IH]; [done|].
  rewrite upper_wide_cons, rev_app_distr, IH, rev_upper_char. simpl.
  by rewrite wide_app, upper_app, upper_wide_single.
Qed.

Lemma strip_u_upper s : strip_u (upper (wide s)) = upper (wide (strip s)).
Proof.
  unfold strip_u, rstrip_u, strip, rstrip.
  by rewrite lstrip_u_upper, rev_upper, lstrip_u_upper, rev_upper.
Qed.

Lemma parse_line_normalised st raw :
  Forall normalised_speaker (scenes st) ->
  Forall normalised_speaker (scenes (parse_line st raw)).
Proof.
  intros Hst. destruct (blank raw) eqn:Hb.
  { by rewrite parse_line_blank. }
  destruct (contains COLON raw) eqn:Hc.
  - rewrite parse_line_tagged by done. simpl.
    apply Forall_app. split; [done|]. constructor; [|done].
    split; simpl.
    + apply upper_idemp.
    + by rewrite strip_u_upper, strip_idemp.
  - rewrite parse_line_continuation by done.
    destruct (current st) as [i|]; simpl.
    + apply Forall_alter; [done|]. by intros sc _ Hsc.
    + apply Forall_app. split; [done|]. constructor; [|done]. by split.
Qed.

(** X3.  Every speaker the parser returns is in normal form: upper-casing
    it or trimming it changes nothing, so the key the voice lookup builds
    with [character.upper()] is the speaker itself. *)
Theorem parse_speakers_normalised (script : str) :
  Forall (fun sc => upper (character sc) = character sc
                    /\ strip_u (character sc) = character sc)
    (parse_script_with_characters script).
Proof.
  unfold parse_script_with_characters, parse_lines.
  assert (forall lines st,
            Forall normalised_speaker (scenes st) ->
            Forall normalised_speaker (scenes (fold_left parse_line lines st)))
    as Hfold.
  { induction lines as [|l lines IH]; intros st Hst; [done|].
    simpl. apply IH. by apply parse_line_normalised. }
  apply (Hfold (splitlines script)). constructor.
Qed.

(** ** Files: no two scratch files of a job share a path *)

Lemma lit_inj a b : lit a = lit b -> a = b.
Proof.
  unfold lit. intros H.
  by rewrite <- (string_of_list_ascii_of_string a),
    <- (string_of_list_ascii_of_string b), H.
Qed.

Lemma to_uint_not_nil n : Nat.to_uint n <> Decimal.Nil.
Proof.
  rewrite <- (DecimalNat.Unsigned.of_to n) at 1.
  rewrite DecimalNat.Unsigned.to_of. unfold Decimal.unorm.
  by destruct (Decimal.nzhead _).
Qed.

Lemma str_of_nat_inj i j : str_of_nat i = str_of_nat j -> i = j.
Proof.
  unfold str_of_nat. intros H%lit_inj.
  apply DecimalNat.Unsigned.to_uint_inj.
  pose proof (NilZero.usu _ (to_uint_not_nil i)) as Hi.
  pose proof (NilZero.usu _ (to_uint_not_nil j)) as Hj.
  rewrite H in Hi. congruence.
Qed.

Lemma path_join_inj a b1 b2 :
  startswith [SLASH] b1 = startswith [SLASH] b2 ->
  path_join a b1 = path_join a b2 -> b1 = b2.
Proof.
  unfold path_join. intros <-.
  destruct (startswith [SLASH] b1); [done|].
  destruct a as [|c a]; [done|].
  destruct (startswith [SLASH] (rev (c :: a))).
  - apply app_inv_head.
  - intros H. apply app_inv_head in H. by injection H.
Qed.

Lemma startswith_common_prefix c (p r1 r2 : str) :
  startswith [SLASH] (p ++ c :: r1) = startswith [SLASH] (p ++ c :: r2).
Proof. by destruct p. Qed.

(** X4.  Within a job, two scratch files have the same path only if they are
    the same kind of file of the same scene. *)
Theorem scene_path_injective (job_id : str) (i j : nat) (s1 s2 : string) :
  In s1 scratch_suffixes -> In s2 scratch_suffixes ->
  scene_path job_id i s1 = scene_path job_id j s2 ->
  i = j /\ s1 = s2.
Proof.
  intros H1 H2 Heq. unfold scene_path in Heq.
  apply path_join_inj in Heq.
  2:{ change (lit "_scene_") with ("_"%char :: lit "scene_").
      apply (startswith_common_prefix "_"%char job_id). }
  apply app_inv_head in Heq. apply app_inv_head in Heq.
  apply (f_equal (@rev ascii)) in Heq. rewrite !rev_app_distr in Heq.
  simpl in H1, H2.
  destruct H1 as [<-|[<-|[<-|[<-|[]]]]];
    destruct H2 as [<-|[<-|[<-|[<-|[]]]]];
    simpl in Heq; try discriminate Heq;
    (split; [|done]);
    apply str_of_nat_inj;
    rewrite <- (rev_involutive (str_of_nat i)),
      <- (rev_involutive (str_of_nat j));
    f_equal; congruence.
Qed.

(** [scene_path_injective] at work on the audio file of scene 3. *)
Lemma scene_path_injective_witness :
  scene_path (lit "J") 3 "_audio.mp3" = scene_path (lit "J") 3 "_audio.mp3"
  /\ (3%nat = 3%nat /\ "_audio.mp3"%string = "_audio.mp3"%string).
Proof.
  split; [reflexivity|].
  apply (scene_path_injective (lit "J") 3 3 "_audio.mp3" "_audio.mp3").
  - simpl. auto.
  - simpl. auto.
  - reflexivity.
Defined.

(** X5.  The preview is never written over the artifact: the two paths
    differ, whatever the title and the job id. *)
Theorem artifact_and_preview_paths_differ (title job_id : str) :
  artifact_path title job_id <> preview_file_path title job_id.
Proof.
  unfold artifact_path, preview_file_path. intros Heq.
  apply path_join_inj in Heq.
  2:{ change (lit "_") with ("_"%char :: @nil ascii).
      apply (startswith_common_prefix "_"%char title). }
  apply app_inv_head in Heq. apply app_inv_head in Heq.
  apply app_inv_head in Heq. discriminate Heq.
Qed.

(** ** The worker, whatever invariant its writes and calls keep *)

Lemma band_progress_range base width i n :
  0 <= width -> (i < n)%nat ->
  base <= band_progress base width i n <= base + width.
Proof.
  intros Hw Hi. rewrite band_progress_bound by done. split.
  - unfold band_bound.
    assert (0 <= width * Z.of_nat (S i) / Z.max 1 (Z.of_nat n));
      [apply Z.div_pos; lia | lia].
  - apply band_bound_top; [done | lia].
Qed.

Section WorkerFrame.

Variable outcome : call -> option str.
Variable path_exists : nat -> str -> bool.
Variable voice_map : gmap ustr str.
Variables (job_id script : str) (images clips : list str).
Variables (title resolution : str) (fps : Z).

Local Abbreviation scs := (parse_script_with_characters script).
Local Abbreviation may_call :=
  (worker_call path_exists job_id script images clips title resolution fps).
Local Abbreviation may_raise :=
  (worker_raise outcome path_exists job_id script images clips title
     resolution fps).
Local Abbreviation audio_of := (fun i => scene_path job_id i "_audio.mp3").
Local Abbreviation final_of := (fun i => scene_path job_id i "_final.mp4").

(** An invariant of worlds that keeps the job in the store and survives
    every call of the worker and every progress write below 100. *)
Variable Inv : world -> Prop.
Hypothesis Inv_present : forall w, Inv w -> is_Some (JOB_STORE w !! job_id).
Hypothesis Inv_call : forall w c,
  may_call c -> Inv w ->
  Inv {| JOB_STORE := JOB_STORE w;
         log := log w ++ [Event (ActCall c) (JOB_STORE w)] |}.
Hypothesis Inv_progress : forall w p,
  0 <= p < 100 -> Inv w -> Inv (commit_write job_id w (SetProgress p)).

Lemma perform_frame c :
  may_call c ->
  triple Inv (perform outcome c) (fun _ => Inv)
    (fun e w => Inv w /\ may_raise e).
Proof.
  intros Hc w Hw. unfold perform.
  destruct (outcome c) as [msg|] eqn:Hout.
  - split; [by apply Inv_call|]. left. by exists c, msg.
  - by apply Inv_call.
Qed.

Lemma perform_then_ret_frame {A} c (a : A) :
  may_call c ->
  triple Inv (bind (perform outcome c) (fun _ => ret a)) (fun _ => Inv)
    (fun e w => Inv w /\ may_raise e).
Proof.
  intros Hc. eapply triple_bind; [by apply perform_frame|]. intros ?.
  apply (triple_ret a (fun _ => Inv)).
Qed.

Lemma set_progress_frame p E :
  0 <= p < 100 ->
  triple Inv (set_field job_id (SetProgress p)) (fun _ => Inv) E.
Proof.
  intros Hp w Hw. destruct (Inv_present w Hw) as [j Hj].
  destruct (set_field_commit job_id (SetProgress p) w j Hj) as [-> _].
  by apply Inv_progress.
Qed.

Lemma synthesize_scene_frame k sc acc :
  scs !! k = Some sc ->
  triple (fun w => Inv w /\ acc = map audio_of (seq 0 k))
    (synthesize_scene outcome voice_map job_id (length scs) k sc acc)
    (fun acc' w => Inv w /\ acc' = map audio_of (seq 0 (S k)))
    (fun e w => Inv w /\ may_raise e).
Proof.
  intros Hk. apply triple_pure. intros ->.
  assert (may_call (CallGtts (text sc) (audio_of k) (lit "en"))) as Hcall
    by (by exists k, sc).
  unfold synthesize_scene, synthesize_character_voice, synthesize_with_gtts.
  eapply triple_bind with (Q := fun _ => Inv).
  { destruct (startswith _ _);
      (eapply triple_bind; [by apply perform_then_ret_frame|]); intros ?;
      apply (triple_ret _ (fun _ => Inv)). }
  intros ?. eapply triple_bind.
  { apply set_progress_frame.
    pose proof (band_progress_range 15 20 k (length scs)) as H.
    apply lookup_lt_Some in Hk. lia. }
  intros ?. intros w Hw. unfold ret. split; [done|].
  by rewrite seq_S, map_app.
Qed.

Lemma render_scene_frame k sc acc :
  scs !! k = Some sc ->
  triple (fun w => Inv w /\ acc = map final_of (seq 0 k))
    (render_scene outcome path_exists job_id images clips resolution fps
       (length scs) (map audio_of (seq 0 (length scs))) k sc acc)
    (fun acc' w => Inv w /\ acc' = map final_of (seq 0 (S k)))
    (fun e w => Inv w /\ may_raise e).
Proof.
  intros Hk. apply triple_pure. intros ->.
  pose proof (lookup_lt_Some _ _ _ Hk) as Hlt.
  unfold render_scene, image_to_video, clip_trim_or_loop,
    mux_video_with_audio.
  eapply triple_bind with (Q := fun _ => Inv).
  { destruct (usable_asset _ _ _) as [asset|] eqn:Hasset.
    - destruct (str_in _ _) eqn:Hext; apply perform_then_ret_frame.
      + exists k, sc. by rewrite Hasset.
      + exists k, sc. by rewrite Hasset.
    - eapply triple_bind.
      { apply perform_frame. by exists k, sc. }
      intros ?. apply perform_then_ret_frame.
      exists k, sc. by rewrite Hasset. }
  intros ?.
  rewrite list_lookup_fmap, lookup_seq_lt by done.
  cbn [fmap option_fmap option_map Nat.add].
  eapply triple_bind.
  { apply perform_then_ret_frame. by exists k. }
  intros ?. eapply triple_bind.
  { apply set_progress_frame.
    pose proof (band_progress_range 40 30 k (length scs)) as H. lia. }
  intros ?. intros w Hw. unfold ret. split; [done|].
  by rewrite seq_S, map_app.
Qed.

Lemma set_field_bind_frame {A} fw (k : unit -> M A) w :
  Inv w ->
  bind (set_field job_id fw) k w = k tt (commit_write job_id w fw).
Proof.
  intros Hw. destruct (Inv_present w Hw) as [j Hj].
  by apply (set_field_bind job_id fw k w j).
Qed.

(** The [try] block: it ends with the four closing writes after a state
    that satisfies the invariant, or it raises in such a state. *)
Lemma worker_try_frame :
  triple Inv
    (worker_try outcome path_exists voice_map job_id script images clips
       title resolution fps)
    (fun _ w =>
       exists w1,
         Inv w1 /\ scs <> []
         /\ w = commit_writes job_id
                  [SetPreview (preview_file_path title job_id);
                   SetFile (artifact_path title job_id);
                   SetProgress 100; SetStatus Done] w1)
    (fun e w => Inv w /\ may_raise e).
Proof.
  unfold worker_try.
  eapply triple_bind; [by apply set_progress_frame|]. intros ?.
  eapply triple_bind; [by apply set_progress_frame|]. intros ?.
  eapply triple_bind.
  { eapply triple_weaken;
      [| | | apply (triple_for_enumerate _
                      (fun k acc w => Inv w /\ acc = map audio_of (seq 0 k)))].
    - intros w Hw. by split.
    - intros audio w Hw. exact Hw.
    - intros e w H. exact H.
    - intros k sc acc Hk. by apply synthesize_scene_frame. }
  intros audio. apply triple_pure. intros ->.
  eapply triple_bind; [by apply set_progress_frame|]. intros ?.
  eapply triple_bind.
  { eapply triple_weaken;
      [| | | apply (triple_for_enumerate _
                      (fun k acc w => Inv w /\ acc = map final_of (seq 0 k)))].
    - intros w Hw. by split.
    - intros videos w Hw. exact Hw.
    - intros e w H. exact H.
    - intros k sc acc Hk. by apply render_scene_frame. }
  intros videos. apply triple_pure. intros ->.
  eapply triple_bind; [by apply set_progress_frame|]. intros ?.
  destruct scs as [|sc0 rest] eqn:Hscs.
  { simpl. intros w Hw. unfold bind, concat_videos, raise.
    split; [done|]. right. by rewrite Hscs. }
  eapply triple_bind with (Q := fun _ => Inv).
  { apply perform_then_ret_frame. simpl. rewrite Hscs. by split_and!. }
  intros ?.
  eapply triple_bind; [by apply set_progress_frame|]. intros ?.
  eapply triple_bind.
  { apply perform_then_ret_frame. by split_and!. }
  intros ?. intros w Hw.
  rewrite (set_field_bind_frame _ _ _ Hw).
  destruct (Inv_present w Hw) as [j Hj].
  pose proof (commit_write_lookup job_id
                (SetPreview (preview_file_path title job_id)) _ _ Hj) as Hj1.
  rewrite (set_field_bind _ _ _ _ _ Hj1).
  pose proof (commit_write_lookup job_id
                (SetFile (artifact_path title job_id)) _ _ Hj1) as Hj2.
  rewrite (set_field_bind _ _ _ _ _ Hj2).
  pose proof (commit_write_lookup job_id (SetProgress 100) _ _ Hj2) as Hj3.
  destruct (set_field_commit job_id (SetStatus Done) _ _ Hj3) as [-> _].
  exists w. by split_and!.
Qed.

(** The worker in one piece, for a job that the invariant holds of. *)
Lemma worker_frame w :
  Inv w ->
  exists w1,
    Inv w1
    /\ ((scs <> []
         /\ worker_render_movie outcome path_exists voice_map job_id script
              images clips title resolution fps w
            = (Return tt,
               commit_writes job_id
                 [SetPreview (preview_file_path title job_id);
                  SetFile (artifact_path title job_id);
                  SetProgress 100; SetStatus Done] w1))
        \/ (exists e,
              may_raise e
              /\ worker_render_movie outcome path_exists voice_map job_id
                   script images clips title resolution fps w
                 = (Return tt,
                    commit_writes job_id
                      [SetStatus Error; SetError (str_of_exn e);
                       SetProgress 0] w1))).
Proof.
  intros Hw. unfold worker_render_movie.
  rewrite (set_field_bind_frame _ _ _ Hw). unfold try_except.
  assert (Inv (commit_write job_id w (SetProgress 5))) as H5
    by (by apply Inv_progress).
  pose proof (worker_try_frame _ H5) as Htry.
  destruct (worker_try _ _ _ _ _ _ _ _ _ _ _) as [[[]|e] w1].
  - destruct Htry as (w2 & Hw2 & Hne & ->). exists w2. split; [done|].
    by left.
  - destruct Htry as [Hw1 He]. exists w1. split; [done|]. right.
    exists e. split; [done|].
    destruct (Inv_present w1 Hw1) as [j1 Hj1].
    by destruct (worker_except_commit job_id e w1 j1 Hj1) as [-> _].
Qed.

End WorkerFrame.

(** ** The log and the store after a series of writes *)

Lemma commit_writes_spec job_id fws w :
  is_Some (JOB_STORE w !! job_id) ->
  exists evs,
    log (commit_writes job_id fws w) = log w ++ evs
    /\ map act evs = map (ActSet job_id) fws
    /\ is_Some (JOB_STORE (commit_writes job_id fws w) !! job_id)
    /\ (forall other, other <> job_id ->
          JOB_STORE (commit_writes job_id fws w) !! other
          = JOB_STORE w !! other)
    /\ Forall (fun e => forall other, other <> job_id ->
                 visible e !! other = JOB_STORE w !! other) evs.
Proof.
  revert w. induction fws as [|fw fws IH]; intros w [j Hj].
  { exists []. rewrite app_nil_r. split_and!; try done; eauto. }
  rewrite (commit_writes_cons job_id w fw fws j Hj).
  destruct (IH {| JOB_STORE := <[job_id:=apply_write fw j]> (JOB_STORE w);
                  log := log w
                         ++ [Event (ActSet job_id fw)
                               (<[job_id:=apply_write fw j]> (JOB_STORE w))]
               |}) as (evs & Hlog & Hact & Hpres & Hother & Hall).
  { simpl. rewrite lookup_insert_eq. eauto. }
  simpl in *.
  exists (Event (ActSet job_id fw)
            (<[job_id:=apply_write fw j]> (JOB_STORE w)) :: evs).
  split_and!.
  - by rewrite Hlog, <- app_assoc.
  - simpl. by rewrite Hact.
  - done.
  - intros other Hne. rewrite Hother by done. by rewrite lookup_insert_ne.
  - constructor.
    + intros other Hne. simpl. by rewrite lookup_insert_ne.
    + eapply Forall_impl; [exact Hall|]. simpl. intros e He other Hne.
      rewrite He by done. by rewrite lookup_insert_ne.
Qed.

Lemma commit_write_as_writes job_id w fw :
  commit_write job_id w fw = commit_writes job_id [fw] w.
Proof. done. Qed.

(** ** The calls of a worker *)

Section WorkerCallsShaped.

Variable outcome : call -> option str.
Variable path_exists : nat -> str -> bool.
Variable voice_map : gmap ustr str.
Variables (job_id script : str) (images clips : list str).
Variables (title resolution : str) (fps : Z).

Local Abbreviation may_add :=
  (worker_event path_exists job_id script images clips title resolution fps).

Lemma writes_are_worker_events (evs : list event) fws :
  map act evs = map (ActSet job_id) fws -> Forall may_add evs.
Proof.
  revert fws. induction evs as [|e evs IH]; intros fws Hact; [done|].
  destruct fws as [|fw fws]; [done|]. simpl in Hact.
  injection Hact as He Hrest. constructor; [|by eapply IH].
  unfold worker_event. by rewrite He.
Qed.

Lemma worker_events_shaped w :
  is_Some (JOB_STORE w !! job_id) ->
  exists evs,
    log (worker_render_movie outcome path_exists voice_map job_id script
           images clips title resolution fps w).2
    = log w ++ evs
    /\ Forall may_add evs.
Proof.
  intros Hpresent.
  destruct (worker_frame outcome path_exists voice_map job_id script images
              clips title resolution fps
              (fun w' =>
                 is_Some (JOB_STORE w' !! job_id)
                 /\ exists evs, log w' = log w ++ evs /\ Forall may_add evs))
    with (w := w) as (w1 & [Hp1 (evs1 & Hlog1 & Hall1)] & Hend).
  - by intros w' [H _].
  - intros w' c Hc [Hp (evs & Hlog & Hall)]. simpl. split; [done|].
    exists (evs ++ [Event (ActCall c) (JOB_STORE w')]).
    rewrite Hlog, <- app_assoc. split; [done|].
    apply Forall_app. split; [done|]. by constructor.
  - intros w' p Hp [Hpres (evs & Hlog & Hall)].
    rewrite commit_write_as_writes.
    destruct (commit_writes_spec job_id [SetProgress p] w' Hpres)
      as (evs' & Hlog' & Hact & Hpres' & _).
    split; [done|]. exists (evs ++ evs').
    rewrite Hlog', Hlog, <- app_assoc. split; [done|].
    apply Forall_app. split; [done|].
    by apply (writes_are_worker_events evs' [SetProgress p]).
  - split; [done|]. exists []. by rewrite app_nil_r.
  - assert (forall fws,
              exists evs,
                log (commit_writes job_id fws w1) = log w ++ evs
                /\ Forall may_add evs) as Htail.
    { intros fws.
      destruct (commit_writes_spec job_id fws w1 Hp1)
        as (evs' & Hlog' & Hact & _).
      exists (evs1 ++ evs'). rewrite Hlog', Hlog1, <- app_assoc.
      split; [done|]. apply Forall_app. split; [done|].
      by apply (writes_are_worker_events evs' fws). }
    destruct Hend as [[_ ->]|(e & _ & ->)]; apply Htail.
Qed.

End WorkerCallsShaped.

Section WorkerCallTheorems.

Variable outcome : call -> option str.
Variable path_exists : nat -> str -> bool.
Variable voice_map : gmap ustr str.
Variables (job_id script : str) (images clips : list str).
Variables (title resolution : str) (fps : Z).

Local Abbreviation worker :=
  (worker_render_movie outcome path_exists voice_map job_id script images
     clips title resolution fps).
Local Abbreviation scs := (parse_script_with_characters script).

(** X6.  Every voice call of a worker speaks the text of one scene of the
    script, in English, into that scene's audio file; every mux call
    joins the video file and the audio file of one and the same scene
    into that scene's final clip. *)
Theorem worker_voice_and_mux_calls (w : world) :
  is_Some (JOB_STORE w !! job_id) ->
  exists evs,
    log (worker w).2 = log w ++ evs
    /\ Forall
         (fun e =>
            match act e with
            | ActCall (CallGtts txt out_path lang) =>
                exists i sc,
                  scs !! i = Some sc /\ txt = text sc
                  /\ out_path = scene_path job_id i "_audio.mp3"
                  /\ lang = lit "en"
            | ActCall (CallMux video_in audio_in out_path) =>
                exists i,
                  (i < length scs)%nat
                  /\ video_in = scene_path job_id i "_video.mp4"
                  /\ audio_in = scene_path job_id i "_audio.mp3"
                  /\ out_path = scene_path job_id i "_final.mp4"
            | _ => True
            end) evs.
Proof.
  intros Hp.
  destruct (worker_events_shaped outcome path_exists voice_map job_id script
              images clips title resolution fps w Hp) as (evs & Hlog & Hall).
  exists evs. split; [done|].
  eapply Forall_impl; [exact Hall|]. intros e He.
  unfold worker_event in He. destruct (act e) as [| |c|]; try done.
  by destruct c.
Qed.

(** X7.  Every rendering call of a worker is for one scene of the script: it
    writes that scene's video file, for the scene's duration, at the
    job's resolution and frame rate.  A clip is trimmed or looped only
    when it is the usable asset selected for the scene and has a video
    extension; an image is held only when it is the usable asset selected
    for the scene and has no video extension, or is the scene's text
    slide; and a text slide is drawn, from the first 200 characters of
    the scene's text, only when the scene has no usable asset. *)
Theorem worker_rendering_calls (w : world) :
  is_Some (JOB_STORE w !! job_id) ->
  exists evs,
    log (worker w).2 = log w ++ evs
    /\ Forall
         (fun e =>
            match act e with
            | ActCall (CallTextSlide txt tmp_img res) =>
                exists i sc,
                  scs !! i = Some sc
                  /\ usable_asset path_exists i
                       (select_asset i images clips) = None
                  /\ txt = take 200 (text sc)
                  /\ tmp_img = scene_path job_id i "_img.png"
                  /\ res = resolution
            | ActCall (CallImageToVideo image_path out_video d res f) =>
                exists i sc,
                  scs !! i = Some sc
                  /\ out_video = scene_path job_id i "_video.mp4"
                  /\ d = scene_duration (text sc)
                  /\ res = resolution /\ f = fps
                  /\ match usable_asset path_exists i
                             (select_asset i images clips) with
                     | Some asset =>
                         image_path = asset
                         /\ str_in (lower (splitext_ext asset)) VIDEO_EXTS
                            = false
                     | None => image_path = scene_path job_id i "_img.png"
                     end
            | ActCall (CallClipTrimOrLoop input_clip out_clip d res f) =>
                exists i sc,
                  scs !! i = Some sc
                  /\ out_clip = scene_path job_id i "_video.mp4"
                  /\ d = scene_duration (text sc)
                  /\ res = resolution /\ f = fps
                  /\ usable_asset path_exists i
                       (select_asset i images clips) = Some input_clip
                  /\ str_in (lower (splitext_ext input_clip)) VIDEO_EXTS
                     = true
            | _ => True
            end) evs.
Proof.
  intros Hp.
  destruct (worker_events_shaped outcome path_exists voice_map job_id script
              images clips title resolution fps w Hp) as (evs & Hlog & Hall).
  exists evs. split; [done|].
  eapply Forall_impl; [exact Hall|]. intros e He.
  unfold worker_event in He. destruct (act e) as [| |c|]; try done.
  by destruct c.
Qed.

(** X8.  A worker concatenates exactly the final clips of all the scenes, in
    scene order, into the artifact, and only for a script with a scene;
    its preview call makes the 15-second 640x360 preview of the artifact
    at the preview path.  It writes to no job record but its own, and it
    never creates a directory, saves an upload, stores a record or
    creates a task. *)
Theorem worker_assembly_calls (w : world) :
  is_Some (JOB_STORE w !! job_id) ->
  exists evs,
    log (worker w).2 = log w ++ evs
    /\ Forall
         (fun e =>
            match act e with
            | ActCall (CallConcat video_list out_path) =>
                video_list
                = map (fun i => scene_path job_id i "_final.mp4")
                    (seq 0 (length scs))
                /\ scs <> [] /\ out_path = artifact_path title job_id
            | ActCall (CallPreview full_video_path preview_path secs res) =>
                full_video_path = artifact_path title job_id
                /\ preview_path = preview_file_path title job_id
                /\ secs = 15 /\ res = lit "640x360"
            | ActCall (CallMakedirs _) | ActCall (CallSaveUpload _)
            | ActStore _ _ | ActCreateTask _ => False
            | ActSet id _ => id = job_id
            | ActCall _ => True
            end) evs.
Proof.
  intros Hp.
  destruct (worker_events_shaped outcome path_exists voice_map job_id script
              images clips title resolution fps w Hp) as (evs & Hlog & Hall).
  exists evs. split; [done|].
  eapply Forall_impl; [exact Hall|]. intros e He.
  unfold worker_event in He. destruct (act e) as [| |c|]; try done.
  by destruct c.
Qed.

End WorkerCallTheorems.

Lemma demo_job_present : is_Some (JOB_STORE demo_world !! lit "J").
Proof. exists demo_job. vm_compute. reflexivity. Qed.

(** [worker_voice_and_mux_calls] at work on a one-scene job. *)
Lemma worker_voice_and_mux_calls_witness :
  is_Some (JOB_STORE demo_world !! lit "J")
  /\ exists evs,
       log (worker_render_movie all_return always_exists CHAR_VOICE_MAP
              (lit "J") (lit "A: x") [] [] (lit "movie") (lit "1920x1080")
              24 demo_world).2
       = log demo_world ++ evs.
Proof.
  split; [exact demo_job_present|].
  destruct (worker_voice_and_mux_calls all_return always_exists
              CHAR_VOICE_MAP (lit "J") (lit "A: x") [] [] (lit "movie")
              (lit "1920x1080") 24 demo_world demo_job_present)
    as (evs & Hlog & _).
  by exists evs.
Defined.

(** [worker_rendering_calls] at work on a one-scene job. *)
Lemma worker_rendering_calls_witness :
  is_Some (JOB_STORE demo_world !! lit "J")
  /\ exists evs,
       log (worker_render_movie all_return always_exists CHAR_VOICE_MAP
              (lit "J") (lit "A: x") [] [] (lit "movie") (lit "1920x1080")
              24 demo_world).2
       = log demo_world ++ evs.
Proof.
  split; [exact demo_job_present|].
  destruct (worker_rendering_calls all_return always_exists
              CHAR_VOICE_MAP (lit "J") (lit "A: x") [] [] (lit "movie")
              (lit "1920x1080") 24 demo_world demo_job_present)
    as (evs & Hlog & _).
  by exists evs.
Defined.

(** [worker_assembly_calls] at work on a one-scene job. *)
Lemma worker_assembly_calls_witness :
  is_Some (JOB_STORE demo_world !! lit "J")
  /\ exists evs,
       log (worker_render_movie all_return always_exists CHAR_VOICE_MAP
              (lit "J") (lit "A: x") [] [] (lit "movie") (lit "1920x1080")
              24 demo_world).2
       = log demo_world ++ evs.
Proof.
  split; [exact demo_job_present|].
  destruct (worker_assembly_calls all_return always_exists
              CHAR_VOICE_MAP (lit "J") (lit "A: x") [] [] (lit "movie")
              (lit "1920x1080") 24 demo_world demo_job_present)
    as (evs & Hlog & _).
  by exists evs.
Defined.

(** ** What every snapshot of a worker satisfies *)

Section WorkerViews.

Variable outcome : call -> option str.
Variable path_exists : nat -> str -> bool.
Variable voice_map : gmap ustr str.
Variables (job_id script : str) (images clips : list str).
Variables (title resolution : str) (fps : Z).

Local Abbreviation worker :=
  (worker_render_movie outcome path_exists voice_map job_id script images
     clips title resolution fps).

(** A property of stores that holds the job and survives every write a
    worker makes to the job's record. *)
Variable View : gmap str job -> Prop.
Hypothesis View_present : forall st, View st -> is_Some (st !! job_id).
Hypothesis View_write : forall st j fw,
  worker_write fw -> View st -> st !! job_id = Some j ->
  View (<[job_id := apply_write fw j]> st).

Lemma commit_writes_view fws w :
  Forall worker_write fws -> View (JOB_STORE w) ->
  exists evs,
    log (commit_writes job_id fws w) = log w ++ evs
    /\ Forall (fun e => View (visible e)) evs
    /\ View (JOB_STORE (commit_writes job_id fws w)).
Proof.
  revert w. induction fws as [|fw fws IH]; intros w Hfws Hw.
  { exists []. by rewrite app_nil_r. }
  inversion Hfws as [|? ? Hfw Hrest]; subst.
  destruct (View_present _ Hw) as [j Hj].
  rewrite (commit_writes_cons job_id w fw fws j Hj).
  pose proof (View_write _ j fw Hfw Hw Hj) as Hw'.
  destruct (IH {| JOB_STORE := <[job_id:=apply_write fw j]> (JOB_STORE w);
                  log := log w
                         ++ [Event (ActSet job_id fw)
                               (<[job_id:=apply_write fw j]> (JOB_STORE w))]
               |} Hrest Hw') as (evs & Hlog & Hall & Hend).
  simpl in Hlog.
  eexists (_ :: evs). rewrite Hlog, <- app_assoc. split; [done|].
  split; [|done]. by constructor.
Qed.

Lemma worker_keeps_view w :
  View (JOB_STORE w) ->
  exists evs,
    log (worker w).2 = log w ++ evs
    /\ Forall (fun e => View (visible e)) evs
    /\ View (JOB_STORE (worker w).2).
Proof.
  intros Hw.
  destruct (worker_frame outcome path_exists voice_map job_id script images
              clips title resolution fps
              (fun w' =>
                 View (JOB_STORE w')
                 /\ exists evs,
                      log w' = log w ++ evs
                      /\ Forall (fun e => View (visible e)) evs))
    with (w := w) as (w1 & [Hv1 (evs1 & Hlog1 & Hall1)] & Hend).
  - intros w' [H _]. by apply View_present.
  - intros w' c Hc [Hv (evs & Hlog & Hall)]. simpl. split; [done|].
    exists (evs ++ [Event (ActCall c) (JOB_STORE w')]).
    rewrite Hlog, <- app_assoc. split; [done|].
    apply Forall_app. split; [done|]. by constructor.
  - intros w' p Hp [Hv (evs & Hlog & Hall)].
    rewrite commit_write_as_writes.
    destruct (commit_writes_view [SetProgress p] w') as (evs' & Hlog' & Hall' & Hv').
    { constructor; [simpl; lia|done]. }
    { done. }
    split; [done|]. exists (evs ++ evs').
    rewrite Hlog', Hlog, <- app_assoc. split; [done|].
    by apply Forall_app.
  - split; [done|]. exists []. by rewrite app_nil_r.
  - assert (forall fws,
              Forall worker_write fws ->
              exists evs,
                log (commit_writes job_id fws w1) = log w ++ evs
                /\ Forall (fun e => View (visible e)) evs
                /\ View (JOB_STORE (commit_writes job_id fws w1))) as Htail.
    { intros fws Hfws.
      destruct (commit_writes_view fws w1 Hfws Hv1)
        as (evs' & Hlog' & Hall' & Hv').
      exists (evs1 ++ evs'). rewrite Hlog', Hlog1, <- app_assoc.
      split; [done|]. split; [by apply Forall_app|done]. }
    destruct Hend as [[_ ->]|(e & _ & ->)]; apply Htail.
    + repeat (apply List.Forall_cons; [simpl; first [lia | auto]|]).
      apply List.Forall_nil.
    + repeat (apply List.Forall_cons; [simpl; first [lia | auto]|]).
      apply List.Forall_nil.
Qed.

End WorkerViews.

(** ** How a worker leaves its job *)

Lemma status_writes_app job_id a b :
  status_writes job_id (a ++ b)
  = status_writes job_id a ++ status_writes job_id b.
Proof. unfold status_writes. apply flat_map_app. Qed.

Section WorkerOutcome.

Variable outcome : call -> option str.
Variable path_exists : nat -> str -> bool.
Variable voice_map : gmap ustr str.
Variables (job_id script : str) (images clips : list str).
Variables (title resolution : str) (fps : Z).

Local Abbreviation worker :=
  (worker_render_movie outcome path_exists voice_map job_id script images
     clips title resolution fps).
Local Abbreviation scs := (parse_script_with_characters script).
Local Abbreviation may_raise :=
  (worker_raise outcome path_exists job_id script images clips title
     resolution fps).

Lemma worker_outcome w j :
  JOB_STORE w !! job_id = Some j ->
  exists evs,
    (worker w).1 = Return tt
    /\ log (worker w).2 = log w ++ evs
    /\ ((scs <> []
         /\ JOB_STORE (worker w).2 !! job_id
            = Some (done_record title job_id j)
         /\ status_writes job_id (map act evs) = [Done])
        \/ (exists e,
              may_raise e
              /\ JOB_STORE (worker w).2 !! job_id = Some (error_record e j)
              /\ status_writes job_id (map act evs) = [Error])).
Proof.
  intros Hj.
  destruct (worker_frame outcome path_exists voice_map job_id script images
              clips title resolution fps
              (fun w' =>
                 (exists j',
                     JOB_STORE w' !! job_id = Some j'
                     /\ file j' = file j /\ preview j' = preview j
                     /\ error j' = error j)
                 /\ exists evs,
                      log w' = log w ++ evs
                      /\ status_writes job_id (map act evs) = []))
    with (w := w)
    as (w1 & [(j1 & Hj1 & Hf & Hp & He) (evs1 & Hlog1 & Hst1)] & Hend).
  - intros w' [(j' & Hj' & _) _]. eauto.
  - intros w' c Hc [Hrec (evs & Hlog & Hst)]. simpl. split; [done|].
    exists (evs ++ [Event (ActCall c) (JOB_STORE w')]).
    rewrite Hlog, <- app_assoc. split; [done|].
    by rewrite map_app, status_writes_app, Hst.
  - intros w' p Hp [(j' & Hj' & Hf & Hpv & He) (evs & Hlog & Hst)].
    rewrite (commit_write_eq job_id w' _ j' Hj'). simpl. split.
    + eexists. rewrite lookup_insert_eq. split; [done|]. done.
    + eexists (evs ++ [_]). rewrite Hlog, <- app_assoc. split; [done|].
      by rewrite map_app, status_writes_app, Hst.
  - split; [by exists j|]. exists []. by rewrite app_nil_r.
  - destruct Hend as [[Hne Hrun]|(e & Hraise & Hrun)]; rewrite Hrun;
      cbn [fst snd].
    + rewrite (commit_writes_cons job_id w1 _ _ j1 Hj1).
      erewrite commit_writes_cons by (simpl; apply lookup_insert_eq).
      erewrite commit_writes_cons by (simpl; apply lookup_insert_eq).
      erewrite commit_writes_cons by (simpl; apply lookup_insert_eq).
      unfold commit_writes. simpl. rewrite Hlog1, <- !app_assoc.
      eexists. split; [done|]. split; [done|]. left.
      split; [done|]. split.
      * rewrite lookup_insert_eq. unfold done_record. simpl.
        by rewrite He.
      * rewrite map_app, status_writes_app, Hst1. simpl.
        by rewrite bool_decide_eq_true_2.
    + rewrite (commit_writes_cons job_id w1 _ _ j1 Hj1).
      erewrite commit_writes_cons by (simpl; apply lookup_insert_eq).
      erewrite commit_writes_cons by (simpl; apply lookup_insert_eq).
      unfold commit_writes. simpl. rewrite Hlog1, <- !app_assoc.
      eexists. split; [done|]. split; [done|]. right. exists e.
      split; [done|]. split.
      * rewrite lookup_insert_eq. unfold error_record. simpl.
        by rewrite Hf, Hp.
      * rewrite map_app, status_writes_app, Hst1. simpl.
        by rewrite bool_decide_eq_true_2.
Qed.

(** X10.  For a job in the store the worker always returns, and it
    leaves the job in one of two records.  Either the script has a scene
    and the job is done, with progress 100 and the artifact and preview
    paths; or the [try] block raised [e] (one of the worker's calls
    raised it, or the script has no scene and [concat_videos] raised) and
    the job has status error, progress 0 and [str(e)] as its message,
    its file and preview left as they were. *)
Theorem worker_final_record (w : world) (j : job) :
  JOB_STORE w !! job_id = Some j ->
  (worker w).1 = Return tt
  /\ ((scs <> []
       /\ JOB_STORE (worker w).2 !! job_id
          = Some {| status := Done; progress := 100;
                    file := Some (artifact_path title job_id);
                    preview := Some (preview_file_path title job_id);
                    error := error j |})
      \/ (exists e,
            ((exists c msg,
                 worker_call path_exists job_id script images clips title
                   resolution fps c
                 /\ outcome c = Some msg /\ e = StageError msg)
             \/ (scs = [] /\ e = ValueError (lit "No videos to concat")))
            /\ JOB_STORE (worker w).2 !! job_id
               = Some {| status := Error; progress := 0; file := file j;
                         preview := preview j;
                         error := Some (str_of_exn e) |})).
Proof.
  intros Hj. destruct (worker_outcome w j Hj) as (evs & Hret & _ & Hend).
  split; [exact Hret|].
  destruct Hend as [(Hne & Hrec & _)|(e & He & Hrec & _)].
  - by left.
  - right. by exists e.
Qed.

(** X11.  When every call returns, the worker leaves the job done if the
    script has a line that is not blank, and failed, with the message of
    [concat_videos], if all its lines are blank. *)
Theorem worker_done_iff_script_not_blank (w : world) (j : job) :
  JOB_STORE w !! job_id = Some j ->
  (forall c, outcome c = None) ->
  (Exists (fun l => blank l = false) (splitlines script) ->
   JOB_STORE (worker w).2 !! job_id = Some (done_record title job_id j))
  /\ (Forall (fun l => blank l = true) (splitlines script) ->
      JOB_STORE (worker w).2 !! job_id
      = Some (error_record (ValueError (lit "No videos to concat")) j)).
Proof.
  intros Hj Hret. destruct (worker_outcome w j Hj) as (evs & _ & _ & Hend).
  pose proof (parse_nil_iff script) as Hnil.
  destruct Hend as [(Hne & Hrec & _)|(e & He & Hrec & _)].
  - split; [done|]. intros Hall. by apply Hnil in Hall.
  - destruct He as [(c & msg & _ & Hout & _)|[Hscs ->]].
    { rewrite Hret in Hout. discriminate Hout. }
    split; [|done]. intros Hex. exfalso.
    apply Hnil in Hscs. apply Exists_exists in Hex as (l & Hin & Hl).
    rewrite Forall_forall in Hscs. specialize (Hscs l Hin). congruence.
Qed.

End WorkerOutcome.

Section WorkerSnapshots.

Variable outcome : call -> option str.
Variable path_exists : nat -> str -> bool.
Variable voice_map : gmap ustr str.
Variables (job_id script : str) (images clips : list str).
Variables (title resolution : str) (fps : Z).

Local Abbreviation worker :=
  (worker_render_movie outcome path_exists voice_map job_id script images
     clips title resolution fps).

(** X12.  A worker changes no record but its own job's: throughout its run
    and at its end, every other job id maps to what it mapped to before,
    and the worker's own job stays in the store. *)
Theorem worker_leaves_other_jobs (w : world) :
  is_Some (JOB_STORE w !! job_id) ->
  exists evs,
    log (worker w).2 = log w ++ evs
    /\ Forall (fun e =>
                 is_Some (visible e !! job_id)
                 /\ forall other, other <> job_id ->
                      visible e !! other = JOB_STORE w !! other) evs
    /\ is_Some (JOB_STORE (worker w).2 !! job_id)
    /\ forall other, other <> job_id ->
         JOB_STORE (worker w).2 !! other = JOB_STORE w !! other.
Proof.
  intros Hp.
  destruct (worker_keeps_view outcome path_exists voice_map job_id script
              images clips title resolution fps
              (fun st =>
                 is_Some (st !! job_id)
                 /\ forall other, other <> job_id ->
                      st !! other = JOB_STORE w !! other))
    with (w := w) as (evs & Hlog & Hall & Hpres & Hother).
  - by intros st [H _].
  - intros st j fw _ [_ Hst] Hj. split.
    + rewrite lookup_insert_eq. eauto.
    + intros other Hne. rewrite lookup_insert_ne by done. by apply Hst.
  - done.
  - by exists evs.
Qed.

(** X13.  If the progress of a job is within 0..100 when its worker starts,
    it is within 0..100 in every state of the store the run goes through
    and at the end. *)
Theorem worker_progress_in_range (w : world) (j : job) :
  JOB_STORE w !! job_id = Some j -> 0 <= progress j <= 100 ->
  exists evs,
    log (worker w).2 = log w ++ evs
    /\ Forall (fun e =>
                 exists j', visible e !! job_id = Some j'
                            /\ 0 <= progress j' <= 100) evs
    /\ exists j', JOB_STORE (worker w).2 !! job_id = Some j'
                  /\ 0 <= progress j' <= 100.
Proof.
  intros Hj Hrange.
  apply (worker_keeps_view outcome path_exists voice_map job_id script
           images clips title resolution fps
           (fun st => exists j', st !! job_id = Some j'
                                 /\ 0 <= progress j' <= 100)).
  - intros st (j' & Hj' & _). eauto.
  - intros st j0 fw Hfw (j' & Hj' & Hr) Hj0.
    rewrite Hj' in Hj0. injection Hj0 as <-.
    eexists. rewrite lookup_insert_eq. split; [done|].
    destruct fw; simpl in *; lia.
  - by exists j.
Qed.

(** X14.  For a job id that is not in the store, the worker raises the
    [KeyError] of its first write, which stands before the [try] block:
    the exception escapes, and neither the store nor the log changes. *)
Theorem worker_unknown_job_raises (w : world) :
  JOB_STORE w !! job_id = None ->
  worker w = (Raise (KeyError job_id), w).
Proof.
  intros Hj. unfold worker_render_movie, bind, set_field. by rewrite Hj.
Qed.

End WorkerSnapshots.

(** [worker_final_record] at work: muxing raises in a one-scene job. *)
Lemma worker_final_record_witness :
  JOB_STORE demo_world !! lit "J" = Some demo_job
  /\ (worker_render_movie mux_raises always_exists CHAR_VOICE_MAP
        (lit "J") (lit "A: x") [] [] (lit "movie") (lit "1920x1080") 24
        demo_world).1 = Return tt
  /\ exists j',
       JOB_STORE
         (worker_render_movie mux_raises always_exists CHAR_VOICE_MAP
            (lit "J") (lit "A: x") [] [] (lit "movie") (lit "1920x1080") 24
            demo_world).2 !! lit "J" = Some j'.
Proof.
  assert (JOB_STORE demo_world !! lit "J" = Some demo_job) as Hj
    by (vm_compute; reflexivity).
  split; [exact Hj|].
  destruct (worker_final_record mux_raises always_exists CHAR_VOICE_MAP
              (lit "J") (lit "A: x") [] [] (lit "movie") (lit "1920x1080")
              24 demo_world demo_job Hj)
    as [Hret [[_ H]|(e & _ & H)]]; eauto.
Defined.

(** [worker_done_iff_script_not_blank] at work on a one-scene job. *)
Lemma worker_done_iff_script_not_blank_witness :
  JOB_STORE demo_world !! lit "J" = Some demo_job
  /\ (forall c, all_return c = None)
  /\ JOB_STORE
       (worker_render_movie all_return always_exists CHAR_VOICE_MAP
          (lit "J") (lit "A: x") [] [] (lit "movie") (lit "1920x1080") 24
          demo_world).2 !! lit "J"
     = Some (done_record (lit "movie") (lit "J") demo_job).
Proof.
  assert (JOB_STORE demo_world !! lit "J" = Some demo_job) as Hj
    by (vm_compute; reflexivity).
  assert (forall c, all_return c = None) as Hret by reflexivity.
  split; [exact Hj|]. split; [exact Hret|].
  apply (worker_done_iff_script_not_blank all_return always_exists
           CHAR_VOICE_MAP (lit "J") (lit "A: x") [] [] (lit "movie")
           (lit "1920x1080") 24 demo_world demo_job Hj Hret).
  apply Exists_exists. exists (lit "A: x"). split; [|reflexivity].
  vm_compute. by left.
Defined.

(** [worker_leaves_other_jobs] at work on [demo_world]. *)
Lemma worker_leaves_other_jobs_witness :
  is_Some (JOB_STORE demo_world !! lit "J")
  /\ forall other, other <> lit "J" ->
       JOB_STORE
         (worker_render_movie all_return always_exists CHAR_VOICE_MAP
            (lit "J") (lit "A: x") [] [] (lit "movie") (lit "1920x1080") 24
            demo_world).2 !! other
       = JOB_STORE demo_world !! other.
Proof.
  split; [exact demo_job_present|].
  destruct (worker_leaves_other_jobs all_return always_exists
              CHAR_VOICE_MAP (lit "J") (lit "A: x") [] [] (lit "movie")
              (lit "1920x1080") 24 demo_world demo_job_present)
    as (evs & _ & _ & _ & H).
  exact H.
Defined.

(** [worker_progress_in_range] at work on [demo_world]. *)
Lemma worker_progress_in_range_witness :
  JOB_STORE demo_world !! lit "J" = Some demo_job
  /\ 0 <= progress demo_job <= 100
  /\ exists j',
       JOB_STORE
         (worker_render_movie all_return always_exists CHAR_VOICE_MAP
            (lit "J") (lit "A: x") [] [] (lit "movie") (lit "1920x1080") 24
            demo_world).2 !! lit "J" = Some j'
       /\ 0 <= progress j' <= 100.
Proof.
  assert (JOB_STORE demo_world !! lit "J" = Some demo_job) as Hj
    by (vm_compute; reflexivity).
  assert (0 <= progress demo_job <= 100) as Hr by (simpl; lia).
  split; [exact Hj|]. split; [exact Hr|].
  destruct (worker_progress_in_range all_return always_exists
              CHAR_VOICE_MAP (lit "J") (lit "A: x") [] [] (lit "movie")
              (lit "1920x1080") 24 demo_world demo_job Hj Hr)
    as (evs & _ & _ & H).
  exact H.
Defined.

(** [worker_unknown_job_raises] at work on the empty store. *)
Lemma worker_unknown_job_raises_witness :
  JOB_STORE empty_world !! lit "J" = None
  /\ worker_render_movie all_return always_exists CHAR_VOICE_MAP (lit "J")
       (lit "A: x") [] [] (lit "movie") (lit "1920x1080") 24 empty_world
     = (Raise (KeyError (lit "J")), empty_world).
Proof.
  assert (JOB_STORE empty_world !! lit "J" = None) as Hj by reflexivity.
  split; [exact Hj|].
  exact (worker_unknown_job_raises all_return always_exists CHAR_VOICE_MAP
           (lit "J") (lit "A: x") [] [] (lit "movie") (lit "1920x1080") 24
           empty_world Hj).
Defined.

(** ** Submission *)

Lemma with_calls_nil w : with_calls [] w = w.
Proof. unfold with_calls. simpl. rewrite app_nil_r. by destruct w. Qed.

Lemma with_calls_app cs1 cs2 w :
  with_calls cs2 (with_calls cs1 w) = with_calls (cs1 ++ cs2) w.
Proof. unfold with_calls. simpl. by rewrite map_app, app_assoc. Qed.

Lemma perform_with_calls outcome c w :
  perform outcome c w
  = (match outcome c with
     | None => Return tt
     | Some msg => Raise (StageError msg)
     end, with_calls [c] w).
Proof. unfold perform, with_calls. simpl. by destruct (outcome c). Qed.

Lemma save_uploads_spec outcome job_tmp files saved w :
  let path_of := fun f => path_join job_tmp (filename f) in
  match save_uploads outcome job_tmp files saved w with
  | (Return paths, w') =>
      paths = saved ++ map path_of files
      /\ w' = with_calls (map CallSaveUpload (map path_of files)) w
      /\ Forall (fun c => outcome c = None)
           (map CallSaveUpload (map path_of files))
  | (Raise e, w') =>
      exists before c rest msg,
        map CallSaveUpload (map path_of files) = before ++ c :: rest
        /\ Forall (fun c => outcome c = None) before
        /\ outcome c = Some msg /\ e = StageError msg
        /\ w' = with_calls (before ++ [c]) w
  end.
Proof.
  intros path_of. revert saved w.
  induction files as [|f files IH]; intros saved w; simpl.
  { unfold ret. rewrite app_nil_r, with_calls_nil. by split_and!. }
  unfold bind at 1. rewrite perform_with_calls.
  destruct (outcome (CallSaveUpload (path_join job_tmp (filename f))))
    as [msg|] eqn:Hout.
  - exists [], (CallSaveUpload (path_of f)),
      (map CallSaveUpload (map path_of files)), msg.
    by split_and!.
  - specialize (IH (saved ++ [path_join job_tmp (filename f)])
                  (with_calls [CallSaveUpload (path_of f)] w)).
    fold path_of.
    destruct (save_uploads _ _ _ _ _) as [[paths|e] w'].
    + destruct IH as (-> & -> & Hall). split_and!.
      * by rewrite <- app_assoc.
      * by rewrite with_calls_app.
      * by constructor.
    + destruct IH as (before & c & rest & msg & Heq & Hall & Hc & -> & ->).
      exists (CallSaveUpload (path_of f) :: before), c, rest, msg.
      split_and!; try done.
      * simpl. by rewrite Heq.
      * by constructor.
      * by rewrite with_calls_app.
Qed.

Section SubmissionOutcome.

Variable outcome : call -> option str.
Variable path_exists : nat -> str -> bool.
Variable voice_map : gmap ustr str.
Variables (job_id script title : str) (images clips : list upload).
Variables (resolution : str) (fps : Z).

Local Abbreviation endpoint :=
  (generate_movie_endpoint outcome path_exists voice_map job_id script title
     images clips resolution fps).
Local Abbreviation calls := (submission_calls job_id images clips).
Local Abbreviation task :=
  (worker_render_movie outcome path_exists voice_map job_id script
     (saved_paths job_id images) (saved_paths job_id clips) title resolution
     fps).

(** The world once the endpoint has stored the pending record. *)
Local Abbreviation stored w0 :=
  ({| JOB_STORE := <[job_id := pending_record]> (JOB_STORE w0);
      log := log w0
             ++ [Event (ActStore job_id pending_record)
                   (<[job_id := pending_record]> (JOB_STORE w0))] |}).

Lemma generate_movie_endpoint_spec w0 :
  match endpoint w0 with
  | (Return submitted, w') =>
      Forall (fun c => outcome c = None) calls
      /\ submitted = (job_id, task)
      /\ w' = (let w3 :=
                 commit_writes job_id [SetStatus Running; SetProgress 1]
                   (with_calls calls (stored w0)) in
               {| JOB_STORE := JOB_STORE w3;
                  log := log w3
                         ++ [Event (ActCreateTask job_id) (JOB_STORE w3)] |})
  | (Raise e, w') =>
      exists before c rest msg,
        calls = before ++ c :: rest
        /\ Forall (fun c => outcome c = None) before
        /\ outcome c = Some msg /\ e = StageError msg
        /\ w' = with_calls (before ++ [c]) (stored w0)
  end.
Proof.
  unfold generate_movie_endpoint, submission_calls, saved_paths.
  unfold bind at 1. unfold store_job, record. cbn [JOB_STORE log].
  fold pending_record.
  unfold bind at 1. rewrite perform_with_calls.
  destruct (outcome (CallMakedirs (path_join TMP_DIR job_id)))
    as [msg|] eqn:Hmk.
  { exists [], (CallMakedirs (path_join TMP_DIR job_id)). eexists _, msg.
    by split_and!. }
  unfold bind at 1.
  pose proof (save_uploads_spec outcome (path_join TMP_DIR job_id) images []
                (with_calls [CallMakedirs (path_join TMP_DIR job_id)]
                   (stored w0))) as Himg.
  cbv zeta in Himg.
  destruct (save_uploads _ _ images _ _) as [[saved_images|e] wi].
  2:{ destruct Himg as (before & c & rest & msg & Heq & Hall & Hc & -> & ->).
      exists (CallMakedirs (path_join TMP_DIR job_id) :: before), c.
      eexists (rest ++ _), msg. split_and!; try done.
      - rewrite map_app, Heq, <- app_assoc. done.
      - by constructor.
      - by rewrite with_calls_app. }
  destruct Himg as (-> & -> & Hall_img). rewrite with_calls_app.
  unfold bind at 1.
  pose proof (save_uploads_spec outcome (path_join TMP_DIR job_id) clips []
                (with_calls
                   ([CallMakedirs (path_join TMP_DIR job_id)]
                    ++ map CallSaveUpload
                         (map (fun f => path_join (path_join TMP_DIR job_id)
                                          (filename f)) images))
                   (stored w0))) as Hclip.
  cbv zeta in Hclip.
  destruct (save_uploads _ _ clips _ _) as [[saved_clips|e] wc].
  2:{ destruct Hclip as (before & c & rest & msg & Heq & Hall & Hc & -> & ->).
      eexists (_ :: _ ++ before), c, rest, msg. split_and!; try done.
      - rewrite map_app, Heq. simpl. by rewrite <- app_assoc.
      - constructor; [done|]. by apply Forall_app.
      - rewrite with_calls_app. simpl. by rewrite <- app_assoc. }
  destruct Hclip as (-> & -> & Hall_clip). rewrite with_calls_app.
  assert (JOB_STORE
            (with_calls
               (([CallMakedirs (path_join TMP_DIR job_id)]
                 ++ map CallSaveUpload
                      (map (fun f => path_join (path_join TMP_DIR job_id)
                                       (filename f)) images))
                ++ map CallSaveUpload
                     (map (fun f => path_join (path_join TMP_DIR job_id)
                                      (filename f)) clips))
               (stored w0)) !! job_id = Some pending_record) as Hj.
  { simpl. apply lookup_insert_eq. }
  rewrite (set_field_bind _ _ _ _ _ Hj).
  pose proof (commit_write_lookup job_id (SetStatus Running) _ _ Hj) as Hj1.
  rewrite (set_field_bind _ _ _ _ _ Hj1).
  unfold bind, create_task, record, ret. simpl app at 1 2.
  split_and!.
  - constructor; [done|]. rewrite map_app. by apply Forall_app.
  - reflexivity.
  - rewrite map_app. reflexivity.
Qed.

End SubmissionOutcome.

Lemma map_act_with_calls (st : gmap str job) cs :
  map act (map (fun c => Event (ActCall c) st) cs) = map ActCall cs.
Proof. rewrite map_map. by apply map_ext. Qed.

Lemma status_writes_calls job_id cs :
  status_writes job_id (map ActCall cs) = [].
Proof. induction cs as [|c cs IH]; [done|]. by simpl. Qed.

Section SubmissionTheorems.

Variable outcome : call -> option str.
Variable path_exists : nat -> str -> bool.
Variable voice_map : gmap ustr str.
Variables (job_id script title : str) (images clips : list upload).
Variables (resolution : str) (fps : Z).

Local Abbreviation endpoint :=
  (generate_movie_endpoint outcome path_exists voice_map job_id script title
     images clips resolution fps).
Local Abbreviation job_run :=
  (run_job outcome path_exists voice_map job_id script title images clips
     resolution fps).
Local Abbreviation calls := (submission_calls job_id images clips).
Local Abbreviation task :=
  (worker_render_movie outcome path_exists voice_map job_id script
     (saved_paths job_id images) (saved_paths job_id clips) title resolution
     fps).

Lemma endpoint_outcome w0 :
  exists evs,
    log (endpoint w0).2 = log w0 ++ evs
    /\ (forall other, other <> job_id ->
          JOB_STORE (endpoint w0).2 !! other = JOB_STORE w0 !! other)
    /\ match (endpoint w0).1 with
       | Return submitted =>
           Forall (fun c => outcome c = None) calls
           /\ submitted = (job_id, task)
           /\ JOB_STORE (endpoint w0).2 !! job_id = Some running_record
           /\ map act evs
              = ActStore job_id pending_record
                :: map ActCall calls
                   ++ [ActSet job_id (SetStatus Running);
                       ActSet job_id (SetProgress 1);
                       ActCreateTask job_id]
       | Raise e =>
           exists before c rest msg,
             calls = before ++ c :: rest
             /\ Forall (fun c => outcome c = None) before
             /\ outcome c = Some msg /\ e = StageError msg
             /\ JOB_STORE (endpoint w0).2 !! job_id = Some pending_record
             /\ map act evs
                = ActStore job_id pending_record
                  :: map ActCall (before ++ [c])
       end.
Proof.
  pose proof (generate_movie_endpoint_spec outcome path_exists voice_map
                job_id script title images clips resolution fps w0) as H.
  destruct (endpoint w0) as [[submitted|e] w']; cbn [fst snd].
  - destruct H as (Hall & -> & ->).
    erewrite commit_writes_cons by (simpl; apply lookup_insert_eq).
    erewrite commit_writes_cons by (simpl; apply lookup_insert_eq).
    unfold commit_writes. simpl. rewrite <- !app_assoc.
    eexists. split; [done|]. split_and!; try done.
    + intros other Hne. by rewrite !lookup_insert_ne.
    + by rewrite lookup_insert_eq.
    + simpl. rewrite map_app, map_act_with_calls. simpl. done.
  - destruct H as (before & c & rest & msg & Heq & Hall & Hc & -> & ->).
    simpl. rewrite <- !app_assoc.
    eexists. split; [done|]. split.
    + intros other Hne. by rewrite lookup_insert_ne.
    + exists before, c, rest, msg. split_and!; try done.
      * by rewrite lookup_insert_eq.
      * simpl. by rewrite map_act_with_calls.
Qed.

(** X15.  The submission endpoint stores the job as pending with progress 0,
    creates the job's directory and saves the uploads, images first, each
    at [os.path.join(os.path.join(TMP_DIR, job_id), filename)].  When
    these calls all return, it leaves the job running with progress 1 and
    hands the event loop a worker for exactly the saved paths.  When one
    of them raises, the exception escapes, the later uploads are not
    saved, no worker is created and the job stays pending with progress
    0.  No other job's record changes. *)
Theorem generate_movie_endpoint_outcome (w0 : world) :
  exists evs,
    log (endpoint w0).2 = log w0 ++ evs
    /\ (forall other, other <> job_id ->
          JOB_STORE (endpoint w0).2 !! other = JOB_STORE w0 !! other)
    /\ match (endpoint w0).1 with
       | Return submitted =>
           Forall (fun c => outcome c = None) calls
           /\ submitted = (job_id, task)
           /\ JOB_STORE (endpoint w0).2 !! job_id = Some running_record
           /\ map act evs
              = ActStore job_id pending_record
                :: map ActCall calls
                   ++ [ActSet job_id (SetStatus Running);
                       ActSet job_id (SetProgress 1);
                       ActCreateTask job_id]
       | Raise e =>
           exists before c rest msg,
             calls = before ++ c :: rest
             /\ Forall (fun c => outcome c = None) before
             /\ outcome c = Some msg /\ e = StageError msg
             /\ JOB_STORE (endpoint w0).2 !! job_id = Some pending_record
             /\ map act evs
                = ActStore job_id pending_record
                  :: map ActCall (before ++ [c])
       end.
Proof. apply endpoint_outcome. Qed.

(** X16.  Over the whole run of a job, its status is written at most twice:
    the job is stored as pending; if the submission raises, the status is
    never written and stays pending; otherwise it is written running and
    then exactly once more, done or error, and that last value is the
    status the job ends with. *)
Theorem run_job_status_transitions (w0 : world) :
  exists evs rest,
    log (job_run w0).2 = log w0 ++ evs
    /\ map act evs = ActStore job_id pending_record :: rest
    /\ match (job_run w0).1 with
       | Return _ =>
           exists j,
             JOB_STORE (job_run w0).2 !! job_id = Some j
             /\ ((status_writes job_id rest = [Running; Done]
                  /\ status j = Done)
                 \/ (status_writes job_id rest = [Running; Error]
                     /\ status j = Error))
       | Raise _ =>
           status_writes job_id rest = []
           /\ JOB_STORE (job_run w0).2 !! job_id = Some pending_record
       end.
Proof.
  destruct (endpoint_outcome w0) as (evs0 & Hlog0 & _ & Hend).
  unfold run_job, bind.
  destruct (endpoint w0) as [[submitted|e] w1]; cbn [fst snd] in *.
  - destruct Hend as (_ & -> & Hj1 & Hact). cbn [snd].
    destruct (worker_outcome outcome path_exists voice_map job_id script
                (saved_paths job_id images) (saved_paths job_id clips)
                title resolution fps w1 running_record Hj1)
      as (evs1 & Hret & Hlog1 & Hcases).
    destruct (worker_render_movie _ _ _ _ _ _ _ _ _ _ w1) as [r w2].
    cbn [fst snd] in *. subst r.
    exists (evs0 ++ evs1). eexists. split_and!.
    + by rewrite Hlog1, Hlog0, <- app_assoc.
    + rewrite map_app, Hact. simpl. reflexivity.
    + assert (forall s,
                status_writes job_id (map act evs1) = [s] ->
                status_writes job_id
                  ((map ActCall calls
                    ++ [ActSet job_id (SetStatus Running);
                        ActSet job_id (SetProgress 1);
                        ActCreateTask job_id]) ++ map act evs1)
                = [Running; s]) as Hss.
      { intros s Hs. rewrite !status_writes_app, status_writes_calls, Hs.
        simpl. by rewrite bool_decide_eq_true_2. }
      destruct Hcases as [(_ & Hrec & Hs)|(e & _ & Hrec & Hs)];
        eexists; (split; [exact Hrec|]).
      * left. split; [by apply Hss|done].
      * right. split; [by apply Hss|done].
  - destruct Hend as (before & c & rest & msg & _ & _ & _ & _ & Hj & Hact).
    exists evs0. eexists. split_and!; [done|exact Hact| |done].
    apply status_writes_calls.
Qed.

End SubmissionTheorems.

(** ** Looping a clip *)

Lemma py_int_inject_Z z : py_int (inject_Z z) = z.
Proof. unfold py_int. simpl. apply Z.quot_1_r. Qed.

Lemma py_max_lower a b : (a <= py_max a b)%Q.
Proof. unfold py_max. destruct (Qlt_le_dec a b); lra. Qed.

Lemma py_max_of_ge a b : (a <= b)%Q -> (py_max a b == b)%Q.
Proof. unfold py_max. intros H. destruct (Qlt_le_dec a b); lra. Qed.

Lemma loop_times_eq clip_duration duration :
  loop_times clip_duration duration
  = Qfloor (inject_Z duration / py_max FLOAT_0_1 clip_duration) + 1.
Proof. unfold loop_times. by rewrite py_int_inject_Z. Qed.

Lemma loop_times_bounds (clip_duration : Q) (duration : Z) :
  0 <= duration ->
  1 <= loop_times clip_duration duration <= 10 * duration + 1
  /\ ((FLOAT_0_1 <= clip_duration)%Q ->
      (inject_Z duration
       < inject_Z (loop_times clip_duration duration) * clip_duration)%Q
      /\ (inject_Z (loop_times clip_duration duration - 1) * clip_duration
          <= inject_Z duration)%Q).
Proof.
  intros Hd. rewrite loop_times_eq.
  set (m := py_max FLOAT_0_1 clip_duration).
  assert (FLOAT_0_1 <= m)%Q as Hm by apply py_max_lower.
  assert (0 < FLOAT_0_1)%Q as H01 by done.
  assert (1 # 10 < FLOAT_0_1)%Q as H10 by done.
  assert (0 < m)%Q as Hpos by lra.
  set (q := (inject_Z duration / m)%Q).
  assert (q * m == inject_Z duration)%Q as Hq.
  { unfold q. field. lra. }
  assert (0 <= inject_Z duration)%Q as Hd'.
  { change 0%Q with (inject_Z 0). by rewrite <- Zle_Qle. }
  pose proof (Qfloor_le q) as Hfl.
  pose proof (Qlt_floor q) as Hfu.
  assert (0 <= q)%Q as Hq0.
  { unfold q. apply Qle_shift_div_l; [done|]. lra. }
  assert (q <= inject_Z (10 * duration))%Q as Hq10.
  { unfold q. apply Qle_shift_div_r; [done|].
    rewrite inject_Z_mult. change (inject_Z 10) with (10 # 1)%Q. nra. }
  split.
  - split.
    + assert (0 <= Qfloor q); [|lia].
      change 0 with (Qfloor 0). by apply Qfloor_resp_le.
    + assert (Qfloor q <= 10 * duration); [|lia].
      rewrite <- (Qfloor_Z (10 * duration)). by apply Qfloor_resp_le.
  - intros Hclip.
    assert (m == clip_duration)%Q as Hmc by (by apply py_max_of_ge).
    rewrite <- Hmc.
    replace (Qfloor q + 1 - 1) with (Qfloor q) by lia.
    rewrite inject_Z_plus in *. change (inject_Z 1) with 1%Q in *.
    split; nra.
Qed.

Lemma loop_times_at_least_2 (clip_duration : Q) (duration : Z) :
  (0 <= clip_duration)%Q -> (clip_duration < inject_Z duration)%Q ->
  1 <= duration /\ 2 <= loop_times clip_duration duration.
Proof.
  intros Hc Hlt.
  assert (0 < inject_Z duration)%Q as Hd by lra.
  change 0%Q with (inject_Z 0) in Hd. rewrite <- Zlt_Qlt in Hd.
  assert (1 <= duration) as Hd1 by lia.
  split; [done|].
  rewrite loop_times_eq.
  set (m := py_max FLOAT_0_1 clip_duration).
  assert (FLOAT_0_1 <= m)%Q as Hm by apply py_max_lower.
  assert (0 < FLOAT_0_1)%Q as H01 by done.
  assert (FLOAT_0_1 < 1)%Q as H1 by done.
  assert (0 < m)%Q as Hpos by lra.
  assert (1 <= inject_Z duration)%Q as Hd1'.
  { change 1%Q with (inject_Z 1). by rewrite <- Zle_Qle. }
  assert (m <= inject_Z duration)%Q as Hmd.
  { unfold m, py_max. destruct (Qlt_le_dec _ _); lra. }
  assert (1 <= inject_Z duration / m)%Q as Hq.
  { apply Qle_shift_div_l; [done|]. lra. }
  assert (1 <= Qfloor (inject_Z duration / m)); [|lia].
  rewrite <- (Qfloor_Z 1) at 1.
  apply Qfloor_resp_le. exact Hq.
Qed.

(** X18.  When [clip_trim_or_loop] loops a clip, which it does for a clip
    shorter than the target duration, it makes at least two copies and
    at most ten per second of the target duration, plus one.  For a
    clip of at least 0.1 seconds the copies together are longer than the
    target, so the trim that follows has enough material, and one copy
    fewer would not be longer than the target. *)
Theorem clip_loop_covers (clip_duration : Q) (duration times : Z) :
  (0 <= clip_duration)%Q ->
  clip_trim_or_loop_plan clip_duration duration = Loop times ->
  2 <= times <= 10 * duration + 1
  /\ ((FLOAT_0_1 <= clip_duration)%Q ->
      (inject_Z duration < inject_Z times * clip_duration)%Q
      /\ (inject_Z (times - 1) * clip_duration <= inject_Z duration)%Q).
Proof.
  intros Hc Hplan. unfold clip_trim_or_loop_plan in Hplan.
  destruct (Qle_bool (inject_Z duration) clip_duration) eqn:Hle; [done|].
  injection Hplan as <-.
  assert (clip_duration < inject_Z duration)%Q as Hlt.
  { apply Qnot_le_lt. intros H. apply Qle_bool_iff in H. congruence. }
  destruct (loop_times_at_least_2 _ _ Hc Hlt) as [Hd H2].
  destruct (loop_times_bounds clip_duration duration ltac:(lia))
    as [[_ Hup] Hcover].
  split; [lia|exact Hcover].
Qed.

(** [clip_loop_covers] at work: a 1.5-second clip looped for 4 seconds
    is copied three times. *)
Lemma clip_loop_covers_witness :
  (0 <= 3 # 2)%Q
  /\ clip_trim_or_loop_plan (3 # 2) 4 = Loop 3
  /\ 2 <= 3 <= 10 * 4 + 1
  /\ (inject_Z 4 < inject_Z 3 * (3 # 2))%Q.
Proof.
  assert (0 <= 3 # 2)%Q as Hc by done.
  assert (clip_trim_or_loop_plan (3 # 2) 4 = Loop 3) as Hplan
    by reflexivity.
  assert (FLOAT_0_1 <= 3 # 2)%Q as Hlong by done.
  pose proof (clip_loop_covers (3 # 2) 4 3 Hc Hplan) as [Hn Hcover].
  split_and!; [exact Hc|exact Hplan|exact (proj1 Hn)|exact (proj2 Hn)|].
  exact (proj1 (Hcover Hlong)).
Defined.

(** ** The order of the stages *)

Lemma call_phases_app a b :
  call_phases (a ++ b) = call_phases a ++ call_phases b.
Proof. unfold call_phases. apply flat_map_app. Qed.

Lemma call_phase_le_4 c : call_phase c <= 4.
Proof. destruct c; simpl; lia. Qed.

Section StageOrder.

Variable outcome : call -> option str.
Variable path_exists : nat -> str -> bool.
Variable voice_map : gmap ustr str.
Variables (job_id script : str) (images clips : list str).
Variables (title resolution : str) (fps : Z).
Variable l0 : list event.

Local Abbreviation late := (fun (_ : exn) => in_phase l0 4).

Lemma in_phase_weaken k k' w : k <= k' -> in_phase l0 k w -> in_phase l0 k' w.
Proof.
  intros Hk (evs & Hlog & Hs & Hb). exists evs. split_and!; try done.
  eapply Forall_impl; [exact Hb|]. simpl. intros. lia.
Qed.

Lemma perform_in_phase k c :
  k <= call_phase c ->
  triple (in_phase l0 k) (perform outcome c)
    (fun _ => in_phase l0 (call_phase c)) late.
Proof.
  intros Hk w (evs & Hlog & Hs & Hb). unfold perform.
  assert (in_phase l0 (call_phase c)
            {| JOB_STORE := JOB_STORE w;
               log := log w ++ [Event (ActCall c) (JOB_STORE w)] |}) as H.
  { exists (evs ++ [Event (ActCall c) (JOB_STORE w)]). simpl.
    rewrite Hlog, <- app_assoc. split; [done|].
    rewrite call_phases_app. simpl.
    assert (Forall (fun p => p <= call_phase c) (call_phases evs)) as Hb'.
    { eapply Forall_impl; [exact Hb|]. simpl. intros. lia. }
    split; [by apply sorted_snoc|].
    apply Forall_app. split; [done|]. by constructor. }
  destruct (outcome c); [|done].
  eapply in_phase_weaken; [|exact H]. apply call_phase_le_4.
Qed.

Lemma perform_then_ret_in_phase {A} k c (a : A) :
  k <= call_phase c ->
  triple (in_phase l0 k) (bind (perform outcome c) (fun _ => ret a))
    (fun _ => in_phase l0 (call_phase c)) late.
Proof.
  intros Hk. eapply triple_bind; [by apply perform_in_phase|]. intros ?.
  apply (triple_ret a (fun _ => in_phase l0 (call_phase c))).
Qed.

Lemma set_field_in_phase k id fw :
  k <= 4 ->
  triple (in_phase l0 k) (set_field id fw) (fun _ => in_phase l0 k) late.
Proof.
  intros Hk w Hw. unfold set_field, record.
  destruct (JOB_STORE w !! id) as [j|].
  - destruct Hw as (evs & Hlog & Hs & Hb). simpl.
    eexists (evs ++ [_]). rewrite Hlog, <- app_assoc. split; [done|].
    rewrite call_phases_app. simpl. by rewrite app_nil_r.
  - by apply (in_phase_weaken k 4).
Qed.

Lemma synthesize_scene_in_phase n k sc acc :
  triple (in_phase l0 1) (synthesize_scene outcome voice_map job_id n k sc acc)
    (fun _ => in_phase l0 1) late.
Proof.
  unfold synthesize_scene, synthesize_character_voice, synthesize_with_gtts.
  eapply triple_bind with (Q := fun _ => in_phase l0 1).
  { destruct (startswith _ _);
      (eapply triple_bind;
       [by apply (perform_then_ret_in_phase 1 (CallGtts _ _ _))|]);
      intros ?; apply (triple_ret _ (fun _ => in_phase l0 1)). }
  intros ?. eapply triple_bind; [by apply set_field_in_phase|]. intros ?.
  apply (triple_ret _ (fun _ => in_phase l0 1)).
Qed.

Lemma render_scene_in_phase n audio k sc acc :
  triple (in_phase l0 2)
    (render_scene outcome path_exists job_id images clips resolution fps n
       audio k sc acc)
    (fun _ => in_phase l0 2) late.
Proof.
  unfold render_scene, image_to_video, clip_trim_or_loop,
    mux_video_with_audio.
  eapply triple_bind with (Q := fun _ => in_phase l0 2).
  { destruct (usable_asset _ _ _) as [asset|].
    - destruct (str_in _ _).
      + by apply (perform_then_ret_in_phase 2 (CallClipTrimOrLoop _ _ _ _ _)).
      + by apply (perform_then_ret_in_phase 2 (CallImageToVideo _ _ _ _ _)).
    - eapply triple_bind;
        [by apply (perform_in_phase 2 (CallTextSlide _ _ _))|].
      intros ?.
      by apply (perform_then_ret_in_phase 2 (CallImageToVideo _ _ _ _ _)). }
  intros ?. destruct (audio !! k) as [track|].
  2:{ intros w Hw. unfold raise. by apply (in_phase_weaken 2 4). }
  eapply triple_bind;
    [by apply (perform_then_ret_in_phase 2 (CallMux _ _ _))|].
  intros ?. eapply triple_bind; [by apply set_field_in_phase|]. intros ?.
  apply (triple_ret _ (fun _ => in_phase l0 2)).
Qed.

Lemma worker_try_in_phase :
  triple (in_phase l0 1)
    (worker_try outcome path_exists voice_map job_id script images clips
       title resolution fps)
    (fun _ => in_phase l0 4) late.
Proof.
  unfold worker_try.
  eapply triple_bind; [by apply set_field_in_phase|]. intros ?.
  eapply triple_bind; [by apply set_field_in_phase|]. intros ?.
  eapply triple_bind.
  { apply (triple_for_enumerate _ (fun _ _ => in_phase l0 1)).
    intros k sc acc _. apply synthesize_scene_in_phase. }
  intros audio.
  eapply triple_bind; [by apply set_field_in_phase|]. intros ?.
  eapply triple_bind with (Q := fun _ => in_phase l0 2).
  { eapply triple_weaken;
      [| | |apply (triple_for_enumerate _ (fun _ _ => in_phase l0 2));
            intros k sc acc _; apply render_scene_in_phase].
    - intros w Hw. by apply (in_phase_weaken 1 2).
    - intros ? w Hw. exact Hw.
    - intros e w Hw. exact Hw. }
  intros videos.
  eapply triple_bind; [by apply set_field_in_phase|]. intros ?.
  eapply triple_bind with (Q := fun _ => in_phase l0 3).
  { unfold concat_videos. destruct videos as [|v videos].
    - intros w Hw. unfold raise. by apply (in_phase_weaken 2 4).
    - by apply (perform_then_ret_in_phase 2 (CallConcat _ _)). }
  intros ?.
  eapply triple_bind; [by apply set_field_in_phase|]. intros ?.
  eapply triple_bind;
    [by apply (perform_then_ret_in_phase 3 (CallPreview _ _ _ _))|].
  intros ?.
  eapply triple_bind; [by apply set_field_in_phase|]. intros ?.
  eapply triple_bind; [by apply set_field_in_phase|]. intros ?.
  eapply triple_bind; [by apply set_field_in_phase|]. intros ?.
  by apply set_field_in_phase.
Qed.

End StageOrder.

(** X9.  The worker runs its stages in order: in its log every voice call
    comes before every rendering or mux call, these come before the
    concatenation, and the concatenation comes before the preview,
    whether the run succeeds or is cut short by an exception. *)
Theorem worker_stages_in_order
    (outcome : call -> option str) (path_exists : nat -> str -> bool)
    (voice_map : gmap ustr str) (job_id script : str)
    (images clips : list str) (title resolution : str) (fps : Z)
    (w : world) :
  exists evs,
    log (worker_render_movie outcome path_exists voice_map job_id script
           images clips title resolution fps w).2
    = log w ++ evs
    /\ Sorted Z.le (call_phases evs).
Proof.
  assert (in_phase (log w) 1 w) as Hw.
  { exists []. rewrite app_nil_r. split_and!; constructor. }
  assert (forall e,
            triple (in_phase (log w) 4) (worker_except job_id e)
              (fun _ => in_phase (log w) 4) (fun _ => in_phase (log w) 4))
    as Hexcept.
  { intros e. unfold worker_except.
    eapply triple_bind; [by apply set_field_in_phase|]. intros ?.
    eapply triple_bind; [by apply set_field_in_phase|]. intros ?.
    by apply set_field_in_phase. }
  pose proof (set_field_in_phase (log w) 1 job_id (SetProgress 5)
                ltac:(lia) w Hw) as H5.
  unfold worker_render_movie, bind, try_except.
  destruct (set_field job_id (SetProgress 5) w) as [[[]|e5] w5].
  2:{ destruct H5 as (evs & Hlog & Hs & _). by exists evs. }
  pose proof (worker_try_in_phase outcome path_exists voice_map job_id
                script images clips title resolution fps (log w) w5 H5)
    as Htry.
  destruct (worker_try _ _ _ _ _ _ _ _ _ _ w5) as [[[]|e] w1].
  - destruct Htry as (evs & Hlog & Hs & _). by exists evs.
  - pose proof (Hexcept e w1 Htry) as Hend.
    destruct (worker_except job_id e w1) as [[[]|e'] w2];
      destruct Hend as (evs & Hlog & Hs & _); by exists evs.
Qed.

(** ** What a finished job serves *)

Lemma span_until_app c (x y : str) :
  contains c x = false -> span_until c (x ++ c :: y) = (x, Some y).
Proof.
  unfold contains. induction x as [|d x IH]; simpl.
  - intros _. by rewrite ascii_eqb_refl.
  - intros H. apply orb_false_elim in H as [Hd Hx].
    assert (ascii_eqb d c = false) as ->.
    { apply ascii_eqb_false. apply ascii_eqb_false in Hd. congruence. }
    by rewrite IH.
Qed.

Lemma basename_after_slash (p b : str) :
  contains SLASH b = false -> basename (p ++ SLASH :: b) = b.
Proof.
  intros Hb. unfold basename.
  rewrite rev_app_distr. simpl. rewrite <- app_assoc. simpl.
  rewrite span_until_app by (by rewrite contains_rev).
  simpl. apply rev_involutive.
Qed.

Lemma output_path (title job_id : str) (ending : string) :
  contains SLASH title = false -> contains SLASH job_id = false ->
  contains SLASH (lit ending) = false ->
  let name := title ++ lit "_" ++ job_id ++ lit ending in
  path_join OUTPUT_DIR name = lit "outputs" ++ SLASH :: name
  /\ basename (path_join OUTPUT_DIR name) = name.
Proof.
  intros Ht Hj He name.
  assert (contains SLASH name = false) as Hname.
  { unfold name. rewrite !contains_app, Ht, Hj, He. reflexivity. }
  assert (path_join OUTPUT_DIR name = lit "outputs" ++ SLASH :: name) as Hp.
  { unfold path_join. destruct name as [|c name'] eqn:Hn; [done|].
    simpl in Hname. apply orb_false_elim in Hname as [Hc _].
    simpl. by rewrite Hc. }
  split; [exact Hp|]. rewrite Hp. by apply basename_after_slash.
Qed.

Lemma serve_output (p name msg : str) :
  p = lit "outputs" ++ SLASH :: name -> basename p = name ->
  match p with
  | [] => NotFound msg
  | c :: q => FileResponse (c :: q) (basename (c :: q))
  end
  = FileResponse (lit "outputs/" ++ name) name.
Proof.
  intros -> Hb.
  change (lit "outputs" ++ SLASH :: name)
    with ("o"%char :: (lit "utputs" ++ SLASH :: name)) in *.
  cbv beta iota. rewrite Hb. reflexivity.
Qed.

(** X17.  What the download and preview endpoints serve after a run.  For a
    title and a job identifier without a slash, a job the worker leaves
    done is served from [outputs/], under the names
    [<title>_<job_id>.mp4] and [<title>_<job_id>_preview.mp4]; for a job
    it leaves failed, the two endpoints answer what they answered before
    the run. *)
Theorem endpoints_after_a_run
    (outcome : call -> option str) (path_exists : nat -> str -> bool)
    (voice_map : gmap ustr str) (job_id script : str)
    (images clips : list str) (title resolution : str) (fps : Z)
    (w : world) :
  is_Some (JOB_STORE w !! job_id) ->
  contains SLASH title = false -> contains SLASH job_id = false ->
  let after :=
    JOB_STORE
      (worker_render_movie outcome path_exists voice_map job_id script
         images clips title resolution fps w).2 in
  exists j',
    after !! job_id = Some j'
    /\ (status j' = Done \/ status j' = Error)
    /\ (status j' = Done ->
        download_endpoint after job_id
        = FileResponse
            (lit "outputs/" ++ title ++ lit "_" ++ job_id ++ lit ".mp4")
            (title ++ lit "_" ++ job_id ++ lit ".mp4")
        /\ preview_endpoint after job_id
           = FileResponse
               (lit "outputs/" ++ title ++ lit "_" ++ job_id
                ++ lit "_preview.mp4")
               (title ++ lit "_" ++ job_id ++ lit "_preview.mp4"))
    /\ (status j' = Error ->
        download_endpoint after job_id
        = download_endpoint (JOB_STORE w) job_id
        /\ preview_endpoint after job_id
           = preview_endpoint (JOB_STORE w) job_id).
Proof.
  intros [j Hj] Ht Hid after.
  destruct (worker_outcome outcome path_exists voice_map job_id script
              images clips title resolution fps w j Hj)
    as (evs & _ & _ & Hend).
  destruct (output_path title job_id ".mp4" Ht Hid eq_refl) as [Hf Hfn].
  destruct (output_path title job_id "_preview.mp4" Ht Hid eq_refl)
    as [Hp Hpn].
  fold (artifact_path title job_id) in Hf, Hfn.
  fold (preview_file_path title job_id) in Hp, Hpn.
  destruct Hend as [(_ & Hrec & _)|(e & _ & Hrec & _)].
  - exists (done_record title job_id j). split; [exact Hrec|].
    split; [by left|]. split; [|done]. intros _.
    unfold download_endpoint, preview_endpoint, after. rewrite Hrec.
    cbn [file preview done_record].
    split; by apply serve_output.
  - exists (error_record e j). split; [exact Hrec|].
    split; [by right|]. split; [done|]. intros _.
    unfold download_endpoint, preview_endpoint. unfold after.
    by rewrite Hrec, Hj.
Qed.

(** [endpoints_after_a_run] at work on a one-scene job. *)
Lemma endpoints_after_a_run_witness :
  is_Some (JOB_STORE demo_world !! lit "J")
  /\ contains SLASH (lit "movie") = false
  /\ contains SLASH (lit "J") = false
  /\ exists j',
       JOB_STORE
         (worker_render_movie all_return always_exists CHAR_VOICE_MAP
            (lit "J") (lit "A: x") [] [] (lit "movie") (lit "1920x1080") 24
            demo_world).2 !! lit "J" = Some j'.
Proof.
  assert (is_Some (JOB_STORE demo_world !! lit "J")) as Hj
    by (exists demo_job; vm_compute; reflexivity).
  assert (contains SLASH (lit "movie") = false) as Ht by reflexivity.
  assert (contains SLASH (lit "J") = false) as Hid by reflexivity.
  split_and!; [exact Hj|exact Ht|exact Hid|].
  destruct (endpoints_after_a_run all_return always_exists CHAR_VOICE_MAP
              (lit "J") (lit "A: x") [] [] (lit "movie") (lit "1920x1080")
              24 demo_world Hj Ht Hid) as (j' & H & _).
  by exists j'.
Defined.
